(** * img-sanitizer: a shallow embedding of the scan / hash / dedupe / copy /
    sanitize pipeline, and the properties of its specification.

    The embedding follows [src/img_sanitizer]: [models/report.py],
    [models/image.py], [sanitizer.py] and the part of [cli.py] that resolves
    the hash sample size.  Library calls the program makes ([hashlib],
    [pathlib], [re], [shutil], [piexif], the file system) are modelled by the
    small modules at the head of the file, each from its documented
    behaviour; the worker pool is modelled by its sequential schedule (the
    files are processed one after the other in submission order). *)

From Stdlib Require Import ZArith List Strings.String Strings.Ascii Strings.Byte Lia.
From stdpp Require Import gmap strings list fin_maps.

Local Open Scope Z_scope.

(** ** Bytes *)

Abbreviation bytes := (list byte).

Definition byte_val (b : byte) : Z := Z.of_N (Byte.to_N b).

(** A bytes literal such as [b"hello world"]. *)
Definition b_lit (s : string) : bytes := list_byte_of_string s.

(** ** [hashlib.sha1]: SHA-1 as in FIPS 180-4, on 32-bit words held in [Z] *)

Module SHA1.

Definition w32 (x : Z) : Z := Z.land x 0xFFFFFFFF.
Definition add32 (x y : Z) : Z := w32 (x + y).
Definition rotl (n x : Z) : Z :=
  w32 (Z.lor (Z.shiftl x n) (Z.shiftr x (32 - n))).
Definition not32 (x : Z) : Z := Z.lxor x 0xFFFFFFFF.

(** The [n] low bytes of [x], most significant first. *)
Definition be_bytes (n : nat) (x : Z) : list Z :=
  map (fun i => Z.land (Z.shiftr x (8 * Z.of_nat i)) 0xFF) (rev (seq 0 n)).

Definition pad (msg : list Z) : list Z :=
  let len := Z.of_nat (length msg) in
  let k := Z.to_nat ((55 - len) mod 64) in
  msg ++ [0x80] ++ repeat 0 k ++ be_bytes 8 (8 * len).

Fixpoint be_words (n : nat) (bs : list Z) : list Z :=
  match n with
  | O => []
  | S n' =>
      match bs with
      | a :: b :: c :: d :: bs' =>
          Z.lor (Z.shiftl a 24) (Z.lor (Z.shiftl b 16) (Z.lor (Z.shiftl c 8) d))
          :: be_words n' bs'
      | _ => []
      end
  end.

(** The message schedule, built most recent word first. *)
Fixpoint expand (n : nat) (ws : list Z) : list Z :=
  match n with
  | O => ws
  | S n' =>
      let w := rotl 1 (Z.lxor (Z.lxor (nth 2 ws 0) (nth 7 ws 0))
                              (Z.lxor (nth 13 ws 0) (nth 15 ws 0))) in
      expand n' (w :: ws)
  end.

Definition schedule (block : list Z) : list Z :=
  rev (expand 64 (rev (be_words 16 block))).

Definition f (t : nat) (b c d : Z) : Z :=
  if (t <? 20)%nat then Z.lor (Z.land b c) (Z.land (not32 b) d)
  else if (t <? 40)%nat then Z.lxor b (Z.lxor c d)
  else if (t <? 60)%nat then Z.lor (Z.land b c) (Z.lor (Z.land b d) (Z.land c d))
  else Z.lxor b (Z.lxor c d).

Definition K (t : nat) : Z :=
  if (t <? 20)%nat then 0x5A827999
  else if (t <? 40)%nat then 0x6ED9EBA1
  else if (t <? 60)%nat then 0x8F1BBCDC
  else 0xCA62C1D6.

Record regs := Regs { ra : Z; rb : Z; rc : Z; rd : Z; re : Z }.

Definition round (s : regs) (tw : nat * Z) : regs :=
  let '(t, w) := tw in
  let tmp :=
    add32 (add32 (add32 (add32 (rotl 5 (ra s)) (f t (rb s) (rc s) (rd s)))
                        (re s)) (K t)) w in
  Regs tmp (ra s) (rotl 30 (rb s)) (rc s) (rd s).

Definition compress (h : regs) (block : list Z) : regs :=
  let s := fold_left round (combine (seq 0 80) (schedule block)) h in
  Regs (add32 (ra h) (ra s)) (add32 (rb h) (rb s)) (add32 (rc h) (rc s))
       (add32 (rd h) (rd s)) (add32 (re h) (re s)).

Definition init : regs :=
  Regs 0x67452301 0xEFCDAB89 0x98BADCFE 0x10325476 0xC3D2E1F0.

Fixpoint blocks (n : nat) (h : regs) (bs : list Z) : regs :=
  match n with
  | O => h
  | S n' => blocks n' (compress h (firstn 64 bs)) (skipn 64 bs)
  end.

(** The 20 bytes of the digest. *)
Definition digest (msg : bytes) : list Z :=
  let p := pad (map byte_val msg) in
  let h := blocks (Nat.div (length p) 64) init p in
  be_bytes 4 (ra h) ++ be_bytes 4 (rb h) ++ be_bytes 4 (rc h)
    ++ be_bytes 4 (rd h) ++ be_bytes 4 (re h).

End SHA1.

Definition hexdigit (n : Z) : ascii :=
  match n with
  | 0 => "0" | 1 => "1" | 2 => "2" | 3 => "3" | 4 => "4" | 5 => "5"
  | 6 => "6" | 7 => "7" | 8 => "8" | 9 => "9" | 10 => "a" | 11 => "b"
  | 12 => "c" | 13 => "d" | 14 => "e" | _ => "f"
  end%char.

Fixpoint hex (bs : list Z) : string :=
  match bs with
  | [] => EmptyString
  | b :: bs' =>
      String (hexdigit (Z.shiftr b 4 mod 16)) (String (hexdigit (b mod 16)) (hex bs'))
  end.

(** The hash object of [hashlib]: [update] feeds bytes, and repeated calls
    are equivalent to one call with the concatenation of their arguments, so
    the object is modelled by the bytes fed so far. *)
Module hashlib.
Record sha1_obj := { fed : bytes }.
Definition sha1 : sha1_obj := {| fed := [] |}.
Definition update (h : sha1_obj) (chunk : bytes) : sha1_obj :=
  {| fed := fed h ++ chunk |}.
Definition hexdigest (h : sha1_obj) : string := hex (SHA1.digest (fed h)).
End hashlib.

(** The reference digest of a byte sequence: [hashlib.sha1(data).hexdigest()]. *)
Definition sha1_hex (data : bytes) : string :=
  hashlib.hexdigest (hashlib.update hashlib.sha1 data).

(** ** [str]: the operations of Python strings the program uses.
    File names are modelled as strings of 8-bit characters; case mapping is
    the ASCII one. *)

Definition in_range (lo hi c : ascii) : bool :=
  ((nat_of_ascii lo <=? nat_of_ascii c) && (nat_of_ascii c <=? nat_of_ascii hi))%nat.

Definition lower_char (c : ascii) : ascii :=
  if in_range "A" "Z" c then ascii_of_nat (nat_of_ascii c + 32) else c.

Fixpoint lower (s : string) : string :=
  match s with
  | EmptyString => EmptyString
  | String c s' => String (lower_char c) (lower s')
  end.

(** [s[:n]] and [s[n:]] for [n >= 0]. *)
Fixpoint stake (n : nat) (s : string) : string :=
  match n, s with
  | S n', String c s' => String c (stake n' s')
  | _, _ => EmptyString
  end.

Fixpoint sdrop (n : nat) (s : string) : string :=
  match n, s with
  | S n', String _ s' => sdrop n' s'
  | _, _ => s
  end.

Fixpoint sall (p : ascii -> bool) (s : string) : bool :=
  match s with
  | EmptyString => true
  | String c s' => p c && sall p s'
  end.

(** [s.rfind(c)]: the highest index of [c] in [s], or [-1]. *)
Fixpoint rfind_from (c : ascii) (s : string) (i last : Z) : Z :=
  match s with
  | EmptyString => last
  | String a s' => rfind_from c s' (i + 1) (if Ascii.eqb a c then i else last)
  end.

Definition rfind (c : ascii) (s : string) : Z := rfind_from c s 0 (-1).

Definition slen (s : string) : Z := Z.of_nat (String.length s).

(** ** [pathlib]: pure paths as lists of components *)

Abbreviation path := (list string).

Module pathlib.

(** [p.name]: the final component. *)
Definition name (p : path) : string := List.last p EmptyString.

(** [p.parent]. *)
Definition parent (p : path) : path := removelast p.

(** [p.suffix]: the part of the name from its last dot on, when that dot is
    neither the first nor the last character of the name. *)
Definition suffix (p : path) : string :=
  let name := name p in
  let i := rfind "." name in
  if (0 <? i) && (i <? slen name - 1) then sdrop (Z.to_nat i) name
  else EmptyString.

(** [p.stem]: the name without its suffix. *)
Definition stem (p : path) : string :=
  let name := name p in
  let i := rfind "." name in
  if (0 <? i) && (i <? slen name - 1) then stake (Z.to_nat i) name
  else name.

(** [p / q]. *)
Definition join (p q : path) : path := p ++ q.

(** [p.relative_to(base)]: [None] stands for the [ValueError] raised when
    [base] is not a prefix of [p]. *)
Fixpoint relative_to (p base : path) : option path :=
  match base, p with
  | [], _ => Some p
  | b :: base', c :: p' => if String.eqb b c then relative_to p' base' else None
  | _ :: _, [] => None
  end.

End pathlib.

(** ** [re]: a backtracking matcher for the constructs the program's
    pattern uses.  Alternatives are tried in the order Python's engine tries
    them: a greedy optional or repetition first takes as much as it can and
    gives back on failure of what follows. *)

Module re.

Inductive regex :=
| Cls (p : ascii -> bool)       (* one character of a class, or a literal *)
| Bol                           (* ^ (no MULTILINE) *)
| Seq (r1 r2 : regex)           (* r1 r2 *)
| Opt (r : regex)               (* r? *)
| PlusCls (p : ascii -> bool)   (* [...]+ *)
| Rep (n : nat) (r : regex)     (* r{n} *)
| Grp (r : regex)               (* ( r ), group 1 *)
| Alt (r1 r2 : regex)           (* r1 | r2 *)
| Eol.                          (* $ (no MULTILINE) *)

(** A position in the subject: the index, the text from there on, and
    what group 1 holds. *)
Record mstate := MState { pos : nat; rest : string; grp1 : option string }.

Definition or_else {A} (x y : option A) : option A :=
  match x with Some a => Some a | None => y end.

Fixpoint plus_cls {A} (p : ascii -> bool) (g : option string)
    (k : mstate -> option A) (s : string) (i : nat) : option A :=
  match s with
  | String c s' =>
      if p c then or_else (plus_cls p g k s' (S i)) (k (MState (S i) s' g))
      else None
  | EmptyString => None
  end.

Fixpoint rep_n {A} (m : mstate -> (mstate -> option A) -> option A)
    (n : nat) (st : mstate) (k : mstate -> option A) : option A :=
  match n with
  | O => k st
  | S n' => m st (fun st' => rep_n m n' st' k)
  end.

Fixpoint rmatch {A} (r : regex) (st : mstate) (k : mstate -> option A) : option A :=
  match r with
  | Cls p =>
      match rest st with
      | String c s' => if p c then k (MState (S (pos st)) s' (grp1 st)) else None
      | EmptyString => None
      end
  | Bol => if Nat.eqb (pos st) 0 then k st else None
  | Seq r1 r2 => rmatch r1 st (fun st' => rmatch r2 st' k)
  | Opt r1 => or_else (rmatch r1 st k) (k st)
  | PlusCls p => plus_cls p (grp1 st) k (rest st) (pos st)
  | Rep n r1 => rep_n (rmatch r1) n st k
  | Grp r1 =>
      rmatch r1 st (fun st' =>
        k (MState (pos st') (rest st')
                  (Some (stake (pos st' - pos st) (rest st)))))
  | Alt r1 r2 => or_else (rmatch r1 st k) (rmatch r2 st k)
  | Eol =>
      match rest st with
      | EmptyString => k st
      | String c EmptyString => if Ascii.eqb c "010" then k st else None
      | _ => None
      end
  end.

(** [pattern.search(s)]: the first start position, from the left, at
    which the pattern matches. *)
Fixpoint search_at (r : regex) (i : nat) (s : string) : option mstate :=
  match rmatch r (MState i s None) Some with
  | Some st => Some st
  | None =>
      match s with
      | String _ s' => search_at r (S i) s'
      | EmptyString => None
      end
  end.

Definition search (r : regex) (s : string) : option mstate := search_at r 0 s.

(** [match.group(1)]. *)
Definition group1 (m : mstate) : string :=
  match grp1 m with Some g => g | None => EmptyString end.

(** Classes.  Under [re.IGNORECASE] a class is tested on the lower-cased
    character. *)
Definition digit (c : ascii) : bool := in_range "0" "9" c.
Definition lit (a c : ascii) : bool := Ascii.eqb a c.
Definition hex_lower (c : ascii) : bool := in_range "a" "f" c || in_range "0" "9" c.
Definition ignorecase (p : ascii -> bool) (c : ascii) : bool := p (lower_char c).


End re.

(** ** The file system, [shutil] and exceptions *)

Inductive exn :=
| FileNotFoundError | IsADirectoryError | NotADirectoryError | FileExistsError
| PermissionError | SameFileError | TypeError | ValueError
| InvalidImageDataError | PiexifError | InvalidSize.

Inductive result (A : Type) :=
| Ok (a : A)
| Raise (e : exn).
Arguments Ok {A} a.
Arguments Raise {A} e.

(** A regular file with its content, or a directory.  The flag of a file
    says whether the process may open it; the flag of a directory says whether
    the process may create entries in it. *)
Inductive node :=
| File (perm : bool) (data : bytes)
| Dir (perm : bool).

Abbreviation filesystem := (gmap path node).

Module os.

(** The root directory always exists. *)
Definition stat (fs : filesystem) (p : path) : option node :=
  match p with
  | [] => Some (Dir true)
  | _ => fs !! p
  end.

Definition is_file (fs : filesystem) (p : path) : bool :=
  match stat fs p with Some (File _ _) => true | _ => false end.

Definition is_dir (fs : filesystem) (p : path) : bool :=
  match stat fs p with Some (Dir _) => true | _ => false end.

(** [p] lies strictly below [root]. *)
Definition below (root p : path) : Prop := root `prefix_of` p /\ p <> root.

Global Instance below_dec root p : Decision (below root p).
Proof. unfold below. apply _. Defined.

(** [root.rglob("*")]: every entry below [root], of any kind. *)
Definition rglob (root : path) (fs : filesystem) : list path :=
  (map_to_list (filter (fun kv => below root kv.1) fs)).*1.

(** [open(p, "rb")] followed by reading: the content of a regular file
    the process may open. *)
Definition open_rb (fs : filesystem) (p : path) : result bytes :=
  match stat fs p with
  | Some (File true data) => Ok data
  | Some (File false _) => Raise PermissionError
  | Some (Dir _) => Raise IsADirectoryError
  | None => Raise FileNotFoundError
  end.

(** Writing [data] to [p], creating the file or replacing its content. *)
Definition write (fs : filesystem) (p : path) (data : bytes) : result filesystem :=
  match stat fs p with
  | Some (Dir _) => Raise IsADirectoryError
  | Some (File false _) => Raise PermissionError
  | Some (File true _) => Ok (<[p := File true data]> fs)
  | None =>
      match stat fs (pathlib.parent p) with
      | Some (Dir true) => Ok (<[p := File true data]> fs)
      | Some (Dir false) => Raise PermissionError
      | Some (File _ _) => Raise NotADirectoryError
      | None => Raise FileNotFoundError
      end
  end.

(** [Path.mkdir(parents=True, exist_ok=True)]: the missing directories on
    the way to [pre ++ comps] are created from the top; a regular file in
    the way is an error. *)
Fixpoint makedirs (pre : path) (comps : list string) (fs : filesystem)
    : result filesystem :=
  match comps with
  | [] => Ok fs
  | c :: cs =>
      let p := pre ++ [c] in
      match stat fs p with
      | Some (Dir _) => makedirs p cs fs
      | Some (File _ _) =>
          Raise (match cs with [] => FileExistsError | _ => NotADirectoryError end)
      | None =>
          match stat fs pre with
          | Some (Dir true) => makedirs p cs (<[p := Dir true]> fs)
          | _ => Raise PermissionError
          end
      end
  end.

Definition mkdir_parents (p : path) (fs : filesystem) : result filesystem :=
  makedirs [] p fs.

End os.

Module shutil.

(** [shutil.copy2(src, dst)]: when [dst] is a directory the file is
    copied into it under the name of [src]; otherwise [dst] is created or
    overwritten.  The copy carries the source's permission bits. *)
Definition copy2 (src dst : path) (fs : filesystem) : result filesystem :=
  let dst := if os.is_dir fs dst then dst ++ [pathlib.name src] else dst in
  if bool_decide (src = dst) then Raise SameFileError
  else
    match os.open_rb fs src with
    | Raise e => Raise e
    | Ok data => os.write fs dst data
    end.

End shutil.

(** ** [piexif]: the metadata library, by its interface *)

Inductive tagval :=
| TInt (n : Z)
| TBytes (b : bytes).

(** Python truthiness of a value found in a metadata dictionary. *)
Definition truthy (v : option tagval) : bool :=
  match v with
  | Some (TInt n) => negb (n =? 0)
  | Some (TBytes b) => match b with [] => false | _ => true end
  | None => false
  end.

(** The dictionary [piexif.load] returns and [piexif.dump] takes: one table
    of tags per block, the thumbnail and the colour profile entry the program
    looks for. *)
Record exif_dict := ExifDict {
  ifd_0th : gmap Z tagval;
  ifd_Exif : gmap Z tagval;
  ifd_GPS : gmap Z tagval;
  ifd_1st : gmap Z tagval;
  ifd_Interop : gmap Z tagval;
  thumbnail : option bytes;
  ICC : option tagval
}.

(** [piexif.ImageIFD.Orientation]. *)
Definition Orientation : Z := 274.

(** The three entry points the program calls, on file contents; [None]
    stands for a raised exception. *)
Record piexif_lib := Piexif {
  piexif_load : bytes -> option exif_dict;
  piexif_dump : exif_dict -> option bytes;
  piexif_insert : bytes -> bytes -> option bytes
}.

(** ** The state of a run and the monad of the program's methods *)

(** [models/report.py]: the three counters of [Report]. *)
Record Report := mkReport { ignored : Z; copied : Z; failed : Z }.

(** [Report.__init__]. *)
Definition Report_init : Report := {| ignored := 0; copied := 0; failed := 0 |}.

Inductive level := DEBUG | INFO | WARNING | ERROR.

(** A record of the logger: its level, the function that logged it (the
    [funcName] of the logging module), the message template and the path the
    message names. *)
Record log_record := LogRecord {
  lvl : level;
  funcName : string;
  template : string;
  about : option path
}.

(** What a method can read and change: the file system, the [Report] of
    the sanitizer and the log. *)
Record World := mkWorld { fs : filesystem; report : Report; log : list log_record }.

Definition set_fs (fs' : filesystem) (w : World) : World :=
  {| fs := fs'; report := report w; log := log w |}.
Definition set_report (r : Report) (w : World) : World :=
  {| fs := fs w; report := r; log := log w |}.
Definition add_log (rec : log_record) (w : World) : World :=
  {| fs := fs w; report := report w; log := log w ++ [rec] |}.

Definition M (A : Type) : Type := World -> result A * World.

Global Instance M_ret : MRet M := fun A a w => (Ok a, w).

Global Instance M_bind : MBind M := fun A B f m w =>
  match m w with
  | (Ok a, w') => f a w'
  | (Raise e, w') => (Raise e, w')
  end.

Definition raise {A} (e : exn) : M A := fun w => (Raise e, w).

(** [try: body except Exception as e: handler e]. *)
Definition try_except {A} (body : M A) (handler : exn -> M A) : M A := fun w =>
  match body w with
  | (Ok a, w') => (Ok a, w')
  | (Raise e, w') => handler e w'
  end.

Definition get_fs : M filesystem := fun w => (Ok (fs w), w).

(** Lifting of a file-system operation that returns the new file system. *)
Definition fs_update (op : filesystem -> result filesystem) : M unit := fun w =>
  match op (fs w) with
  | Ok fs' => (Ok tt, set_fs fs' w)
  | Raise e => (Raise e, w)
  end.

(** Lifting of a file-system operation that only reads. *)
Definition fs_read {A} (op : filesystem -> result A) : M A := fun w => (op (fs w), w).

Definition logger (l : level) (func t : string) (p : option path) : M unit := fun w =>
  (Ok tt, add_log (LogRecord l func t p) w).

Definition update_report (f : Report -> Report) : M unit := fun w =>
  (Ok tt, set_report (f (report w)) w).

(** [self.report.ignored += 1] and its two siblings. *)
Definition incr_ignored : M unit :=
  update_report (fun r => {| ignored := ignored r + 1; copied := copied r; failed := failed r |}).
Definition incr_copied : M unit :=
  update_report (fun r => {| ignored := ignored r; copied := copied r + 1; failed := failed r |}).
Definition incr_failed : M unit :=
  update_report (fun r => {| ignored := ignored r; copied := copied r; failed := failed r + 1 |}).

(** A [for] loop whose body returns nothing. *)
Fixpoint for_each {A} (body : A -> M unit) (l : list A) : M unit :=
  match l with
  | [] => mret tt
  | x :: l' => body x ;; for_each body l'
  end.

(** ** [models/image.py] *)

Record Image := mkImage { img_path : path; sha1 : string }.

Definition filename (im : Image) : string := pathlib.name (img_path im).
Definition extension (im : Image) : string := lower (pathlib.suffix (img_path im)).
Definition short_sha (im : Image) : string := stake 12 (sha1 im).

(** ** [sanitizer.py] *)

(** A value of the dynamically typed [hash_sample_size]: [None], an integer
    byte count, or a string the command line left unresolved. *)
Inductive pyval :=
| PyNone
| PyInt (n : Z)
| PyStr (s : string).

Record Sanitizer := mkSanitizer {
  source : path;
  dest : path;
  worker : Z;
  _hash_sample_size : pyval
}.

(** [f.read(n)] on a binary file of which [rest] is still unread: the whole
    rest for a negative [n], at most [n] bytes otherwise. *)
Definition file_read (n : Z) (rest : bytes) : bytes * bytes :=
  if n <? 0 then (rest, [])
  else (take (Z.to_nat n) rest, drop (Z.to_nat n) rest).

(** The [while True] loop of [_sha1_file].  Every round either stops or
    consumes at least one byte, so [fuel] bounds the rounds. *)
Fixpoint sha1_loop (fuel : nat) (buffer_size : Z) (remaining : option Z)
    (f : bytes) (h : hashlib.sha1_obj) : option hashlib.sha1_obj :=
  match fuel with
  | O => None
  | S fuel' =>
      let chunk_size :=
        match remaining with
        | None => buffer_size
        | Some r => Z.min buffer_size r
        end in
      let '(chunk, f') := file_read chunk_size f in
      match chunk with
      | [] => Some h
      | _ =>
          let h := hashlib.update h chunk in
          match remaining with
          | None => sha1_loop fuel' buffer_size None f' h
          | Some r =>
              let r := r - Z.of_nat (length chunk) in
              if r <=? 0 then Some h
              else sha1_loop fuel' buffer_size (Some r) f' h
          end
      end
  end.

Definition lift_option {A} (e : exn) (o : option A) : M A :=
  match o with
  | Some a => mret a
  | None => raise e
  end.

Definition is_jpeg_suffix (f : path) : bool :=
  let s := lower (pathlib.suffix f) in
  String.eqb s ".jpg" || String.eqb s ".jpeg".

(** [re.compile(r"(?:^\d+_)?([a-f0-9]{12})", re.IGNORECASE)]. *)
Definition hash_pattern : re.regex :=
  re.Seq
    (re.Opt (re.Seq re.Bol
               (re.Seq (re.PlusCls (re.ignorecase re.digit))
                       (re.Cls (re.ignorecase (re.lit "_"))))))
    (re.Grp (re.Rep 12 (re.Cls (re.ignorecase re.hex_lower)))).

(** The body of the loop over [self.dest.rglob("*")] in [run]. *)
Definition add_existing (fs0 : filesystem) (existing_hashes : gset string)
    (f : path) : gset string :=
  if os.is_file fs0 f then
    match re.search hash_pattern (pathlib.stem f) with
    | Some m => existing_hashes ∪ {[ lower (re.group1 m) ]}
    | None => existing_hashes
    end
  else existing_hashes.

Section Sanitizer.

Variable piexif : piexif_lib.
Variable self : Sanitizer.

(** The file is opened, then the loop runs with fuel for one round more
    than the file has bytes; the loop ends within that fuel
    ([sha1_loop_spec]), so the error [lift_option] could raise on an
    exhausted loop never occurs. *)
Definition _sha1_file (filepath : path) (buffer_size : Z) (sample_size : pyval)
    : M string :=
  data ← fs_read (fun fs => os.open_rb fs filepath);
  remaining ← match sample_size with
              | PyNone => mret None
              | PyInt n => mret (Some n)
              | PyStr _ => raise TypeError
              end;
  h ← lift_option ValueError
        (sha1_loop (S (length data)) buffer_size remaining data hashlib.sha1);
  let sha1 := hashlib.hexdigest h in
  logger DEBUG "_sha1_file" "SHA1 of %s : %s" (Some filepath);;
  mret sha1.

(** The metadata of the file at [path] is loaded, a dictionary holding
    only the orientation and the colour profile is dumped and inserted into
    the file; any error is caught, logged and counted in [failed]. *)
Definition _clean_exif (path : path) : M unit :=
  try_except
    (data ← fs_read (fun fs => os.open_rb fs path);
     exif_dict ← lift_option InvalidImageDataError (piexif_load piexif data);
     let orientation := ifd_0th exif_dict !! Orientation in
     let icc_profile := ICC exif_dict in
     let new_0th : gmap Z tagval :=
       match orientation with
       | Some v => if truthy orientation then {[ Orientation := v ]} else ∅
       | None => ∅
       end in
     let new_exif :=
       {| ifd_0th := new_0th; ifd_Exif := ∅; ifd_GPS := ∅; ifd_1st := ∅;
          ifd_Interop := ∅; thumbnail := None;
          ICC := if truthy icc_profile then icc_profile else None |} in
     exif_bytes ← lift_option PiexifError (piexif_dump piexif new_exif);
     image ← fs_read (fun fs => os.open_rb fs path);
     new_data ← lift_option InvalidImageDataError
                  (piexif_insert piexif exif_bytes image);
     fs_update (fun fs => os.write fs path new_data))
    (fun e =>
       logger ERROR "_clean_exif" "Error on %s : %s" (Some path);;
       incr_failed).

(** The directory of the image relative to the source root is created
    under the destination root, and the image is copied there under its
    short digest followed by its extension. *)
Definition _copy_image (image : Image) : M path :=
  relative_dir ← lift_option ValueError
    (pathlib.relative_to (pathlib.parent (img_path image)) (source self));
  let final_dir := pathlib.join (dest self) relative_dir in
  fs_update (os.mkdir_parents final_dir);;
  let new_name := (short_sha image +:+ extension image)%string in
  let dst_path := pathlib.join final_dir [new_name] in
  fs_update (shutil.copy2 (img_path image) dst_path);;
  mret dst_path.

(** One file: digest, test against the index, copy, sanitize; errors are
    caught and counted in [failed]. *)
Definition _process_file (src_path : path) (existing_hashes : gset string)
    : M unit :=
  try_except
    (sha1 ← _sha1_file src_path 65536 (_hash_sample_size self);
     let image := {| img_path := src_path; sha1 := sha1 |} in
     if bool_decide (short_sha image ∈ existing_hashes) then
       logger DEBUG "_process_file" "Ignored (SHA1 exists): %s" (Some (img_path image));;
       incr_ignored
     else
       dst_path ← _copy_image image;
       _clean_exif dst_path;;
       logger INFO "_process_file" "Processed: %s" (Some dst_path);;
       incr_copied)
    (fun e =>
       logger ERROR "_process_file" "Error on %s : %s" (Some src_path);;
       incr_failed).

(** The list comprehension of [run]: every entry below the source root
    whose lower-cased suffix is [.jpg] or [.jpeg]. *)
Definition scan_source (fs0 : filesystem) : list path :=
  List.filter is_jpeg_suffix (os.rglob (source self) fs0).

(** The loop of [run] that collects the fingerprints of the destination. *)
Definition scan_dest (fs0 : filesystem) : gset string :=
  fold_left (add_existing fs0) (os.rglob (dest self) fs0) ∅.

(** The pipeline: scan the source, index the destination, process every
    file.  The pool of [worker] threads is modelled by its sequential
    schedule. *)
Definition run : M unit :=
  logger DEBUG "run" "Hash sample size set to %s" None;;
  logger INFO "run" "Scanning source folder for images..." None;;
  fs0 ← get_fs;
  let files := scan_source fs0 in
  logger INFO "run" "Found %s image(s) in source folder." None;;
  logger INFO "run" "Scanning destination folder for existing files..." None;;
  fs1 ← get_fs;
  let existing_hashes := scan_dest fs1 in
  logger INFO "run" "Found %s existing file(s) in destination." None;;
  for_each (fun f => _process_file f existing_hashes) files.

End Sanitizer.

(** [Sanitizer.__init__] followed by [run]: one run of the pipeline on a
    file system, with a fresh [Report]. *)
Definition pipeline (piexif : piexif_lib) (self : Sanitizer) (fs0 : filesystem)
    : result unit * World :=
  run piexif self {| fs := fs0; report := Report_init; log := [] |}.

(** ** [cli.py]: how [sanitize] resolves [--hash-sample-size] *)

Section Cli.

(** [humanfriendly.parse_size]; [None] stands for [InvalidSize]. *)
Variable parse_size : string -> option Z.

(** [if hash_sample_size: hash_sample_size = parse_size(hash_sample_size)]:
    a non-empty string is parsed, anything else is passed on as it is. *)
Definition resolve_sample_size (hash_sample_size : option string) : result pyval :=
  match hash_sample_size with
  | None => Ok PyNone
  | Some EmptyString => Ok (PyStr EmptyString)
  | Some s =>
      match parse_size s with
      | Some n => Ok (PyInt n)
      | None => Raise InvalidSize
      end
  end.

(** [sanitize]: the sanitizer is built from the resolved size and run; an
    exception of [run] is logged.  The result is the final world, whose
    report is the one displayed. *)
Definition sanitize (piexif : piexif_lib) (source dest : path) (worker : Z)
    (hash_sample_size : option string) (fs0 : filesystem) : result World :=
  match resolve_sample_size hash_sample_size with
  | Raise e => Raise e
  | Ok size =>
      let sanitizer := mkSanitizer source dest worker size in
      let w := {| fs := fs0; report := Report_init; log := [] |} in
      let '(_, w') :=
        try_except (run piexif sanitizer)
          (fun e => logger ERROR "sanitize" "An error occurred: %s" None) w in
      let '(_, w'') :=
        logger INFO "sanitize" "Sanitization process completed in %.2f s." None w' in
      Ok w''
  end.

End Cli.

(** ** Definitions used by the statements *)

(** The bytes [_sha1_file] feeds to the hash for a resolved sample size: the
    whole content without a limit (or with a negative one, which makes [read]
    return everything), the first [n] bytes with a limit [n >= 0]. *)
Definition hashed_prefix (sample_size : pyval) (data : bytes) : bytes :=
  match sample_size with
  | PyInt n => if n <? 0 then data else take (Z.to_nat n) data
  | _ => data
  end.

Definition digest_of (sample_size : pyval) (data : bytes) : string :=
  sha1_hex (hashed_prefix sample_size data).

(** The class [[a-f0-9]] under [re.IGNORECASE]. *)
Definition hexci : ascii -> bool := re.ignorecase re.hex_lower.

(** [s] starts with [n] characters of the class [p]. *)
Fixpoint starts_with_n (p : ascii -> bool) (n : nat) (s : string) : bool :=
  match n with
  | O => true
  | S n' =>
      match s with
      | String c s' => p c && starts_with_n p n' s'
      | EmptyString => false
      end
  end.

(** The leftmost run of 12 hex characters of [s], wherever it starts. *)
Fixpoint leftmost_hex_run (s : string) : option string :=
  if starts_with_n hexci 12 s then Some (stake 12 s)
  else
    match s with
    | String _ s' => leftmost_hex_run s'
    | EmptyString => None
    end.

(** The number of leading decimal digits of [s]. *)
Fixpoint digits_len (s : string) : nat :=
  match s with
  | String c s' => if re.digit c then S (digits_len s') else O
  | EmptyString => O
  end.

(** What follows a leading "digits, underscore" prefix, when [s] has one. *)
Definition after_digit_prefix (s : string) : option string :=
  if (0 <? digits_len s)%nat then
    match sdrop (digits_len s) s with
    | String c t => if Ascii.eqb c "_" then Some t else None
    | EmptyString => None
    end
  else None.

(** The extraction rule the program implements, in words: the 12 hex
    characters that follow a leading "digits, underscore" prefix when the stem
    starts that way, otherwise the leftmost run of 12 hex characters anywhere
    in the stem; lower-cased. *)
Definition extract_fingerprint (stem : string) : option string :=
  match after_digit_prefix stem with
  | Some t =>
      if starts_with_n hexci 12 t then Some (lower (stake 12 t))
      else option_map lower (leftmost_hex_run stem)
  | None => option_map lower (leftmost_hex_run stem)
  end.

(** The extraction rule as the specification words it: the stem is an
    optional "digits, underscore" prefix followed by exactly 12 hex characters
    and nothing else. *)
Definition exact_shape_fingerprint (stem : string) : option string :=
  let body := match after_digit_prefix stem with Some t => t | None => stem end in
  if Nat.eqb (String.length body) 12 && sall hexci body then Some (lower body)
  else None.



(** The number of errors [_clean_exif] logged. *)
Definition is_clean_error (rec : log_record) : bool :=
  match lvl rec with
  | ERROR => String.eqb (funcName rec) "_clean_exif"
  | _ => false
  end.

Definition clean_errors (l : list log_record) : Z :=
  Z.of_nat (length (List.filter is_clean_error l)).

Definition total (r : Report) : Z := copied r + ignored r + failed r.

(** The kind of an entry, content and permissions apart. *)
Inductive kind := KFile | KDir.

Definition kind_of (n : node) : kind :=
  match n with
  | File _ _ => KFile
  | Dir _ => KDir
  end.

(** The world a run starts in, and the world in which [run] starts its loop
    over the files: five messages have been logged by then. *)
Definition initial_world (fs0 : filesystem) : World :=
  {| fs := fs0; report := Report_init; log := [] |}.

Definition run_prologue_log : list log_record :=
  [ LogRecord DEBUG "run" "Hash sample size set to %s" None;
    LogRecord INFO "run" "Scanning source folder for images..." None;
    LogRecord INFO "run" "Found %s image(s) in source folder." None;
    LogRecord INFO "run" "Scanning destination folder for existing files..." None;
    LogRecord INFO "run" "Found %s existing file(s) in destination." None ].

(** ** Auxiliary definitions of the proofs *)

(** The lower-cased group 1 of a search result: what [run] adds to the index. *)
Definition fingerprint_of (m : option re.mstate) : option string :=
  option_map (fun m => lower (re.group1 m)) m.

(** The [remaining] the loop of [_sha1_file] starts with. *)
Definition remaining_of (sample_size : pyval) : option Z :=
  match sample_size with
  | PyInt n => Some n
  | _ => None
  end.

(** The outcome of [_sha1_file] on a file system: the error of [open], the
    [TypeError] of an unresolved size, or the digest of the hashed prefix. *)
Definition digest_result (sample_size : pyval) (fs0 : filesystem) (filepath : path)
    : result string :=
  match os.open_rb fs0 filepath with
  | Raise e => Raise e
  | Ok data =>
      match sample_size with
      | PyStr _ => Raise TypeError
      | _ => Ok (digest_of sample_size data)
      end
  end.

(** A short digest: 12 lower-case hex characters. *)
Definition is_short_digest (h : string) : Prop :=
  String.length h = 12%nat /\ sall re.hex_lower h = true.

Definition is_jpeg_ext (e : string) : Prop := e = ".jpg"%string \/ e = ".jpeg"%string.

(** The records the methods log. *)
Definition sha1_log (filepath : path) : log_record :=
  LogRecord DEBUG "_sha1_file" "SHA1 of %s : %s" (Some filepath).
Definition clean_error_log (p : path) : log_record :=
  LogRecord ERROR "_clean_exif" "Error on %s : %s" (Some p).
Definition process_error_log (p : path) : log_record :=
  LogRecord ERROR "_process_file" "Error on %s : %s" (Some p).
Definition ignored_log (p : path) : log_record :=
  LogRecord DEBUG "_process_file" "Ignored (SHA1 exists): %s" (Some p).
Definition processed_log (p : path) : log_record :=
  LogRecord INFO "_process_file" "Processed: %s" (Some p).

(** The worlds the branches of the methods end in. *)
Definition bump_ignored (r : Report) : Report :=
  {| ignored := ignored r + 1; copied := copied r; failed := failed r |}.
Definition bump_copied (r : Report) : Report :=
  {| ignored := ignored r; copied := copied r + 1; failed := failed r |}.
Definition bump_failed (r : Report) : Report :=
  {| ignored := ignored r; copied := copied r; failed := failed r + 1 |}.

Definition fail_world (rec : log_record) (w : World) : World :=
  set_report (bump_failed (report (add_log rec w))) (add_log rec w).
Definition ignore_world (rec : log_record) (w : World) : World :=
  set_report (bump_ignored (report (add_log rec w))) (add_log rec w).
Definition copy_world (rec : log_record) (w : World) : World :=
  set_report (bump_copied (report (add_log rec w))) (add_log rec w).

(** The dictionary [_clean_exif] builds from the one it loaded: empty
    blocks, the orientation tag and the colour profile when they are truthy. *)
Definition minimal_exif (exif : exif_dict) : exif_dict :=
  let orientation := ifd_0th exif !! Orientation in
  let icc_profile := ICC exif in
  {| ifd_0th :=
       match orientation with
       | Some v => if truthy orientation then {[ Orientation := v ]} else ∅
       | None => ∅
       end;
     ifd_Exif := ∅; ifd_GPS := ∅; ifd_1st := ∅; ifd_Interop := ∅;
     thumbnail := None;
     ICC := if truthy icc_profile then icc_profile else None |}.

(** The outcome of the body of [_clean_exif] on the file at [p]: the new
    content, or [None] when a step of it raises. *)
Definition sanitize_outcome (piexif : piexif_lib) (fs0 : filesystem) (p : path)
    : option bytes :=
  match os.open_rb fs0 p with
  | Ok data =>
      match piexif_load piexif data with
      | Some exif =>
          match piexif_dump piexif (minimal_exif exif) with
          | Some exif_bytes => piexif_insert piexif exif_bytes data
          | None => None
          end
      | None => None
      end
  | Raise _ => None
  end.

(** Entries never vanish and never change kind. *)
Definition persists (fs1 fs2 : filesystem) : Prop :=
  forall p n, fs1 !! p = Some n ->
    exists n', fs2 !! p = Some n' /\ kind_of n' = kind_of n.

(** Every entry that existed is unchanged: only new entries were added. *)
Definition only_adds (fs1 fs2 : filesystem) : Prop :=
  forall p, fs1 !! p = None \/ fs2 !! p = fs1 !! p.

(** The zone of a root: at or below it, or on the way to it. *)
Definition dest_zone (d p : path) : Prop := d `prefix_of` p \/ p `prefix_of` d.

(** Two file systems hold the same tree below [root]. *)
Definition same_below (root : path) (fs1 fs2 : filesystem) : Prop :=
  forall p, os.below root p -> fs1 !! p = fs2 !! p.

(** The effect of one file on the counters, by outcome; the last case is
    the file whose copy landed and whose sanitize step failed. *)
Inductive counted (w w' : World) : Prop :=
| counted_ignored :
    report w' = bump_ignored (report w) ->
    clean_errors (log w') = clean_errors (log w) -> counted w w'
| counted_failed :
    report w' = bump_failed (report w) ->
    clean_errors (log w') = clean_errors (log w) -> counted w w'
| counted_copied :
    report w' = bump_copied (report w) ->
    clean_errors (log w') = clean_errors (log w) -> counted w w'
| counted_copied_and_failed :
    report w' = bump_copied (bump_failed (report w)) ->
    clean_errors (log w') = clean_errors (log w) + 1 -> counted w w'.

(** The destination path [_copy_image] computes for a source file with a
    given digest. *)
Definition dst_path_of (self : Sanitizer) (src : path) (digest : string)
    : option path :=
  match pathlib.relative_to (pathlib.parent src) (source self) with
  | Some rel =>
      Some (dest self ++ rel ++ [(stake 12 digest +:+ lower (pathlib.suffix src))%string])
  | None => None
  end.

(** ** Concrete inputs *)

(** A stand-in for [piexif] that, like the library, refuses content that
    does not start with the JPEG magic number, and otherwise reads no tag and
    splices the dumped block in after the magic number. *)
Definition jpeg_magic (data : bytes) : bool :=
  match data with
  | xff :: xd8 :: _ => true
  | _ => false
  end.

Definition piexif_by_magic : piexif_lib :=
  {| piexif_load := fun data =>
       if jpeg_magic data then Some (ExifDict ∅ ∅ ∅ ∅ ∅ None None) else None;
     piexif_dump := fun _ => Some (b_lit "Exif");
     piexif_insert := fun e data =>
       if jpeg_magic data then Some (take 2 data ++ e ++ drop 2 data)%list else None |}.

(** A size parser that reads plain decimal numbers, as [parse_size] does
    for a string without unit. *)
Fixpoint parse_decimal (acc : Z) (s : string) : option Z :=
  match s with
  | EmptyString => Some acc
  | String c s' =>
      if re.digit c then
        parse_decimal (10 * acc + Z.of_nat (nat_of_ascii c - 48)) s'
      else None
  end.

Definition parse_plain_size (s : string) : option Z :=
  match s with
  | EmptyString => None
  | _ => parse_decimal 0 s
  end.

(** [src/a.jpg] holds [b"hello world"]; the destination is empty. *)
Definition fs_hello : filesystem :=
  list_to_map
    [ (["src"], Dir true);
      (["src"; "a.jpg"], File true (b_lit "hello world"));
      (["dst"], Dir true) ]%string.

Definition sanitizer_hello : Sanitizer :=
  mkSanitizer ["src"]%string ["dst"]%string 1 PyNone.

(** A minimal JPEG stream: start of image, an empty start-of-scan segment,
    end of image. *)
Definition jpeg_bytes : bytes := [xff; xd8; xff; xda; x00; x02; xff; xd9].

(** [src/a.jpg] is such a file; the destination is empty. *)
Definition fs_photo : filesystem :=
  list_to_map
    [ (["src"], Dir true);
      (["src"; "a.jpg"], File true jpeg_bytes);
      (["dst"], Dir true) ]%string.

(** Two files of equal content in two directories; the destination is
    empty. *)
Definition fs_twins : filesystem :=
  list_to_map
    [ (["src"], Dir true);
      (["src"; "a"], Dir true);
      (["src"; "b"], Dir true);
      (["src"; "a"; "one.jpg"], File true jpeg_bytes);
      (["src"; "b"; "two.jpg"], File true jpeg_bytes);
      (["dst"], Dir true) ]%string.

(** A destination with two regular files: one whose stem has a run of 12
    hex characters in its middle, one whose stem is a run of 16. *)
Definition fs_index : filesystem :=
  list_to_map
    [ (["dst"], Dir true);
      (["dst"; "IMG_abcdef012345_x.jpg"], File true []);
      (["dst"; "abcdef0123456789.jpg"], File true []) ]%string.

(** A source whose only entry is a directory named [photos.jpg]. *)
Definition fs_dir_jpg : filesystem :=
  list_to_map
    [ (["src"], Dir true);
      (["src"; "photos.jpg"], Dir true);
      (["dst"], Dir true) ]%string.

(** A sanitizer whose destination root lies inside its source root. *)
Definition sanitizer_nested : Sanitizer :=
  mkSanitizer ["src"]%string ["src"; "out"]%string 1 PyNone.

(** The record [sanitize] logs when it is done. *)
Definition sanitize_done_log : log_record :=
  LogRecord INFO "sanitize" "Sanitization process completed in %.2f s." None.

(** ** Further definitions used by the statements *)

(** The number of records of a log that satisfy a test. *)
Definition count_log (p : log_record -> bool) (l : list log_record) : Z :=
  Z.of_nat (length (List.filter p l)).

(** The three kinds of record [_process_file] and [_clean_exif] leave for a
    file: an error (of either method), the "Processed" message and the
    "Ignored" message. *)
Definition is_error_record (rec : log_record) : bool :=
  match lvl rec with
  | ERROR => true
  | _ => false
  end.

Definition is_processed_record (rec : log_record) : bool :=
  match lvl rec with
  | INFO => String.eqb (funcName rec) "_process_file"
  | _ => false
  end.

Definition is_ignored_record (rec : log_record) : bool :=
  match lvl rec with
  | DEBUG => String.eqb (funcName rec) "_process_file"
  | _ => false
  end.

(** The three counters, each less the number of records its increments
    are logged with. *)
Definition log_gap (w : World) : Z * Z * Z :=
  (failed (report w) - count_log is_error_record (log w),
   copied (report w) - count_log is_processed_record (log w),
   ignored (report w) - count_log is_ignored_record (log w)).

(** The tags of a block of a metadata dictionary are among [tags]. *)
Definition tags_within (tags : list Z) (ifd : gmap Z tagval) : Prop :=
  forall t, is_Some (ifd !! t) -> t ∈ tags.

(** [src/a.jpg] and [src/b.jpg] start with the same five bytes. *)
Definition fs_same_start : filesystem :=
  list_to_map
    [ (["src"], Dir true);
      (["src"; "a.jpg"], File true (b_lit "hello world"));
      (["src"; "b.jpg"], File true (b_lit "hello there"));
      (["dst"], Dir true) ]%string.

Definition sanitizer_sample5 : Sanitizer :=
  mkSanitizer ["src"]%string ["dst"]%string 1 (PyInt 5).

(** The source has [sub/a.jpg]; in the destination [sub] is a regular
    file. *)
Definition fs_file_in_the_way : filesystem :=
  list_to_map
    [ (["src"], Dir true);
      (["src"; "sub"], Dir true);
      (["src"; "sub"; "a.jpg"], File true jpeg_bytes);
      (["dst"], Dir true);
      (["dst"; "sub"], File true []) ]%string.

(** A metadata dictionary with an orientation, a camera model (tag 272), a
    GPS tag and a thumbnail, and the library stand-in that loads it from any
    JPEG. *)
Definition exif_rich : exif_dict :=
  {| ifd_0th := {[ Orientation := TInt 6; 272 := TBytes (b_lit "Camera") ]};
     ifd_Exif := {[ 36867 := TBytes (b_lit "2020:01:01 00:00:00") ]};
     ifd_GPS := {[ 1 := TBytes (b_lit "N") ]};
     ifd_1st := ∅;
     ifd_Interop := ∅;
     thumbnail := Some (b_lit "thumb");
     ICC := Some (TBytes (b_lit "profile")) |}.

(** A stand-in for [piexif.dump] that writes one byte per kept entry, so
    that what was dumped can be read off the result. *)
Definition dump_census (e : exif_dict) : option bytes :=
  Some (b_lit "Exif"
        ++ repeat x01 (size (ifd_0th e)) ++ repeat x02 (size (ifd_Exif e))
        ++ repeat x03 (size (ifd_GPS e)) ++ repeat x04 (size (ifd_1st e))
        ++ repeat x05 (size (ifd_Interop e))
        ++ match thumbnail e with Some _ => [x06] | None => [] end
        ++ match ICC e with Some _ => [x07] | None => [] end)%list.

Definition piexif_rich : piexif_lib :=
  {| piexif_load := fun data => if jpeg_magic data then Some exif_rich else None;
     piexif_dump := dump_census;
     piexif_insert := fun e data =>
       if jpeg_magic data then Some (take 2 data ++ e ++ drop 2 data)%list else None |}.

(** Two file systems hold the same entries at the paths of a zone. *)
Definition agree_on (Z : path -> Prop) (fs1 fs2 : filesystem) : Prop :=
  forall p, Z p -> fs1 !! p = fs2 !! p.

(** The paths a run can look at: at or below the source root, and the
    zone of the destination root. *)
Definition run_zone (self : Sanitizer) (p : path) : Prop :=
  source self `prefix_of` p \/ dest_zone (dest self) p.

(** Two outcomes of a file-system operation are alike on a zone: the same
    error, or file systems that agree there. *)
Definition same_outcome (Z : path -> Prop) (r1 r2 : result filesystem) : Prop :=
  match r1, r2 with
  | Ok a, Ok b => agree_on Z a b
  | Raise e1, Raise e2 => e1 = e2
  | _, _ => False
  end.

(** Two worlds with the same report and log whose file systems agree on a
    zone. *)
Definition world_agree (Z : path -> Prop) (w1 w2 : World) : Prop :=
  report w1 = report w2 /\ log w1 = log w2 /\ agree_on Z (fs w1) (fs w2).

(** [fs_hello] with one more file, outside both roots. *)
Definition fs_hello_and_more : filesystem :=
  <[ ["other"; "x.jpg"]%string := File true (b_lit "unrelated") ]> fs_hello.

(** Two files of equal content in one directory, whose suffixes differ in
    case only. *)
Definition fs_case_twins : filesystem :=
  list_to_map
    [ (["src"], Dir true);
      (["src"; "a.jpg"], File true jpeg_bytes);
      (["src"; "b.JPG"], File true jpeg_bytes);
      (["dst"], Dir true) ]%string.


(** The numeric value of a level in the [logging] module. *)
Definition level_rank (l : level) : Z :=
  match l with
  | DEBUG => 10
  | INFO => 20
  | WARNING => 30
  | ERROR => 40
  end.

(** The level of the program's logger: [INFO] from [basicConfig], [DEBUG]
    when the command line has [--debug]. *)
Definition logger_level (debug : bool) : level := if debug then DEBUG else INFO.

(** The log of a [World] holds every record handed to the logger.  The
    logger emits those at or above its level: these are the records a user
    sees. *)
Definition emitted (debug : bool) (l : list log_record) : list log_record :=
  List.filter (fun rec => level_rank (logger_level debug) <=? level_rank (lvl rec)) l.

(** * The models on known values *)

Example sha1_abc : sha1_hex (b_lit "abc") = "a9993e364706816aba3e25717850c26c9cd0d89d"%string.
Proof. vm_compute. reflexivity. Qed.

Example sha1_empty : sha1_hex [] = "da39a3ee5e6b4b0d3255bfef95601890afd80709"%string.
Proof. vm_compute. reflexivity. Qed.

Example sha1_two_blocks :
  sha1_hex (b_lit "abcdbcdecdefdefgefghfghighijhijkijkljklmklmnlmnomnopnopq")
  = "84983e441c3bd26ebaae4aa1f95129e5e54670f1"%string.
Proof. vm_compute. reflexivity. Qed.

Example suffix_upper_case :
  lower (pathlib.suffix ["src"; "a"; "IMG_1.JPG"]%string) = ".jpg"%string.
Proof. vm_compute. reflexivity. Qed.

Example suffix_of_dot_file : pathlib.suffix [".jpg"]%string = ""%string.
Proof. vm_compute. reflexivity. Qed.

Example stem_of_dest_name :
  pathlib.stem ["dst"; "2aae6c35c94f.jpg"]%string = "2aae6c35c94f"%string.
Proof. vm_compute. reflexivity. Qed.

Example search_skips_digit_prefix :
  option_map re.group1 (re.search hash_pattern "123456789012_ABCDEF012345")
  = Some "ABCDEF012345"%string.
Proof. vm_compute. reflexivity. Qed.

Example search_needs_twelve :
  re.search hash_pattern "1234_ABCDEF01234" = None.
Proof. vm_compute. reflexivity. Qed.

(** The scenario "basic copy" with a file the sanitize step accepts, and the
    scenario of the repository's test with [b"hello world"]. *)
Example run_basic_copy :
  report (snd (pipeline piexif_by_magic sanitizer_hello fs_photo))
  = {| ignored := 0; copied := 1; failed := 0 |}.
Proof. vm_compute. reflexivity. Qed.

Example run_hello_world :
  os.is_file (fs (snd (pipeline piexif_by_magic sanitizer_hello fs_hello)))
    ["dst"; "2aae6c35c94f.jpg"]%string = true.
Proof. vm_compute. reflexivity. Qed.

(** * Characters and strings *)

Ltac all_ascii c := destruct c as [[] [] [] [] [] [] [] []].

Lemma hex_lower_fixed c : re.hex_lower c = true -> lower_char c = c.
Proof. all_ascii c; vm_compute; intros H; try discriminate H; reflexivity. Qed.

Lemma hex_lower_hexci c : re.hex_lower c = true -> hexci c = true.
Proof. intros H. unfold hexci, re.ignorecase. now rewrite hex_lower_fixed. Qed.

Lemma hexci_lower_char c : hexci c = true -> re.hex_lower (lower_char c) = true.
Proof. intros H; exact H. Qed.

Lemma ci_digit c : re.ignorecase re.digit c = re.digit c.
Proof. all_ascii c; reflexivity. Qed.

Lemma ci_underscore c : re.ignorecase (re.lit "_") c = Ascii.eqb c "_".
Proof. all_ascii c; reflexivity. Qed.

Lemma digit_not_underscore c : re.digit c = true -> Ascii.eqb c "_" = false.
Proof. all_ascii c; vm_compute; intros H; try discriminate H; reflexivity. Qed.

Lemma hexci_not_underscore c : hexci c = true -> Ascii.eqb c "_" = false.
Proof. all_ascii c; vm_compute; intros H; try discriminate H; reflexivity. Qed.

Lemma hex_lower_not_dot c : re.hex_lower c = true -> Ascii.eqb c "." = false.
Proof. all_ascii c; vm_compute; intros H; try discriminate H; reflexivity. Qed.

Lemma hexdigit_lower n : re.hex_lower (hexdigit n) = true.
Proof.
  destruct n as [|p|p]; try reflexivity.
  do 4 (destruct p as [p|p|]; try reflexivity).
Qed.

Lemma sapp_nil e : ("" +:+ e)%string = e.
Proof. reflexivity. Qed.

Lemma sapp_cons c s e : (String c s +:+ e)%string = String c (s +:+ e).
Proof. reflexivity. Qed.

Lemma stake_app_length h e : stake (String.length h) (h +:+ e) = h.
Proof.
  induction h as [|c h IH]; [now destruct e|].
  rewrite sapp_cons. simpl. now rewrite IH.
Qed.

Lemma sdrop_app_length h e : sdrop (String.length h) (h +:+ e) = e.
Proof.
  induction h as [|c h IH]; [now destruct e|].
  rewrite sapp_cons. simpl. exact IH.
Qed.

Lemma length_stake n s : String.length (stake n s) = Nat.min n (String.length s).
Proof.
  revert s; induction n as [|n IH]; intros [|c s]; simpl; try reflexivity.
  now rewrite IH.
Qed.

Lemma length_sapp h e : String.length (h +:+ e) = (String.length h + String.length e)%nat.
Proof.
  induction h as [|c h IH]; [reflexivity|].
  rewrite sapp_cons. simpl. now rewrite IH.
Qed.

Lemma sall_stake p n s : sall p s = true -> sall p (stake n s) = true.
Proof.
  revert s; induction n as [|n IH]; intros [|c s]; simpl; try reflexivity.
  intros [Hc Hs]%andb_prop. rewrite Hc; simpl. now apply IH.
Qed.

Lemma lower_fixed s : sall re.hex_lower s = true -> lower s = s.
Proof.
  induction s as [|c s IH]; simpl; [reflexivity|].
  intros [Hc Hs]%andb_prop. now rewrite hex_lower_fixed, IH.
Qed.

Lemma sall_impl (p q : ascii -> bool) s :
  (forall c, p c = true -> q c = true) -> sall p s = true -> sall q s = true.
Proof.
  intros Hpq. induction s as [|c s IH]; simpl; [reflexivity|].
  intros [Hc Hs]%andb_prop. now rewrite (Hpq _ Hc), IH.
Qed.

Lemma sall_lower s : sall hexci s = true -> sall re.hex_lower (lower s) = true.
Proof.
  induction s as [|c s IH]; simpl; [reflexivity|].
  intros [Hc Hs]%andb_prop. rewrite (hexci_lower_char _ Hc); simpl. now apply IH.
Qed.

Lemma length_lower s : String.length (lower s) = String.length s.
Proof. induction s as [|c s IH]; simpl; [reflexivity | now rewrite IH]. Qed.

Lemma starts_with_n_stake p n s :
  starts_with_n p n s = true ->
  String.length (stake n s) = n /\ sall p (stake n s) = true.
Proof.
  revert s; induction n as [|n IH]; intros s; simpl.
  - now destruct s.
  - destruct s as [|c s]; [discriminate|].
    intros [Hc Hs]%andb_prop. destruct (IH _ Hs) as [Hl Ha].
    simpl. now rewrite Hl, Hc, Ha.
Qed.

Lemma starts_with_n_intro p s e :
  sall p s = true -> starts_with_n p (String.length s) (s +:+ e) = true.
Proof.
  induction s as [|c s IH]; [reflexivity|].
  rewrite sapp_cons. simpl.
  intros [Hc Hs]%andb_prop. now rewrite Hc, IH.
Qed.

Lemma sapp_empty_r s : (s +:+ "")%string = s.
Proof.
  induction s as [|c s IH]; [reflexivity|].
  rewrite sapp_cons. now rewrite IH.
Qed.

(** * The matcher on the program's pattern *)

Lemma or_else_none_r (A : Type) (x : option A) : re.or_else x None = x.
Proof. now destruct x. Qed.

Lemma rep_cls p n st (A : Type) (k : re.mstate -> option A) :
  re.rmatch (re.Rep n (re.Cls p)) st k =
  if starts_with_n p n (re.rest st)
  then k (re.MState (re.pos st + n) (sdrop n (re.rest st)) (re.grp1 st))
  else None.
Proof.
  simpl. revert st. induction n as [|n IH]; intros [i s g]; simpl.
  - rewrite Nat.add_0_r. now destruct s.
  - destruct s as [|c s]; [reflexivity|].
    destruct (p c); simpl; [|reflexivity].
    rewrite IH; simpl. now rewrite Nat.add_succ_r.
Qed.

(** The capturing group of the pattern, from a state with nothing captured. *)
Lemma grp_hex12 i s g :
  re.rmatch (re.Grp (re.Rep 12 (re.Cls hexci))) (re.MState i s g) Some =
  if starts_with_n hexci 12 s
  then Some (re.MState (i + 12) (sdrop 12 s) (Some (stake 12 s)))
  else None.
Proof.
  change (re.rmatch (re.Grp ?r) ?st ?k) with
    (re.rmatch r st (fun st' => k (re.MState (re.pos st') (re.rest st')
       (Some (stake (re.pos st' - re.pos st) (re.rest st)))))).
  rewrite rep_cls. cbn [re.rest re.pos re.grp1].
  destruct (starts_with_n hexci 12 s); [|reflexivity].
  now replace (i + 12 - i)%nat with 12%nat by lia.
Qed.

(** The optional prefix [^\d+_] followed by a continuation [K]. *)
Lemma plus_digits_underscore (A : Type) (K : re.mstate -> option A) g s i :
  re.plus_cls (re.ignorecase re.digit) g
    (fun st' => re.rmatch (re.Cls (re.ignorecase (re.lit "_"))) st' K) s i =
  if (0 <? digits_len s)%nat then
    match sdrop (digits_len s) s with
    | String c t =>
        if Ascii.eqb c "_" then K (re.MState (i + digits_len s + 1) t g) else None
    | EmptyString => None
    end
  else None.
Proof.
  revert i. induction s as [|c s IH]; intros i; [reflexivity|].
  cbn [re.plus_cls digits_len]. rewrite ci_digit.
  destruct (re.digit c) eqn:Hc; [|reflexivity].
  rewrite IH; clear IH.
  change (0 <? S (digits_len s))%nat with true. cbn [sdrop].
  cbn [re.rmatch re.rest re.pos re.grp1].
  destruct s as [|c' s']; [reflexivity|].
  rewrite ci_underscore. cbn [digits_len].
  destruct (re.digit c') eqn:Hc'.
  - rewrite (digit_not_underscore _ Hc').
    change (0 <? S (digits_len s'))%nat with true.
    replace (S i + S (digits_len s') + 1)%nat
      with (i + S (S (digits_len s')) + 1)%nat by lia.
    rewrite or_else_none_r. reflexivity.
  - cbn [Nat.ltb Nat.leb re.or_else sdrop].
    now replace (i + 1 + 1)%nat with (S (S i)) by lia.
Qed.

(** One attempt of the pattern at a start position. *)
Lemma hash_pattern_at i s :
  re.rmatch hash_pattern (re.MState i s None) Some =
  re.or_else
    (if Nat.eqb i 0 then
       match after_digit_prefix s with
       | Some t =>
           if starts_with_n hexci 12 t
           then Some (re.MState (i + digits_len s + 1 + 12) (sdrop 12 t) (Some (stake 12 t)))
           else None
       | None => None
       end
     else None)
    (if starts_with_n hexci 12 s
     then Some (re.MState (i + 12) (sdrop 12 s) (Some (stake 12 s)))
     else None).
Proof.
  unfold hash_pattern.
  cbn [re.rmatch re.pos re.rest re.grp1].
  f_equal.
  - destruct (Nat.eqb i 0); [|reflexivity].
    rewrite (plus_digits_underscore _
      (fun st' => re.rmatch (re.Grp (re.Rep 12 (re.Cls hexci))) st' Some)).
    unfold after_digit_prefix.
    destruct (0 <? digits_len s)%nat; [|reflexivity].
    destruct (sdrop (digits_len s) s) as [|c t]; [reflexivity|].
    destruct (Ascii.eqb c "_"); [|reflexivity].
    apply grp_hex12.
  - apply (grp_hex12 i s None).
Qed.

(** From a start position other than 0 the prefix cannot match, and the
    search finds the leftmost run. *)
Lemma search_at_pos i s :
  (0 < i)%nat ->
  fingerprint_of (re.search_at hash_pattern i s) = option_map lower (leftmost_hex_run s).
Proof.
  revert i. induction s as [|c s IH]; intros i Hi.
  - cbn [re.search_at]. rewrite hash_pattern_at.
    destruct (Nat.eqb_spec i 0) as [->|_]; [lia|]. reflexivity.
  - cbn [re.search_at]. rewrite hash_pattern_at.
    destruct (Nat.eqb_spec i 0) as [->|_]; [lia|].
    cbn [re.or_else leftmost_hex_run].
    destruct (starts_with_n hexci 12 (String c s)); [reflexivity|].
    apply IH; lia.
Qed.

(** The program's pattern search computes [extract_fingerprint]. *)
Lemma search_hash_pattern s :
  fingerprint_of (re.search hash_pattern s) = extract_fingerprint s.
Proof.
  unfold re.search, extract_fingerprint.
  destruct s as [|c s].
  - reflexivity.
  - cbn [re.search_at]. rewrite hash_pattern_at.
    cbn [Nat.eqb].
    destruct (after_digit_prefix (String c s)) as [t|].
    + destruct (starts_with_n hexci 12 t); [reflexivity|].
      cbn [re.or_else leftmost_hex_run].
      destruct (starts_with_n hexci 12 (String c s)); [reflexivity|].
      apply search_at_pos; lia.
    + cbn [re.or_else leftmost_hex_run].
      destruct (starts_with_n hexci 12 (String c s)); [reflexivity|].
      apply search_at_pos; lia.
Qed.

(** * The digest engine *)

Lemma update_nil h : hashlib.update h [] = h.
Proof. destruct h as [b]. unfold hashlib.update; simpl. now rewrite app_nil_r. Qed.

Lemma update_update h a b :
  hashlib.update (hashlib.update h a) b = hashlib.update h (a ++ b).
Proof. unfold hashlib.update; simpl. now rewrite app_assoc. Qed.

Lemma take_split_budget {A} (n R : nat) (f : list A) :
  (n <= R)%nat ->
  take n f ++ take (R - length (take n f)) (drop n f) = take R f.
Proof.
  revert R f. induction n as [|n IH]; intros R f Hn.
  - simpl. now rewrite Nat.sub_0_r, drop_0.
  - destruct f as [|a f]; [now destruct R|].
    destruct R as [|R]; [lia|]. simpl. f_equal. apply IH. lia.
Qed.

Lemma sha1_loop_unlimited fuel bs f h :
  0 < bs -> (length f < fuel)%nat ->
  sha1_loop fuel bs None f h = Some (hashlib.update h f).
Proof.
  intros Hbs. revert f h. induction fuel as [|fuel IH]; intros f h Hf; [lia|].
  cbn [sha1_loop]. unfold file_read.
  destruct (Z.ltb_spec bs 0) as [|_]; [lia|].
  assert (Hn : (0 < Z.to_nat bs)%nat) by lia.
  destruct (take (Z.to_nat bs) f) as [|a chunk] eqn:Hchunk.
  - destruct f as [|a f]; [now rewrite update_nil|].
    destruct (Z.to_nat bs); [lia | discriminate].
  - rewrite IH.
    + rewrite update_update, <- Hchunk, take_drop. reflexivity.
    + destruct f as [|b f]; [now rewrite take_nil in Hchunk|].
      rewrite length_drop. simpl in *. lia.
Qed.

Lemma sha1_loop_limited fuel bs r f h :
  0 < bs -> 0 <= r -> (length f < fuel)%nat ->
  sha1_loop fuel bs (Some r) f h = Some (hashlib.update h (take (Z.to_nat r) f)).
Proof.
  intros Hbs. revert r f h. induction fuel as [|fuel IH]; intros r f h Hr Hf; [lia|].
  cbn [sha1_loop]. unfold file_read.
  destruct (Z.ltb_spec (Z.min bs r) 0) as [|_]; [lia|].
  set (n := Z.to_nat (Z.min bs r)).
  assert (Hle : (n <= Z.to_nat r)%nat) by lia.
  destruct (take n f) as [|a chunk] eqn:Hchunk.
  - rewrite <- (update_nil h) at 1. do 2 f_equal.
    destruct f as [|a f]; [now rewrite take_nil|].
    destruct n eqn:Hn0; [|discriminate].
    assert (r = 0) by lia. subst r. reflexivity.
  - assert (Hlen : length (a :: chunk) = Nat.min n (length f))
      by (rewrite <- Hchunk; apply length_take).
    destruct (Z.leb_spec (r - Z.of_nat (length (a :: chunk))) 0) as [Hstop|Hgo].
    + do 2 f_equal. rewrite <- Hchunk. f_equal. lia.
    + rewrite IH.
      * rewrite update_update. do 2 f_equal.
        rewrite <- Hchunk.
        replace (Z.to_nat (r - Z.of_nat (length (take n f))))
          with (Z.to_nat r - length (take n f))%nat by lia.
        now apply take_split_budget.
      * lia.
      * rewrite length_drop.
        assert (0 < length f)%nat by (destruct f; [now rewrite take_nil in Hchunk | simpl; lia]).
        assert (0 < n)%nat by (destruct n; [discriminate | lia]).
        lia.
Qed.

Lemma sha1_loop_negative fuel bs r f h :
  r < 0 -> (length f < fuel)%nat ->
  sha1_loop fuel bs (Some r) f h = Some (hashlib.update h f).
Proof.
  intros Hr Hf. destruct fuel as [|fuel]; [lia|].
  cbn [sha1_loop]. unfold file_read.
  destruct (Z.ltb_spec (Z.min bs r) 0) as [_|]; [|lia].
  destruct f as [|a f]; [now rewrite update_nil|].
  destruct (Z.leb_spec (r - Z.of_nat (length (a :: f))) 0); [reflexivity|lia].
Qed.

Lemma sha1_loop_spec bs sample_size data :
  0 < bs ->
  sha1_loop (S (length data)) bs (remaining_of sample_size) data hashlib.sha1 =
  Some (hashlib.update hashlib.sha1 (hashed_prefix sample_size data)).
Proof.
  intros Hbs. destruct sample_size as [|n|s]; simpl remaining_of; simpl hashed_prefix.
  - apply sha1_loop_unlimited; lia.
  - destruct (Z.ltb_spec n 0).
    + apply sha1_loop_negative; lia.
    + apply sha1_loop_limited; lia.
  - apply sha1_loop_unlimited; lia.
Qed.

(** [_sha1_file] as an equation: it fails as [open] fails, fails on an
    unresolved size, and otherwise returns the digest of the hashed prefix and
    logs it. *)
Lemma sha1_file_eq filepath bs sample_size w :
  0 < bs ->
  _sha1_file filepath bs sample_size w =
  match os.open_rb (fs w) filepath with
  | Raise e => (Raise e, w)
  | Ok data =>
      match sample_size with
      | PyStr _ => (Raise TypeError, w)
      | _ => (Ok (digest_of sample_size data), add_log (sha1_log filepath) w)
      end
  end.
Proof.
  intros Hbs. unfold _sha1_file, mbind, M_bind, fs_read.
  destruct (os.open_rb (fs w) filepath) as [data|e]; [|reflexivity].
  destruct sample_size as [|n|s]; cbn [mret M_ret raise].
  - pose proof (sha1_loop_spec bs PyNone data Hbs) as H.
    cbn [remaining_of] in H. unfold lift_option. rewrite H. reflexivity.
  - pose proof (sha1_loop_spec bs (PyInt n) data Hbs) as H.
    cbn [remaining_of] in H. unfold lift_option. rewrite H. reflexivity.
  - reflexivity.
Qed.

(** * The format of digests and of destination names *)

Lemma length_hex bs : String.length (hex bs) = (2 * length bs)%nat.
Proof. induction bs as [|b bs IH]; simpl; [reflexivity | rewrite IH; lia]. Qed.

Lemma sall_hex bs : sall re.hex_lower (hex bs) = true.
Proof.
  induction bs as [|b bs IH]; simpl; [reflexivity|].
  now rewrite !hexdigit_lower, IH.
Qed.

Lemma length_be_bytes n x : length (SHA1.be_bytes n x) = n.
Proof. unfold SHA1.be_bytes. now rewrite length_map, length_rev, length_seq. Qed.

Lemma length_digest msg : length (SHA1.digest msg) = 20%nat.
Proof. unfold SHA1.digest. rewrite !length_app, !length_be_bytes. reflexivity. Qed.

Lemma length_sha1_hex data : String.length (sha1_hex data) = 40%nat.
Proof. unfold sha1_hex, hashlib.hexdigest. now rewrite length_hex, length_digest. Qed.

Lemma sall_sha1_hex data : sall re.hex_lower (sha1_hex data) = true.
Proof. apply sall_hex. Qed.

Lemma short_digest_of sample_size data :
  is_short_digest (stake 12 (digest_of sample_size data)).
Proof.
  split.
  - rewrite length_stake. unfold digest_of. rewrite length_sha1_hex. reflexivity.
  - apply sall_stake, sall_sha1_hex.
Qed.

Lemma rfind_from_skip c h e i last :
  sall (fun a => negb (Ascii.eqb a c)) h = true ->
  rfind_from c (h +:+ e) i last = rfind_from c e (i + slen h) last.
Proof.
  revert i. induction h as [|a h IH]; intros i Hh.
  - rewrite sapp_nil. unfold slen; simpl. now rewrite Z.add_0_r.
  - rewrite sapp_cons. simpl in Hh. apply andb_prop in Hh as [Ha Hh].
    cbn [rfind_from]. apply negb_true_iff in Ha. rewrite Ha.
    rewrite IH by exact Hh. f_equal. unfold slen. simpl String.length. lia.
Qed.

Lemma short_digest_no_dot h :
  is_short_digest h -> sall (fun a => negb (Ascii.eqb a ".")) h = true.
Proof.
  intros [_ Hh]. eapply sall_impl; [|exact Hh].
  intros c Hc. now rewrite (hex_lower_not_dot _ Hc).
Qed.

Lemma is_jpeg_suffix_ext f :
  is_jpeg_suffix f = true -> is_jpeg_ext (lower (pathlib.suffix f)).
Proof.
  unfold is_jpeg_suffix, is_jpeg_ext. intros H.
  apply orb_prop in H as [H|H]; apply String.eqb_eq in H; auto.
Qed.

Lemma name_snoc (p : path) (leaf : string) : pathlib.name (p ++ [leaf]) = leaf.
Proof. unfold pathlib.name. apply last_last. Qed.

(** The stem and the suffix of a destination name are its two parts. *)
Lemma stem_dest_name (p : path) h e :
  is_short_digest h -> is_jpeg_ext e ->
  pathlib.stem (p ++ [(h +:+ e)%string]) = h /\
  pathlib.suffix (p ++ [(h +:+ e)%string]) = e.
Proof.
  intros Hh He. pose proof (short_digest_no_dot _ Hh) as Hdot.
  destruct Hh as [Hlen Hhex].
  unfold pathlib.stem, pathlib.suffix. rewrite name_snoc.
  unfold rfind. rewrite (rfind_from_skip _ _ _ _ _ Hdot).
  unfold slen. rewrite length_sapp, Hlen.
  destruct He as [-> | ->]; cbn -[stake sdrop String.append];
    change (Z.to_nat (0 + Z.of_nat 12)) with 12%nat;
    [ change ((0 <? 0 + Z.of_nat 12) && (0 + Z.of_nat 12 <? Z.of_nat 16 - 1)) with true
    | change ((0 <? 0 + Z.of_nat 12) && (0 + Z.of_nat 12 <? Z.of_nat 17 - 1)) with true ];
    cbv iota; rewrite <- Hlen, stake_app_length, sdrop_app_length; auto.
Qed.

(** The program's pattern finds a short digest in a stem that is one. *)
Lemma extract_short_digest h : is_short_digest h -> extract_fingerprint h = Some h.
Proof.
  intros [Hlen Hhex].
  assert (Hci : sall hexci h = true)
    by (eapply sall_impl; [apply hex_lower_hexci | exact Hhex]).
  assert (Hstart : starts_with_n hexci 12 h = true).
  { rewrite <- Hlen. rewrite <- (sapp_empty_r h) at 2. now apply starts_with_n_intro. }
  assert (Htake : stake 12 h = h).
  { rewrite <- Hlen. rewrite <- (sapp_empty_r h) at 2. apply stake_app_length. }
  unfold extract_fingerprint.
  assert (Hnone : after_digit_prefix h = None).
  { unfold after_digit_prefix.
    destruct (0 <? digits_len h)%nat; [|reflexivity].
    assert (Hd : forall n s, sall hexci s = true ->
               match sdrop n s with
               | String c t => Ascii.eqb c "_" = false
               | EmptyString => True
               end).
    { clear. induction n as [|n IH]; intros [|c s] Hs; simpl; auto.
      - simpl in Hs. apply andb_prop in Hs as [Hc _]. now apply hexci_not_underscore.
      - simpl in Hs. apply andb_prop in Hs as [_ Hs]. now apply IH. }
    specialize (Hd (digits_len h) h Hci).
    destruct (sdrop (digits_len h) h); [reflexivity|]. now rewrite Hd. }
  rewrite Hnone.
  destruct h as [|c h]; [discriminate|].
  cbn [leftmost_hex_run]. rewrite Hstart. cbn [option_map].
  rewrite Htake. now rewrite lower_fixed.
Qed.

(** * The file system *)

Lemma stat_lookup (fs0 : filesystem) (p : path) : p <> [] -> os.stat fs0 p = fs0 !! p.
Proof. now destruct p. Qed.

Lemma elem_of_rglob (root : path) (fs0 : filesystem) (p : path) :
  p ∈ os.rglob root fs0 <-> os.below root p /\ is_Some (fs0 !! p).
Proof.
  unfold os.rglob. rewrite list_elem_of_fmap. split.
  - intros [[q n] [-> Hin]]. apply elem_of_map_to_list in Hin.
    apply map_lookup_filter_Some in Hin as [Hq Hb]. simpl in *. eauto.
  - intros [Hb [n Hn]]. exists (p, n). split; [reflexivity|].
    apply elem_of_map_to_list, map_lookup_filter_Some. auto.
Qed.

(** The listing of a tree depends only on the entries below its root. *)
Lemma rglob_ext (root : path) (fs1 fs2 : filesystem) :
  (forall p, os.below root p -> fs1 !! p = fs2 !! p) ->
  os.rglob root fs1 = os.rglob root fs2.
Proof.
  intros H. unfold os.rglob. do 2 f_equal.
  apply map_eq. intros p. apply option_eq. intros n.
  rewrite !map_lookup_filter_Some. simpl.
  split; intros [Hp Hb]; (split; [|exact Hb]); [rewrite <- H | rewrite H]; auto.
Qed.

Lemma open_rb_ok (fs0 : filesystem) (p : path) data :
  os.open_rb fs0 p = Ok data <-> os.stat fs0 p = Some (File true data).
Proof.
  unfold os.open_rb. destruct (os.stat fs0 p) as [[[] d|b]|]; split; intros H;
    try discriminate H; congruence.
Qed.

Lemma open_rb_lookup (fs0 : filesystem) (p : path) data :
  os.open_rb fs0 p = Ok data -> p <> [] /\ fs0 !! p = Some (File true data).
Proof.
  intros H%open_rb_ok. destruct p; [discriminate|]. split; [discriminate | exact H].
Qed.

Lemma open_rb_ext (fs1 fs2 : filesystem) (p : path) :
  fs1 !! p = fs2 !! p -> os.open_rb fs1 p = os.open_rb fs2 p.
Proof. intros H. unfold os.open_rb, os.stat. destruct p; [reflexivity | now rewrite H]. Qed.

Lemma is_file_lookup (fs0 : filesystem) (p : path) :
  os.is_file fs0 p = true <-> exists b d, p <> [] /\ fs0 !! p = Some (File b d).
Proof.
  unfold os.is_file, os.stat. destruct p as [|c p].
  - split; [discriminate | intros (b & d & H & _); now destruct H].
  - destruct (fs0 !! (c :: p)) as [[b d|b]|]; split; try discriminate.
    + eauto.
    + reflexivity.
    + intros (b' & d & _ & H); discriminate.
    + intros (b' & d & _ & H); discriminate.
Qed.

Lemma persists_refl fs0 : persists fs0 fs0.
Proof. intros p n H. eauto. Qed.

Lemma persists_trans fs1 fs2 fs3 : persists fs1 fs2 -> persists fs2 fs3 -> persists fs1 fs3.
Proof.
  intros H12 H23 p n H. destruct (H12 _ _ H) as (n2 & H2 & K2).
  destruct (H23 _ _ H2) as (n3 & H3 & K3). exists n3. split; congruence.
Qed.

Lemma only_adds_refl fs0 : only_adds fs0 fs0.
Proof. intros p. now right. Qed.

Lemma only_adds_trans fs1 fs2 fs3 :
  only_adds fs1 fs2 -> only_adds fs2 fs3 -> only_adds fs1 fs3.
Proof.
  intros H12 H23 p. destruct (H12 p) as [H|H]; [now left|].
  destruct (H23 p) as [H'|H']; [left; congruence | right; congruence].
Qed.

Lemma only_adds_persists fs1 fs2 : only_adds fs1 fs2 -> persists fs1 fs2.
Proof.
  intros H p n Hp. destruct (H p) as [H'|H']; [congruence|].
  exists n. split; congruence.
Qed.

Lemma only_adds_insert (fs0 : filesystem) (p : path) n :
  fs0 !! p = None -> only_adds fs0 (<[p := n]> fs0).
Proof.
  intros H q. destruct (decide (p = q)) as [->|Hne]; [now left|].
  right. now rewrite lookup_insert_ne.
Qed.

(** [os.write] creates a file or replaces the content of one. *)
Lemma write_ok (fs0 fs' : filesystem) (p : path) data :
  os.write fs0 p data = Ok fs' ->
  p <> [] /\ fs' = <[p := File true data]> fs0 /\
  (fs0 !! p = None \/ exists d0, fs0 !! p = Some (File true d0)).
Proof.
  unfold os.write. destruct p as [|c p]; [discriminate|].
  cbn [os.stat]. destruct (fs0 !! (c :: p)) as [[[] d0|b]|] eqn:Hp; try discriminate.
  - intros [= <-]. split; [discriminate|]. split; [reflexivity|]. right; eauto.
  - destruct (os.stat fs0 (pathlib.parent (c :: p))) as [[b d|[]]|]; try discriminate.
    intros [= <-]. split; [discriminate|]. split; [reflexivity|]. now left.
Qed.

Lemma write_persists (fs0 fs' : filesystem) (p : path) data :
  os.write fs0 p data = Ok fs' -> persists fs0 fs'.
Proof.
  intros (Hne & -> & Hold)%write_ok q n Hq.
  destruct (decide (p = q)) as [->|Hpq].
  - rewrite lookup_insert_eq. destruct Hold as [H|[d0 H]]; [congruence|].
    exists (File true data). split; [reflexivity|]. rewrite H in Hq. now inversion Hq.
  - rewrite lookup_insert_ne by exact Hpq. eauto.
Qed.

Lemma write_over_file (fs0 : filesystem) (p : path) d0 data :
  os.open_rb fs0 p = Ok d0 ->
  os.write fs0 p data = Ok (<[p := File true data]> fs0).
Proof. intros H%open_rb_ok. unfold os.write. now rewrite H. Qed.

Lemma makedirs_only_adds comps : forall (pre : path) (fs0 fs' : filesystem),
  os.makedirs pre comps fs0 = Ok fs' -> only_adds fs0 fs'.
Proof.
  induction comps as [|c cs IH]; intros pre fs0 fs' H; cbn [os.makedirs] in H.
  - injection H as <-. apply only_adds_refl.
  - assert (Hne : pre ++ [c] <> []) by (now destruct pre).
    rewrite (stat_lookup _ _ Hne) in H.
    destruct (fs0 !! (pre ++ [c])) as [[b d|b]|] eqn:Hp.
    + discriminate.
    + eapply IH; eauto.
    + destruct (os.stat fs0 pre) as [[b d|[]]|]; try discriminate.
      eapply only_adds_trans; [|eapply IH; eauto].
      now apply only_adds_insert.
Qed.

Lemma copy2_ok (src dst : path) (fs0 fs' : filesystem) :
  shutil.copy2 src dst fs0 = Ok fs' ->
  exists data,
    os.open_rb fs0 src = Ok data /\
    os.write fs0 (if os.is_dir fs0 dst then dst ++ [pathlib.name src] else dst) data = Ok fs'.
Proof.
  unfold shutil.copy2. case_bool_decide; [discriminate|].
  destruct (os.open_rb fs0 src) as [data|e]; [|discriminate]. eauto.
Qed.

Lemma copy2_persists (src dst : path) (fs0 fs' : filesystem) :
  shutil.copy2 src dst fs0 = Ok fs' -> persists fs0 fs'.
Proof. intros (data & _ & H)%copy2_ok. eapply write_persists; eauto. Qed.

(** * The monad *)

Lemma for_each_app {A} (body : A -> M unit) l1 l2 w :
  for_each body (l1 ++ l2) w =
  match for_each body l1 w with
  | (Ok _, w1) => for_each body l2 w1
  | (Raise e, w1) => (Raise e, w1)
  end.
Proof.
  revert w. induction l1 as [|x l1 IH]; intros w; [reflexivity|].
  cbn [for_each app]. unfold mbind, M_bind.
  destruct (body x w) as [[[]|e] w1]; [apply IH | reflexivity].
Qed.

(** * The methods of the sanitizer *)

Lemma sha1_file_result filepath bs sample_size w :
  0 < bs ->
  _sha1_file filepath bs sample_size w =
  match digest_result sample_size (fs w) filepath with
  | Ok d => (Ok d, add_log (sha1_log filepath) w)
  | Raise e => (Raise e, w)
  end.
Proof.
  intros Hbs. rewrite sha1_file_eq by exact Hbs. unfold digest_result.
  destruct (os.open_rb (fs w) filepath); [|reflexivity].
  now destruct sample_size.
Qed.

(** [_clean_exif] never raises: it either rewrites the file or reports the
    failure itself. *)
Lemma clean_exif_eq piexif p w :
  _clean_exif piexif p w =
  match sanitize_outcome piexif (fs w) p with
  | Some new_data => (Ok tt, set_fs (<[p := File true new_data]> (fs w)) w)
  | None => (Ok tt, fail_world (clean_error_log p) w)
  end.
Proof.
  unfold _clean_exif, sanitize_outcome, try_except, mbind, M_bind, fs_read,
    lift_option, fs_update.
  destruct (os.open_rb (fs w) p) as [data|e] eqn:Hopen; [|reflexivity].
  destruct (piexif_load piexif data) as [d|]; cbn [mret M_ret raise]; [|reflexivity].
  fold (minimal_exif d).
  destruct (piexif_dump piexif _) as [eb|]; cbn [mret M_ret raise]; [|reflexivity].
  rewrite Hopen.
  destruct (piexif_insert piexif eb data) as [nd|]; cbn [mret M_ret raise]; [|reflexivity].
  now rewrite (write_over_file _ _ _ nd Hopen).
Qed.

Lemma sanitize_outcome_file (piexif : piexif_lib) (fs0 : filesystem) (p : path) nd :
  sanitize_outcome piexif fs0 p = Some nd ->
  exists data, p <> [] /\ fs0 !! p = Some (File true data).
Proof.
  unfold sanitize_outcome. destruct (os.open_rb fs0 p) as [data|e] eqn:H; [|discriminate].
  intros _. exists data. now apply open_rb_lookup.
Qed.

Lemma copy_image_cases self im w :
  match _copy_image self im w with
  | (Ok dst, w') =>
      report w' = report w /\ log w' = log w /\
      dst_path_of self (img_path im) (sha1 im) = Some dst /\
      exists rel fs1,
        pathlib.relative_to (pathlib.parent (img_path im)) (source self) = Some rel /\
        os.mkdir_parents (dest self ++ rel) (fs w) = Ok fs1 /\
        shutil.copy2 (img_path im) dst fs1 = Ok (fs w')
  | (Raise e, w') =>
      report w' = report w /\ log w' = log w /\ only_adds (fs w) (fs w')
  end.
Proof.
  unfold _copy_image, mbind, M_bind, lift_option, fs_update, dst_path_of,
    short_sha, extension, pathlib.join.
  destruct (pathlib.relative_to _ _) as [rel|]; cbn [mret M_ret raise].
  2:{ repeat split. apply only_adds_refl. }
  destruct (os.mkdir_parents (dest self ++ rel) (fs w)) as [fs1|e] eqn:Hmk.
  2:{ repeat split. apply only_adds_refl. }
  cbn [fs set_fs].
  destruct (shutil.copy2 _ _ fs1) as [fs2|e] eqn:Hcp.
  - cbn [fs report log set_fs]. repeat split.
    + now rewrite <- app_assoc.
    + exists rel, fs1. rewrite <- app_assoc in Hcp. repeat split; auto.
      now rewrite <- app_assoc.
  - cbn [fs report log set_fs]. repeat split.
    eapply makedirs_only_adds; eauto.
Qed.

(** * One file *)

(** [_process_file] as an equation on the outcome of its steps. *)
Lemma process_file_eq piexif self (f : path) (X : gset string) w :
  _process_file piexif self f X w =
  match digest_result (_hash_sample_size self) (fs w) f with
  | Raise e => (Ok tt, fail_world (process_error_log f) w)
  | Ok d =>
      let w1 := add_log (sha1_log f) w in
      if bool_decide (stake 12 d ∈ X) then (Ok tt, ignore_world (ignored_log f) w1)
      else
        match _copy_image self (mkImage f d) w1 with
        | (Raise e, w2) => (Ok tt, fail_world (process_error_log f) w2)
        | (Ok dst, w2) =>
            (Ok tt, copy_world (processed_log dst) (snd (_clean_exif piexif dst w2)))
        end
  end.
Proof.
  unfold _process_file, try_except, mbind, M_bind.
  rewrite sha1_file_result by lia.
  destruct (digest_result _ _ _) as [d|e]; [|reflexivity].
  cbn [img_path short_sha sha1]. change (short_sha (mkImage f d)) with (stake 12 d).
  case_bool_decide; [reflexivity|].
  destruct (_copy_image self _ _) as [[dst|e] w2]; [|reflexivity].
  rewrite clean_exif_eq.
  destruct (sanitize_outcome piexif (fs w2) dst); reflexivity.
Qed.

Lemma process_file_ok piexif self (f : path) (X : gset string) w :
  fst (_process_file piexif self f X w) = Ok tt.
Proof.
  rewrite process_file_eq.
  destruct (digest_result _ _ _) as [d|e]; [|reflexivity].
  cbv zeta. case_bool_decide; [reflexivity|].
  now destruct (_copy_image self _ _) as [[dst|e] w2].
Qed.

Lemma clean_errors_snoc l rec :
  clean_errors (l ++ [rec]) = clean_errors l + (if is_clean_error rec then 1 else 0).
Proof.
  unfold clean_errors. rewrite List.filter_app, length_app. simpl.
  destruct (is_clean_error rec); simpl; lia.
Qed.

Lemma process_file_counted piexif self (f : path) (X : gset string) w :
  counted w (snd (_process_file piexif self f X w)).
Proof.
  rewrite process_file_eq.
  destruct (digest_result _ _ _) as [d|e].
  2:{ apply counted_failed; [reflexivity|].
      cbn [snd fail_world set_report add_log log]. rewrite clean_errors_snoc. simpl. lia. }
  cbv zeta. case_bool_decide.
  { apply counted_ignored; [reflexivity|].
    cbn [snd ignore_world set_report add_log log]. rewrite !clean_errors_snoc. simpl. lia. }
  pose proof (copy_image_cases self (mkImage f d) (add_log (sha1_log f) w)) as Hc.
  destruct (_copy_image self _ _) as [[dst|e] w2].
  - destruct Hc as (Hr & Hl & _). rewrite clean_exif_eq.
    destruct (sanitize_outcome piexif (fs w2) dst).
    + apply counted_copied.
      * cbn [snd copy_world set_report add_log report set_fs]. now rewrite Hr.
      * cbn [snd copy_world set_report add_log log set_fs]. rewrite Hl.
        cbn [add_log log]. rewrite !clean_errors_snoc. simpl. lia.
    + apply counted_copied_and_failed.
      * cbn [snd copy_world fail_world set_report add_log report]. now rewrite Hr.
      * cbn [snd copy_world fail_world set_report add_log log]. rewrite Hl.
        cbn [add_log log]. rewrite !clean_errors_snoc. simpl. lia.
  - destruct Hc as (Hr & Hl & _). apply counted_failed.
    + cbn [snd fail_world set_report add_log report]. now rewrite Hr.
    + cbn [snd fail_world set_report add_log log]. rewrite Hl.
      cbn [add_log log]. rewrite !clean_errors_snoc. simpl. lia.
Qed.

Lemma counted_total w w' :
  counted w w' ->
  total (report w') - clean_errors (log w') = total (report w) - clean_errors (log w) + 1.
Proof.
  intros [Hr Hl|Hr Hl|Hr Hl|Hr Hl]; rewrite Hr, Hl; unfold total; simpl; lia.
Qed.

Lemma counted_bounds w w' :
  counted w w' ->
  copied (report w) <= copied (report w') <= copied (report w) + 1 /\
  failed (report w) <= failed (report w') /\
  ignored (report w) <= ignored (report w').
Proof. intros [Hr _|Hr _|Hr _|Hr _]; rewrite Hr; simpl; lia. Qed.

(** * The loop over the files *)

Section Loop.

Variable piexif : piexif_lib.
Variable self : Sanitizer.
Variable X : gset string.

Lemma loop_cons f l w :
  for_each (fun g => _process_file piexif self g X) (f :: l) w
  = for_each (fun g => _process_file piexif self g X) l
      (snd (_process_file piexif self f X w)).
Proof.
  cbn [for_each]. unfold mbind, M_bind.
  pose proof (process_file_ok piexif self f X w) as H.
  destruct (_process_file piexif self f X w) as [[[]|e] w1]; [reflexivity|discriminate].
Qed.

Lemma loop_ok l w : fst (for_each (fun g => _process_file piexif self g X) l w) = Ok tt.
Proof.
  revert w. induction l as [|f l IH]; intros w; [reflexivity|].
  rewrite loop_cons. apply IH.
Qed.

Lemma loop_total l w :
  let w' := snd (for_each (fun g => _process_file piexif self g X) l w) in
  total (report w') - clean_errors (log w') =
  total (report w) - clean_errors (log w) + Z.of_nat (length l).
Proof.
  revert w. induction l as [|f l IH]; intros w; cbv zeta.
  - simpl. lia.
  - rewrite loop_cons. specialize (IH (snd (_process_file piexif self f X w))). cbv zeta in IH. rewrite IH.
    pose proof (counted_total _ _ (process_file_counted piexif self f X w)) as H.
    simpl length. lia.
Qed.

Lemma loop_bounds l w :
  let w' := snd (for_each (fun g => _process_file piexif self g X) l w) in
  copied (report w) <= copied (report w') <= copied (report w) + Z.of_nat (length l) /\
  failed (report w) <= failed (report w') /\
  ignored (report w) <= ignored (report w').
Proof.
  revert w. induction l as [|f l IH]; intros w; cbv zeta.
  - simpl. lia.
  - rewrite loop_cons. specialize (IH (snd (_process_file piexif self f X w))). cbv zeta in IH.
    pose proof (counted_bounds _ _ (process_file_counted piexif self f X w)) as H.
    simpl length. lia.
Qed.

End Loop.

(** [run] is its loop, from the world its prologue leaves, with the index
    taken from the file system as it is before the first file is processed. *)
Lemma pipeline_eq piexif self fs0 :
  pipeline piexif self fs0 =
  for_each (fun f => _process_file piexif self f (scan_dest self fs0))
    (scan_source self fs0)
    {| fs := fs0; report := Report_init; log := run_prologue_log |}.
Proof. reflexivity. Qed.

(** * The destination index *)

Lemma add_existing_eq (fs0 : filesystem) (X : gset string) (f : path) :
  add_existing fs0 X f =
  if os.is_file fs0 f then
    match extract_fingerprint (pathlib.stem f) with
    | Some h => X ∪ {[ h ]}
    | None => X
    end
  else X.
Proof.
  unfold add_existing. destruct (os.is_file fs0 f); [|reflexivity].
  rewrite <- search_hash_pattern. now destruct (re.search _ _).
Qed.

Lemma elem_of_fold_add_existing (fs0 : filesystem) (l : list path) (X : gset string) h :
  h ∈ fold_left (add_existing fs0) l X <->
  h ∈ X \/ exists p, p ∈ l /\ os.is_file fs0 p = true /\
                     extract_fingerprint (pathlib.stem p) = Some h.
Proof.
  revert X. induction l as [|f l IH]; intros X; cbn [fold_left].
  - split; [now left|]. intros [H|(p & Hp & _)]; [exact H|]. now apply elem_of_nil in Hp.
  - rewrite IH, add_existing_eq. split.
    + intros [H|(p & Hp & Hf & He)].
      * destruct (os.is_file fs0 f) eqn:Hf; [|now left].
        destruct (extract_fingerprint (pathlib.stem f)) as [h'|] eqn:He; [|now left].
        apply elem_of_union in H as [H|H]; [now left|].
        apply elem_of_singleton in H as ->. right. exists f. split; [left|auto].
      * right. exists p. split; [now right|auto].
    + intros [H|(p & Hp & Hf & He)].
      * left. destruct (os.is_file fs0 f); [|exact H].
        destruct (extract_fingerprint _); [|exact H]. apply elem_of_union. now left.
      * apply elem_of_cons in Hp as [->|Hp].
        -- left. rewrite Hf, He. apply elem_of_union. right. now apply elem_of_singleton.
        -- right. eauto.
Qed.

(** The index holds what [extract_fingerprint] finds in the stems of the
    regular files below the destination root. *)
Lemma elem_of_scan_dest (self : Sanitizer) (fs0 : filesystem) h :
  h ∈ scan_dest self fs0 <->
  exists p, os.below (dest self) p /\ os.is_file fs0 p = true /\
            extract_fingerprint (pathlib.stem p) = Some h.
Proof.
  unfold scan_dest. rewrite elem_of_fold_add_existing. split.
  - intros [H|(p & Hp & Hf & He)]; [now apply not_elem_of_empty in H|].
    apply elem_of_rglob in Hp as [Hb _]. eauto.
  - intros (p & Hb & Hf & He). right. exists p. split; [|auto].
    apply elem_of_rglob. split; [exact Hb|].
    apply is_file_lookup in Hf as (b & d & _ & Hl). eauto.
Qed.

Lemma elem_of_scan_source (self : Sanitizer) (fs0 : filesystem) (p : path) :
  p ∈ scan_source self fs0 <->
  os.below (source self) p /\ is_Some (fs0 !! p) /\ is_jpeg_suffix p = true.
Proof.
  unfold scan_source. rewrite list_elem_of_In, List.filter_In, <- list_elem_of_In.
  rewrite elem_of_rglob. tauto.
Qed.

(** * Where a copy lands *)

Lemma digest_result_ok (sample_size : pyval) (fs0 : filesystem) (f : path) d :
  digest_result sample_size fs0 f = Ok d ->
  exists data, os.open_rb fs0 f = Ok data /\ d = digest_of sample_size data.
Proof.
  unfold digest_result. destruct (os.open_rb fs0 f) as [data|e]; [|discriminate].
  destruct sample_size; intros [= <-]; eauto.
Qed.

Lemma digest_result_ext (sample_size : pyval) (fs1 fs2 : filesystem) (f : path) :
  fs1 !! f = fs2 !! f ->
  digest_result sample_size fs1 f = digest_result sample_size fs2 f.
Proof. intros H. unfold digest_result. now rewrite (open_rb_ext fs1 fs2 f H). Qed.

Lemma dst_path_below (self : Sanitizer) (f : path) d dst :
  dst_path_of self f d = Some dst ->
  os.below (dest self) dst /\
  pathlib.name dst = (stake 12 d +:+ lower (pathlib.suffix f))%string /\
  exists dir, dst = dir ++ [(stake 12 d +:+ lower (pathlib.suffix f))%string].
Proof.
  unfold dst_path_of. destruct (pathlib.relative_to _ _) as [rel|]; [|discriminate].
  intros [= <-]. split; [split|split].
  - now apply prefix_app_r.
  - intros H. rewrite <- (app_nil_r (dest self)) in H at 2.
    apply app_inv_head in H. now destruct rel.
  - rewrite app_assoc. apply name_snoc.
  - exists (dest self ++ rel). now rewrite app_assoc.
Qed.

(** The stem of the destination of a candidate is its short digest, and
    the program's pattern finds it there. *)
Lemma dst_path_fingerprint (self : Sanitizer) (f : path) sample_size data dst :
  is_jpeg_suffix f = true ->
  dst_path_of self f (digest_of sample_size data) = Some dst ->
  extract_fingerprint (pathlib.stem dst) = Some (stake 12 (digest_of sample_size data)).
Proof.
  intros Hj Hd. apply dst_path_below in Hd as (_ & _ & dir & ->).
  pose proof (short_digest_of sample_size data) as Hs.
  destruct (stem_dest_name dir _ _ Hs (is_jpeg_suffix_ext _ Hj)) as [-> _].
  now apply extract_short_digest.
Qed.

(** * One file, seen from the file system *)

Lemma process_file_persists (piexif : piexif_lib) (self : Sanitizer) (f : path) (X : gset string) w :
  persists (fs w) (fs (snd (_process_file piexif self f X w))).
Proof.
  rewrite process_file_eq.
  destruct (digest_result _ _ _) as [d|e]; [|apply persists_refl].
  cbv zeta. case_bool_decide; [apply persists_refl|].
  pose proof (copy_image_cases self (mkImage f d) (add_log (sha1_log f) w)) as Hc.
  destruct (_copy_image self _ _) as [[dst|e] w2].
  - destruct Hc as (_ & _ & _ & rel & fs1 & _ & Hmk & Hcp).
    cbn [fs add_log] in Hmk.
    apply makedirs_only_adds, only_adds_persists in Hmk.
    apply copy2_persists in Hcp.
    eapply persists_trans; [exact Hmk|]. eapply persists_trans; [exact Hcp|].
    rewrite clean_exif_eq.
    destruct (sanitize_outcome piexif (fs w2) dst) as [nd|] eqn:Hs; [|apply persists_refl].
    cbn [snd copy_world set_report add_log set_fs fs].
    apply sanitize_outcome_file in Hs as (data & Hne & Hl).
    intros q n Hq. destruct (decide (dst = q)) as [->|Hdq].
    + rewrite lookup_insert_eq. exists (File true nd). split; [reflexivity|].
      rewrite Hl in Hq. now inversion Hq.
    + rewrite lookup_insert_ne by exact Hdq. eauto.
  - destruct Hc as (_ & _ & Ha). cbn [fs add_log] in Ha.
    now apply only_adds_persists.
Qed.

Lemma loop_persists (piexif : piexif_lib) (self : Sanitizer) (X : gset string) l w :
  persists (fs w) (fs (snd (for_each (fun f => _process_file piexif self f X) l w))).
Proof.
  revert w. induction l as [|f l IH]; intros w; [apply persists_refl|].
  rewrite loop_cons. eapply persists_trans; [|apply IH]. apply process_file_persists.
Qed.

(** A file counted in [copied] and not in [failed]: its digest was not in
    the index, its copy is a regular file at the destination path, and nothing
    else that existed has changed. *)
Lemma clean_copy_step (piexif : piexif_lib) (self : Sanitizer) (f : path) (X : gset string) w :
  let w' := snd (_process_file piexif self f X w) in
  copied (report w') = copied (report w) + 1 ->
  failed (report w') = failed (report w) ->
  exists d dst,
    digest_result (_hash_sample_size self) (fs w) f = Ok d /\
    (stake 12 d ∉ X) /\
    dst_path_of self f d = Some dst /\
    os.is_file (fs w') dst = true /\
    (forall p, p <> dst -> fs w !! p = None \/ fs w' !! p = fs w !! p).
Proof.
  cbv zeta. rewrite process_file_eq.
  destruct (digest_result _ _ _) as [d|e].
  2:{ cbn. lia. }
  cbv zeta. case_bool_decide as HX.
  { cbn. lia. }
  pose proof (copy_image_cases self (mkImage f d) (add_log (sha1_log f) w)) as Hc.
  destruct (_copy_image self _ _) as [[dst|e] w2].
  2:{ destruct Hc as (Hr & _). cbn. rewrite Hr. cbn. lia. }
  destruct Hc as (Hr & _ & Hdst & rel & fs1 & _ & Hmk & Hcp).
  cbn [fs add_log img_path sha1] in *.
  rewrite clean_exif_eq.
  destruct (sanitize_outcome piexif (fs w2) dst) as [nd|] eqn:Hs.
  2:{ cbn. rewrite Hr. cbn. lia. }
  intros _ _. exists d, dst. repeat split; auto.
  - cbn [snd copy_world set_report add_log set_fs fs].
    apply sanitize_outcome_file in Hs as (data & Hne & Hl).
    apply is_file_lookup. exists true, nd. split; [exact Hne|]. apply lookup_insert_eq.
  - intros p Hp. cbn [snd copy_world set_report add_log set_fs fs].
    rewrite lookup_insert_ne by congruence.
    apply sanitize_outcome_file in Hs as (data & Hne & Hl).
    apply copy2_ok in Hcp as (data' & _ & Hw).
    destruct (os.is_dir fs1 dst) eqn:Hdir.
    + exfalso. apply write_ok in Hw as (_ & Hw & _). rewrite Hw in Hl.
      rewrite lookup_insert_ne in Hl
        by (intros E; apply (f_equal (@length string)) in E; rewrite length_app in E; simpl in E; lia).
      unfold os.is_dir in Hdir. rewrite (stat_lookup _ _ Hne), Hl in Hdir. discriminate.
    + apply write_ok in Hw as (_ & -> & _).
      rewrite lookup_insert_ne by congruence.
      apply makedirs_only_adds in Hmk. apply Hmk.
Qed.

(** * Two runs *)

Section TwoRuns.

Variable piexif : piexif_lib.
Variable self : Sanitizer.
Variable fs0 : filesystem.

(** The first run, file by file: as long as the run ends with the source
    tree as it was, with every file counted in [copied] and none in
    [failed], every file was hashed as it is in [fs0] and its copy is a
    regular file at its destination path when the run ends. *)
Lemma first_run_lands (l : list path) : forall w,
  let w' := snd (for_each (fun f => _process_file piexif self f (scan_dest self fs0)) l w) in
  (forall f, f ∈ l -> os.below (source self) f /\ is_jpeg_suffix f = true) ->
  same_below (source self) fs0 (fs w) ->
  same_below (source self) fs0 (fs w') ->
  copied (report w') = copied (report w) + Z.of_nat (length l) ->
  failed (report w') = failed (report w) ->
  forall f, f ∈ l ->
    exists d dst,
      digest_result (_hash_sample_size self) fs0 f = Ok d /\
      dst_path_of self f d = Some dst /\
      os.is_file (fs w') dst = true.
Proof.
  induction l as [|f l IH]; intros w; cbv zeta.
  - intros _ _ _ _ _ g Hg. now apply elem_of_nil in Hg.
  - rewrite loop_cons.
    set (wa := snd (_process_file piexif self f (scan_dest self fs0) w)).
    set (w' := snd (for_each _ l wa)).
    intros Hl Hw Hw' Hcop Hfail.
    pose proof (counted_bounds _ _ (process_file_counted piexif self f (scan_dest self fs0) w)) as Hb1.
    pose proof (loop_bounds piexif self (scan_dest self fs0) l wa) as Hb2.
    fold wa in Hb1. cbv zeta in Hb2. fold w' in Hb2.
    simpl length in Hcop.
    assert (Hc1 : copied (report wa) = copied (report w) + 1) by lia.
    assert (Hf1 : failed (report wa) = failed (report w)) by lia.
    destruct (clean_copy_step piexif self f (scan_dest self fs0) w Hc1 Hf1)
      as (d & dst & Hd & HX & Hdst & Hfile & Hchg).
    fold wa in Hfile, Hchg.
    destruct (Hl f) as [Hbf Hjf]; [left|].
    assert (Hd0 : digest_result (_hash_sample_size self) fs0 f = Ok d).
    { rewrite <- Hd. apply digest_result_ext. now apply Hw. }
    pose proof (loop_persists piexif self (scan_dest self fs0) l wa) as Hper. fold w' in Hper.
    (* the source tree is still as it was after this file *)
    assert (Hwa : same_below (source self) fs0 (fs wa)).
    { intros p Hp. rewrite (Hw p Hp).
      assert (Hfresh : fs w !! p = None -> fs w !! p = fs wa !! p).
      { intros Hnone. destruct (fs wa !! p) as [n|] eqn:Hn; [|exact Hnone].
        destruct (Hper _ _ Hn) as (n' & Hn' & _).
        rewrite <- (Hw' p Hp), (Hw p Hp), Hnone in Hn'. discriminate. }
      destruct (decide (p = dst)) as [->|Hne].
      - destruct (fs w !! dst) as [n|] eqn:Hn; [|now apply Hfresh].
        exfalso. apply HX.
        apply digest_result_ok in Hd0 as (data & _ & ->).
        apply elem_of_scan_dest. exists dst. split; [|split].
        + now destruct (dst_path_below _ _ _ _ Hdst) as [? _].
        + apply is_file_lookup in Hfile as (b & nd & Hne & Hl').
          destruct (process_file_persists piexif self f (scan_dest self fs0) w _ _ Hn) as (n' & Hn' & Hk).
          fold wa in Hn'. rewrite Hl' in Hn'. injection Hn' as <-.
          destruct n as [b0 d0|b0]; [|discriminate].
          apply is_file_lookup. exists b0, d0. split; [exact Hne|].
          now rewrite (Hw dst Hp).
        + now apply (dst_path_fingerprint self f).
      - destruct (Hchg p Hne) as [Hnone|Heq]; [now apply Hfresh | now symmetry]. }
    intros g Hg. apply elem_of_cons in Hg as [->|Hg].
    + exists d, dst. repeat split; auto.
      apply is_file_lookup in Hfile as (b & nd & Hne & Hl').
      destruct (Hper _ _ Hl') as (n' & Hn' & Hk).
      destruct n' as [b' d'|b']; [|discriminate].
      apply is_file_lookup. eauto.
    + apply (IH wa); auto.
      * intros h Hh. apply Hl. now right.
      * fold w'. lia.
      * fold w'. lia.
Qed.

(** A run in which the digest of every file is in the index ignores them
    all and leaves the file system as it is. *)
Lemma all_ignored (X : gset string) (l : list path) : forall w,
  (forall f, f ∈ l ->
     exists d, digest_result (_hash_sample_size self) (fs w) f = Ok d /\ stake 12 d ∈ X) ->
  let w' := snd (for_each (fun f => _process_file piexif self f X) l w) in
  fs w' = fs w /\
  ignored (report w') = ignored (report w) + Z.of_nat (length l) /\
  copied (report w') = copied (report w) /\
  failed (report w') = failed (report w).
Proof.
  induction l as [|f l IH]; intros w Hl; cbv zeta.
  - simpl. repeat split; lia.
  - rewrite loop_cons.
    destruct (Hl f) as (d & Hd & HX); [left|].
    assert (Hstep : snd (_process_file piexif self f X w)
                    = ignore_world (ignored_log f) (add_log (sha1_log f) w)).
    { rewrite process_file_eq, Hd. cbv zeta. now rewrite bool_decide_eq_true_2. }
    rewrite Hstep.
    destruct (IH (ignore_world (ignored_log f) (add_log (sha1_log f) w)))
      as (Hfs & Hi & Hc & Hf).
    { intros g Hg. apply Hl. now right. }
    cbv zeta in *. rewrite Hfs, Hi, Hc, Hf. cbn. simpl length.
    repeat split; lia.
Qed.

(** The second run after a first run that copied every file, on a source
    tree that is the same. *)
Lemma second_run_ignores_all :
  let w1 := snd (pipeline piexif self fs0) in
  let n := Z.of_nat (length (scan_source self fs0)) in
  same_below (source self) fs0 (fs w1) ->
  copied (report w1) = n -> failed (report w1) = 0 ->
  let w2 := snd (pipeline piexif self (fs w1)) in
  scan_source self (fs w1) = scan_source self fs0 /\
  fs w2 = fs w1 /\
  report w2 = {| ignored := n; copied := 0; failed := 0 |}.
Proof.
  cbv zeta. rewrite !pipeline_eq.
  set (w := {| fs := fs0; report := Report_init; log := run_prologue_log |}).
  set (w1 := snd (for_each _ (scan_source self fs0) w)).
  intros Hsame Hcop Hfail.
  assert (Hfiles : scan_source self (fs w1) = scan_source self fs0).
  { unfold scan_source. f_equal. symmetry. now apply rglob_ext. }
  split; [exact Hfiles|]. rewrite Hfiles.
  pose proof (first_run_lands (scan_source self fs0) w) as Hland.
  cbv zeta in Hland. fold w1 in Hland.
  assert (Hcand : forall f, f ∈ scan_source self fs0 ->
            os.below (source self) f /\ is_jpeg_suffix f = true).
  { intros f Hf. apply elem_of_scan_source in Hf. tauto. }
  specialize (Hland Hcand (fun p _ => eq_refl) Hsame).
  specialize (Hland ltac:(simpl; lia) ltac:(simpl; lia)).
  set (w1' := {| fs := fs w1; report := Report_init; log := run_prologue_log |}).
  destruct (all_ignored (scan_dest self (fs w1)) (scan_source self fs0) w1')
    as (Hfs & Hi & Hc & Hf).
  { intros f Hf. destruct (Hland f Hf) as (d & dst & Hd & Hdst & Hfile).
    exists d. split.
    - rewrite <- Hd. cbn [fs w1']. apply digest_result_ext. symmetry.
      apply Hsame. now apply Hcand.
    - apply digest_result_ok in Hd as (data & _ & ->).
      apply elem_of_scan_dest. exists dst. split; [|split].
      + now destruct (dst_path_below _ _ _ _ Hdst) as [? _].
      + exact Hfile.
      + apply (dst_path_fingerprint self f); [|exact Hdst]. now apply Hcand. }
  cbv zeta in *. split; [exact Hfs|].
  destruct (report (snd (for_each _ _ w1'))) as [i c f].
  cbn in *. f_equal; lia.
Qed.

End TwoRuns.

(** * What a run writes *)

Lemma makedirs_frame comps : forall (pre : path) (fs0 fs' : filesystem) (p : path),
  os.makedirs pre comps fs0 = Ok fs' ->
  fs' !! p = fs0 !! p \/ (pre `prefix_of` p /\ p `prefix_of` (pre ++ comps)).
Proof.
  induction comps as [|c cs IH]; intros pre fs0 fs' p H; cbn [os.makedirs] in H.
  - injection H as <-. now left.
  - assert (Hne : pre ++ [c] <> []) by (now destruct pre).
    rewrite (stat_lookup _ _ Hne) in H.
    assert (Hrec : (pre ++ [c]) `prefix_of` p /\ p `prefix_of` ((pre ++ [c]) ++ cs) ->
                   pre `prefix_of` p /\ p `prefix_of` (pre ++ c :: cs)).
    { rewrite <- app_assoc. simpl. intros [H1 H2]. split; [|exact H2].
      etrans; [|exact H1]. now apply prefix_app_r. }
    destruct (fs0 !! (pre ++ [c])) as [[b d|b]|] eqn:Hp.
    + discriminate.
    + destruct (IH _ _ _ p H) as [?|?]; [now left | right; auto].
    + destruct (os.stat fs0 pre) as [[b d|[]]|]; try discriminate.
      destruct (decide (p = pre ++ [c])) as [->|Hpne].
      * right. split; [now apply prefix_app_r|]. apply prefix_app, prefix_cons, prefix_nil.
      * destruct (IH _ _ _ p H) as [Heq|?]; [|right; auto].
        left. now rewrite Heq, lookup_insert_ne by congruence.
Qed.

Lemma zone_of_prefix (d rel p : path) :
  p `prefix_of` (d ++ rel) -> dest_zone d p.
Proof.
  intros Hp. unfold dest_zone.
  destruct (prefix_weak_total d p (d ++ rel)) as [?|?]; auto.
  now apply prefix_app_r.
Qed.

Lemma write_frame (fs0 fs' : filesystem) (q : path) data (p : path) :
  os.write fs0 q data = Ok fs' -> fs' !! p = fs0 !! p \/ p = q.
Proof.
  intros (_ & -> & _)%write_ok. destruct (decide (q = p)) as [->|Hne]; [now right|].
  left. now rewrite lookup_insert_ne.
Qed.

(** Whatever one file changes lies in the zone of the destination root: at
    or below it, or on the way to it. *)
Lemma process_file_frame (piexif : piexif_lib) (self : Sanitizer) (f : path)
    (X : gset string) w (p : path) :
  fs (snd (_process_file piexif self f X w)) !! p = fs w !! p \/ dest_zone (dest self) p.
Proof.
  rewrite process_file_eq.
  destruct (digest_result _ _ _) as [d|e]; [|now left].
  cbv zeta. case_bool_decide; [now left|].
  unfold _copy_image, mbind, M_bind, lift_option, fs_update, pathlib.join.
  destruct (pathlib.relative_to _ _) as [rel|]; cbn [mret M_ret raise]; [|now left].
  cbn [fs add_log].
  destruct (os.mkdir_parents (dest self ++ rel) (fs w)) as [fs1|e] eqn:Hmk; [|now left].
  assert (H1 : fs1 !! p = fs w !! p \/ dest_zone (dest self) p).
  { destruct (makedirs_frame _ _ _ _ p Hmk) as [?|[_ Hp]]; [now left|].
    right. eapply zone_of_prefix. exact Hp. }
  cbn [fs set_fs].
  set (dst := (dest self ++ rel) ++ [_]).
  assert (Hdst : forall k, dest self `prefix_of` (dst ++ k)).
  { intros k. unfold dst. rewrite <- !app_assoc. now apply prefix_app_r. }
  destruct (shutil.copy2 _ dst fs1) as [fs2|e] eqn:Hcp.
  - cbn [fs set_fs].
    assert (H2 : fs2 !! p = fs w !! p \/ dest_zone (dest self) p).
    { apply copy2_ok in Hcp as (data & _ & Hw).
      destruct (write_frame _ _ _ _ p Hw) as [Heq| ->].
      - destruct H1 as [H1|H1]; [left; congruence | now right].
      - right. left. destruct (os.is_dir fs1 dst).
        + apply Hdst.
        + rewrite <- (app_nil_r dst). apply Hdst. }
    cbn [mret M_ret]. rewrite clean_exif_eq. cbn [fs set_fs].
    destruct (sanitize_outcome piexif fs2 dst) as [nd|]; [|exact H2].
    cbn [snd copy_world set_report add_log set_fs fs].
    destruct (decide (dst = p)) as [<-|Hne].
    + right. left. rewrite <- (app_nil_r dst). apply Hdst.
    + now rewrite lookup_insert_ne.
  - exact H1.
Qed.

Lemma loop_frame (piexif : piexif_lib) (self : Sanitizer) (X : gset string) l w (p : path) :
  fs (snd (for_each (fun f => _process_file piexif self f X) l w)) !! p = fs w !! p
  \/ dest_zone (dest self) p.
Proof.
  revert w. induction l as [|f l IH]; intros w; [now left|].
  rewrite loop_cons.
  destruct (IH (snd (_process_file piexif self f X w))) as [H|H]; [|now right].
  destruct (process_file_frame piexif self f X w p) as [H'|H']; [|now right].
  left. congruence.
Qed.

(** With roots that do not contain one another, a run leaves the source
    tree as it was. *)
Lemma separate_roots_same_below (piexif : piexif_lib) (self : Sanitizer) (fs0 : filesystem) :
  ~ source self `prefix_of` dest self ->
  ~ dest self `prefix_of` source self ->
  same_below (source self) fs0 (fs (snd (pipeline piexif self fs0))).
Proof.
  intros Hsd Hds p [Hp _]. rewrite pipeline_eq.
  destruct (loop_frame piexif self (scan_dest self fs0) (scan_source self fs0)
              {| fs := fs0; report := Report_init; log := run_prologue_log |} p)
    as [H|[H|H]].
  - now symmetry.
  - exfalso. destruct (prefix_weak_total _ _ _ Hp H); auto.
  - exfalso. apply Hsd. etrans; [exact Hp | exact H].
Qed.

(** * The extraction rule *)

Lemma leftmost_hex_run_spec s h :
  leftmost_hex_run s = Some h -> String.length h = 12%nat /\ sall hexci h = true.
Proof.
  induction s as [|c s IH]; cbn [leftmost_hex_run].
  - destruct (starts_with_n hexci 12 "") eqn:H; [|discriminate]. discriminate H.
  - destruct (starts_with_n hexci 12 (String c s)) eqn:H; [|exact IH].
    clear IH. destruct (starts_with_n_stake _ _ _ H) as [L A].
    intros Heq. replace h with (stake 12 (String c s)) by congruence. auto.
Qed.

Lemma leftmost_hex_run_none s :
  leftmost_hex_run s = None <-> forall n, starts_with_n hexci 12 (sdrop n s) = false.
Proof.
  induction s as [|c s IH]; cbn [leftmost_hex_run].
  - split; [intros _ [|n]; reflexivity | reflexivity].
  - destruct (starts_with_n hexci 12 (String c s)) eqn:H.
    + split; [discriminate|]. intros Hn. specialize (Hn 0%nat). simpl sdrop in Hn. congruence.
    + rewrite IH. split.
      * intros Hn [|n]; [exact H | apply Hn].
      * intros Hn n. apply (Hn (S n)).
Qed.

Lemma extract_fingerprint_format s h :
  extract_fingerprint s = Some h ->
  String.length h = 12%nat /\ sall re.hex_lower h = true.
Proof.
  unfold extract_fingerprint.
  assert (Hleft : option_map lower (leftmost_hex_run s) = Some h ->
                  String.length h = 12%nat /\ sall re.hex_lower h = true).
  { destruct (leftmost_hex_run s) as [m|] eqn:Hm; [|discriminate].
    intros [= <-]. apply leftmost_hex_run_spec in Hm as [Hl Ha].
    now rewrite length_lower, sall_lower. }
  destruct (after_digit_prefix s) as [t|]; [|exact Hleft].
  destruct (starts_with_n hexci 12 t) eqn:Ht; [|exact Hleft].
  apply starts_with_n_stake in Ht as [Hl Ha].
  intros Heq. replace h with (lower (stake 12 t)) by congruence.
  now rewrite length_lower, sall_lower.
Qed.

Lemma after_digit_prefix_sdrop s t :
  after_digit_prefix s = Some t -> t = sdrop (S (digits_len s)) s.
Proof.
  unfold after_digit_prefix. destruct (0 <? digits_len s)%nat; [|discriminate].
  generalize (digits_len s) as n. intros n. revert s.
  induction n as [|n IH]; intros [|c s]; simpl; try discriminate.
  - destruct (Ascii.eqb c "_"); [|discriminate]. intros [= <-]. now destruct s.
  - apply IH.
Qed.

Lemma extract_fingerprint_none s :
  extract_fingerprint s = None <-> forall n, starts_with_n hexci 12 (sdrop n s) = false.
Proof.
  rewrite <- leftmost_hex_run_none. unfold extract_fingerprint.
  destruct (after_digit_prefix s) as [t|] eqn:Hp.
  - destruct (starts_with_n hexci 12 t) eqn:Ht.
    + split; [discriminate|]. intros Hn.
      apply after_digit_prefix_sdrop in Hp. subst t.
      rewrite leftmost_hex_run_none in Hn. now rewrite Hn in Ht.
    + destruct (leftmost_hex_run s); split; (discriminate || reflexivity).
  - destruct (leftmost_hex_run s); split; (discriminate || reflexivity).
Qed.

Lemma exact_shape_extract s h :
  exact_shape_fingerprint s = Some h -> extract_fingerprint s = Some h.
Proof.
  unfold exact_shape_fingerprint, extract_fingerprint.
  assert (Hbody : forall b, Nat.eqb (String.length b) 12 && sall hexci b = true ->
            starts_with_n hexci 12 b = true /\ stake 12 b = b).
  { intros b [Hl Ha]%andb_prop. apply Nat.eqb_eq in Hl. rewrite <- Hl.
    rewrite <- (sapp_empty_r b) at 2 4. split.
    - now apply starts_with_n_intro.
    - apply stake_app_length. }
  destruct (after_digit_prefix s) as [t|].
  - destruct (Nat.eqb (String.length t) 12 && sall hexci t) eqn:Hb; [|discriminate].
    destruct (Hbody _ Hb) as [-> ->]. auto.
  - destruct (Nat.eqb (String.length s) 12 && sall hexci s) eqn:Hb; [|discriminate].
    destruct (Hbody _ Hb) as [Hs Ht]. intros [= <-].
    destruct s as [|c s]; [discriminate|].
    cbn [leftmost_hex_run]. rewrite Hs. cbn [option_map]. now rewrite Ht.
Qed.

(** * The names of destination files *)


Lemma take_min_length {A} (n : Z) (l : list A) :
  0 <= n -> take (Z.to_nat (Z.min n (Z.of_nat (length l)))) l = take (Z.to_nat n) l.
Proof.
  intros Hn. destruct (Z.le_ge_cases n (Z.of_nat (length l))).
  - now rewrite Z.min_l.
  - rewrite Z.min_r by lia. rewrite Nat2Z.id. rewrite !take_ge; auto; lia.
Qed.

(** * The run as the CLI starts it *)

Lemma run_ok piexif self w : fst (run piexif self w) = Ok tt.
Proof.
  unfold run, mbind, M_bind, logger, get_fs. apply loop_ok.
Qed.

(** * The properties of the specification *)

Lemma sha1_file_inv (f : path) (sample_size : pyval) w r w1 :
  _sha1_file f 65536 sample_size w = (r, w1) ->
  digest_result sample_size (fs w) f = r /\
  w1 = match r with Ok _ => add_log (sha1_log f) w | Raise _ => w end.
Proof.
  rewrite sha1_file_result by lia.
  destruct (digest_result sample_size (fs w) f); intros [= <- <-]; auto.
Qed.

(** C1, as amended.  For every run of the pipeline (files processed one
    after the other), [copied + ignored + failed] equals the number of
    candidate files discovered plus the number of files whose sanitize step
    failed after their copy landed: such a file is counted in both [copied]
    and [failed], and every other candidate contributes exactly one
    increment. *)
Theorem partition_up_to_sanitize_failures (piexif : piexif_lib) (self : Sanitizer)
    (fs0 : filesystem) :
  (exists w,
     pipeline piexif self fs0 = (Ok tt, w) /\
     copied (report w) + ignored (report w) + failed (report w)
     = Z.of_nat (length (scan_source self fs0)) + clean_errors (log w)) /\
  (forall (f : path) (X : gset string) w0,
     counted w0 (snd (_process_file piexif self f X w0))).
Proof.
  split; [|intros; apply process_file_counted].
  exists (snd (pipeline piexif self fs0)). split.
  - rewrite pipeline_eq. rewrite (surjective_pairing (for_each _ _ _)) at 1.
    now rewrite loop_ok.
  - rewrite pipeline_eq.
    pose proof (loop_total piexif self (scan_dest self fs0) (scan_source self fs0)
                  {| fs := fs0; report := Report_init; log := run_prologue_log |}) as H.
    cbv zeta in H. unfold total in H. cbn [report log] in H.
    change (clean_errors run_prologue_log) with 0 in H.
    change (copied Report_init + ignored Report_init + failed Report_init) with 0 in H.
    lia.
Qed.

(** C1, as stated, fails: one candidate file whose copy lands and whose
    sanitize step fails ([b"hello world"] is not a JPEG) is counted in both
    [copied] and [failed], and the three counters add up to 2. *)
Lemma partition_fails_on_sanitize_failure :
  let w := snd (pipeline piexif_by_magic sanitizer_hello fs_hello) in
  scan_source sanitizer_hello fs_hello = [["src"; "a.jpg"]%string] /\
  report w = {| ignored := 0; copied := 1; failed := 1 |} /\
  copied (report w) + ignored (report w) + failed (report w)
  <> Z.of_nat (length (scan_source sanitizer_hello fs_hello)).
Proof. vm_compute. repeat split. intros H. discriminate H. Qed.

(** C2, as amended.  When the sanitize step fails for a file whose copy
    landed, [_clean_exif] raises nothing to its caller, [failed] is
    incremented, the copy is left in place, and [copied] is incremented as
    well: [copied] is incremented whenever the copy step succeeds. *)
Theorem sanitize_failure_counts_copied_and_failed (piexif : piexif_lib)
    (self : Sanitizer) (f : path) (X : gset string) w d w1 dst w2 :
  _sha1_file f 65536 (_hash_sample_size self) w = (Ok d, w1) ->
  stake 12 d ∉ X ->
  _copy_image self (mkImage f d) w1 = (Ok dst, w2) ->
  sanitize_outcome piexif (fs w2) dst = None ->
  _clean_exif piexif dst w2 = (Ok tt, fail_world (clean_error_log dst) w2) /\
  exists w',
    _process_file piexif self f X w = (Ok tt, w') /\
    fs w' = fs w2 /\
    report w' = bump_copied (bump_failed (report w)).
Proof.
  intros [Hd ->]%sha1_file_inv HX Hcp Hs. split.
  - now rewrite clean_exif_eq, Hs.
  - rewrite process_file_eq, Hd. cbv zeta.
    rewrite bool_decide_eq_false_2 by exact HX. rewrite Hcp.
    eexists. split; [reflexivity|].
    rewrite clean_exif_eq, Hs. split; [reflexivity|].
    pose proof (copy_image_cases self (mkImage f d) (add_log (sha1_log f) w)) as Hc.
    rewrite Hcp in Hc. destruct Hc as (Hr & _).
    cbn [snd copy_world fail_world set_report add_log report]. now rewrite Hr.
Qed.

Lemma sanitize_failure_counts_copied_and_failed_witness :
  let w := initial_world fs_hello in
  let f := ["src"; "a.jpg"]%string in
  let d := "2aae6c35c94fcfb415dbe95f408b9ce91ee846ed"%string in
  let w1 := add_log (sha1_log f) w in
  let dst := ["dst"; "2aae6c35c94f.jpg"]%string in
  let w2 := snd (_copy_image sanitizer_hello (mkImage f d) w1) in
  _clean_exif piexif_by_magic dst w2 = (Ok tt, fail_world (clean_error_log dst) w2) /\
  exists w',
    _process_file piexif_by_magic sanitizer_hello f ∅ w = (Ok tt, w') /\
    fs w' = fs w2 /\
    report w' = bump_copied (bump_failed (report w)).
Proof.
  cbv zeta.
  apply (sanitize_failure_counts_copied_and_failed piexif_by_magic sanitizer_hello
           ["src"; "a.jpg"]%string ∅ (initial_world fs_hello)
           "2aae6c35c94fcfb415dbe95f408b9ce91ee846ed"%string
           (add_log (sha1_log ["src"; "a.jpg"]%string) (initial_world fs_hello))).
  - vm_compute. reflexivity.
  - apply not_elem_of_empty.
  - vm_compute. reflexivity.
  - vm_compute. reflexivity.
Defined.

(** C2, as stated, fails: the copy of [src/a.jpg] lands, its sanitize step
    fails, and [copied] is 1 all the same. *)
Lemma copied_counted_despite_sanitize_failure :
  let w := initial_world fs_hello in
  let w' := snd (_process_file piexif_by_magic sanitizer_hello
                   ["src"; "a.jpg"]%string ∅ w) in
  let dst := ["dst"; "2aae6c35c94f.jpg"]%string in
  os.open_rb (fs w') dst = Ok (b_lit "hello world") /\
  sanitize_outcome piexif_by_magic (fs w') dst = None /\
  failed (report w') = 1 /\
  copied (report w') <> 0.
Proof. vm_compute. repeat split. intros H. discriminate H. Qed.

(** C3, as amended.  The destination index contains exactly the
    lower-cased first match of the program's pattern in the stem of each
    regular file below the destination root: the 12 hex characters that
    follow a leading "digits, underscore" prefix when the stem starts that
    way, otherwise the leftmost run of 12 hex characters anywhere in the stem
    (in its middle, or at the head of a longer run of hex characters).  A
    stem of the exact shape contributes its 12 hex characters; a stem with no
    12 consecutive hex characters contributes nothing. *)
Theorem index_is_first_match (self : Sanitizer) (fs0 : filesystem) :
  (forall h,
     h ∈ scan_dest self fs0 <->
     exists p, os.below (dest self) p /\ os.is_file fs0 p = true /\
               extract_fingerprint (pathlib.stem p) = Some h) /\
  (forall s, fingerprint_of (re.search hash_pattern s) = extract_fingerprint s) /\
  (forall s h, exact_shape_fingerprint s = Some h -> extract_fingerprint s = Some h) /\
  (forall s h, extract_fingerprint s = Some h ->
               String.length h = 12%nat /\ sall re.hex_lower h = true) /\
  (forall s, extract_fingerprint s = None <->
             forall n, starts_with_n hexci 12 (sdrop n s) = false).
Proof.
  split; [intros h; apply elem_of_scan_dest|].
  split; [exact search_hash_pattern|].
  split; [exact exact_shape_extract|].
  split; [exact extract_fingerprint_format | exact extract_fingerprint_none].
Qed.

(** C3, as stated, fails: the destination holds two regular files, neither
    with a stem of the exact shape (one has its 12 hex characters in the
    middle, the other is a run of 16), and the index is not empty. *)
Lemma index_takes_embedded_runs :
  os.rglob ["dst"]%string fs_index
  = [["dst"; "IMG_abcdef012345_x.jpg"]; ["dst"; "abcdef0123456789.jpg"]]%string /\
  exact_shape_fingerprint "IMG_abcdef012345_x" = None /\
  exact_shape_fingerprint "abcdef0123456789" = None /\
  elements (scan_dest sanitizer_hello fs_index) = ["abcdef012345"%string].
Proof.
  vm_compute. repeat split.
Qed.

(** C4: the code dispatches entries that are not regular files.  A source
    whose only entry is a directory named [photos.jpg] yields one candidate,
    the directory, whose processing fails when it is opened. *)
Theorem directory_is_dispatched :
  os.is_file fs_dir_jpg ["src"; "photos.jpg"]%string = false /\
  scan_source sanitizer_hello fs_dir_jpg = [["src"; "photos.jpg"]%string] /\
  report (snd (pipeline piexif_by_magic sanitizer_hello fs_dir_jpg))
  = {| ignored := 0; copied := 0; failed := 1 |}.
Proof. vm_compute. repeat split. Qed.

(** C5, as amended.  A file is counted as ignored only when its short
    digest is in the destination index as it was built before the first file
    was processed; the index is not updated during the run.  So a file whose
    short digest is not in that index is never ignored, and is counted in
    [copied] when its copy step succeeds, also when another file of the same
    run has the same content. *)
Theorem dedup_only_against_initial_index (piexif : piexif_lib) (self : Sanitizer)
    (fs0 : filesystem) (f : path) w d w1 :
  _sha1_file f 65536 (_hash_sample_size self) w = (Ok d, w1) ->
  stake 12 d ∉ scan_dest self fs0 ->
  let w' := snd (_process_file piexif self f (scan_dest self fs0) w) in
  ignored (report w') = ignored (report w) /\
  (forall dst w2, _copy_image self (mkImage f d) w1 = (Ok dst, w2) ->
                  copied (report w') = copied (report w) + 1) /\
  pipeline piexif self fs0 =
  for_each (fun g => _process_file piexif self g (scan_dest self fs0))
    (scan_source self fs0)
    {| fs := fs0; report := Report_init; log := run_prologue_log |}.
Proof.
  intros [Hd ->]%sha1_file_inv HX. cbv zeta.
  split; [|split; [|apply pipeline_eq]].
  - rewrite process_file_eq, Hd. cbv zeta.
    rewrite bool_decide_eq_false_2 by exact HX.
    pose proof (copy_image_cases self (mkImage f d) (add_log (sha1_log f) w)) as Hc.
    destruct (_copy_image self _ _) as [[dst|e] w2]; destruct Hc as (Hr & _).
    + rewrite clean_exif_eq.
      destruct (sanitize_outcome piexif (fs w2) dst); cbn; now rewrite Hr.
    + cbn. now rewrite Hr.
  - intros dst w2 Hcp. rewrite process_file_eq, Hd. cbv zeta.
    rewrite bool_decide_eq_false_2 by exact HX. rewrite Hcp.
    pose proof (copy_image_cases self (mkImage f d) (add_log (sha1_log f) w)) as Hc.
    rewrite Hcp in Hc. destruct Hc as (Hr & _).
    rewrite clean_exif_eq.
    destruct (sanitize_outcome piexif (fs w2) dst); cbn; now rewrite Hr.
Qed.

Lemma dedup_only_against_initial_index_witness :
  let self := sanitizer_hello in
  let f := ["src"; "b"; "two.jpg"]%string in
  let w := initial_world fs_twins in
  let w' := snd (_process_file piexif_by_magic self f (scan_dest self fs_twins) w) in
  ignored (report w') = ignored (report w) /\
  (forall dst w2,
     _copy_image self (mkImage f "fb700591f95bc73e0868a9db1684e806b641ab3c")
       (add_log (sha1_log f) w) = (Ok dst, w2) ->
     copied (report w') = copied (report w) + 1) /\
  pipeline piexif_by_magic self fs_twins =
  for_each (fun g => _process_file piexif_by_magic self g (scan_dest self fs_twins))
    (scan_source self fs_twins)
    {| fs := fs_twins; report := Report_init; log := run_prologue_log |}.
Proof.
  cbv zeta.
  apply (dedup_only_against_initial_index piexif_by_magic sanitizer_hello fs_twins
           ["src"; "b"; "two.jpg"]%string (initial_world fs_twins)
           "fb700591f95bc73e0868a9db1684e806b641ab3c"%string
           (add_log (sha1_log ["src"; "b"; "two.jpg"]%string) (initial_world fs_twins))).
  - vm_compute. reflexivity.
  - vm_compute. intros H. discriminate H.
Defined.

(** C5, as stated, fails: two files of equal content, hence of equal
    digest, neither in the (empty) destination index, are both copied in one
    sequential run, and none is ignored. *)
Lemma equal_content_both_copied :
  digest_result PyNone fs_twins ["src"; "a"; "one.jpg"]%string
  = digest_result PyNone fs_twins ["src"; "b"; "two.jpg"]%string /\
  elements (scan_dest sanitizer_hello fs_twins) = [] /\
  scan_source sanitizer_hello fs_twins
  = [["src"; "b"; "two.jpg"]; ["src"; "a"; "one.jpg"]]%string /\
  report (snd (pipeline piexif_by_magic sanitizer_hello fs_twins))
  = {| ignored := 0; copied := 2; failed := 0 |}.
Proof. vm_compute. repeat split. Qed.

Lemma index_is_first_match_witness :
  "abcdef012345"%string ∈ scan_dest sanitizer_hello fs_index /\
  extract_fingerprint "12_ABCDEF012345" = Some "abcdef012345"%string.
Proof.
  destruct (index_is_first_match sanitizer_hello fs_index) as (Hin & _ & Hshape & _).
  split.
  - apply Hin. exists ["dst"; "IMG_abcdef012345_x.jpg"]%string.
    split; [|split].
    + split; [now exists ["IMG_abcdef012345_x.jpg"]%string | discriminate].
    + vm_compute. reflexivity.
    + vm_compute. reflexivity.
  - apply Hshape. vm_compute. reflexivity.
Defined.

(** C6.  The digest function returns the reference SHA-1 of what it reads,
    whatever the chunk size: without a sample limit the digest of the whole
    content of the file; with a limit [N >= 0] the digest of exactly its
    first [min N size] bytes, which for [N >= size] is the digest of the whole
    content.  The result depends on the bytes only, and the digest of
    [b"hello world"] starts with [2aae6c35c94f]. *)
Theorem digest_is_reference_sha1 (w : World) (filepath : path) (data : bytes)
    (buffer_size : Z) :
  0 < buffer_size ->
  os.open_rb (fs w) filepath = Ok data ->
  fst (_sha1_file filepath buffer_size PyNone w) = Ok (sha1_hex data) /\
  (forall N, 0 <= N ->
     fst (_sha1_file filepath buffer_size (PyInt N) w)
     = Ok (sha1_hex (take (Z.to_nat (Z.min N (Z.of_nat (length data)))) data))) /\
  (forall N, Z.of_nat (length data) <= N ->
     fst (_sha1_file filepath buffer_size (PyInt N) w) = Ok (sha1_hex data)) /\
  (forall w' (filepath' : path) sample_size,
     os.open_rb (fs w') filepath' = Ok data ->
     fst (_sha1_file filepath' buffer_size sample_size w')
     = fst (_sha1_file filepath buffer_size sample_size w)) /\
  sha1_hex (b_lit "hello world") = "2aae6c35c94fcfb415dbe95f408b9ce91ee846ed"%string.
Proof.
  intros Hbs Hopen.
  assert (Hlim : forall N, 0 <= N ->
            fst (_sha1_file filepath buffer_size (PyInt N) w)
            = Ok (sha1_hex (take (Z.to_nat N) data))).
  { intros N HN. rewrite sha1_file_eq, Hopen by exact Hbs. cbn [fst].
    unfold digest_of, hashed_prefix.
    destruct (Z.ltb_spec N 0); [lia | reflexivity]. }
  split; [|split; [|split; [|split]]].
  - now rewrite sha1_file_eq, Hopen by exact Hbs.
  - intros N HN. rewrite Hlim by exact HN. now rewrite take_min_length.
  - intros N HN. rewrite Hlim by lia. rewrite take_ge by lia. reflexivity.
  - intros w' filepath' sample_size Hopen'.
    rewrite !sha1_file_eq, Hopen, Hopen' by exact Hbs. now destruct sample_size.
  - vm_compute. reflexivity.
Qed.

Lemma digest_is_reference_sha1_witness :
  let w := initial_world fs_hello in
  let filepath := ["src"; "a.jpg"]%string in
  let data := b_lit "hello world" in
  fst (_sha1_file filepath 65536 PyNone w) = Ok (sha1_hex data) /\
  (forall N, 0 <= N ->
     fst (_sha1_file filepath 65536 (PyInt N) w)
     = Ok (sha1_hex (take (Z.to_nat (Z.min N (Z.of_nat (length data)))) data))) /\
  (forall N, Z.of_nat (length data) <= N ->
     fst (_sha1_file filepath 65536 (PyInt N) w) = Ok (sha1_hex data)) /\
  (forall w' (filepath' : path) sample_size,
     os.open_rb (fs w') filepath' = Ok data ->
     fst (_sha1_file filepath' 65536 sample_size w')
     = fst (_sha1_file filepath 65536 sample_size w)) /\
  sha1_hex (b_lit "hello world") = "2aae6c35c94fcfb415dbe95f408b9ce91ee846ed"%string.
Proof.
  cbv zeta.
  apply (digest_is_reference_sha1 (initial_world fs_hello) ["src"; "a.jpg"]%string
           (b_lit "hello world") 65536).
  - lia.
  - vm_compute. reflexivity.
Defined.

(** C7, as amended.  Dedup idempotence: after a first sequential run that
    counted every candidate file in [copied] and none in [failed], and that
    left the tree below the source root as it was (as it does whenever neither
    root lies inside the other, [separate_roots_same_below]), a second run
    with the same source root, destination root and sample limit has the same
    candidates, counts every one of them in [ignored] and none in [copied],
    and changes nothing. *)
Theorem second_run_copies_nothing (piexif : piexif_lib) (self : Sanitizer)
    (fs0 : filesystem) :
  let w1 := snd (pipeline piexif self fs0) in
  let n := Z.of_nat (length (scan_source self fs0)) in
  same_below (source self) fs0 (fs w1) ->
  copied (report w1) = n ->
  failed (report w1) = 0 ->
  exists w2,
    pipeline piexif self (fs w1) = (Ok tt, w2) /\
    scan_source self (fs w1) = scan_source self fs0 /\
    copied (report w2) = 0 /\
    ignored (report w2) = n /\
    failed (report w2) = 0 /\
    fs w2 = fs w1.
Proof.
  cbv zeta. intros Hsame Hc Hf.
  destruct (second_run_ignores_all piexif self fs0 Hsame Hc Hf) as (Hfiles & Hfs & Hr).
  exists (snd (pipeline piexif self (fs (snd (pipeline piexif self fs0))))).
  split; [|rewrite Hr; auto].
  rewrite (surjective_pairing (pipeline _ _ _)) at 1.
  rewrite pipeline_eq at 1. now rewrite loop_ok.
Qed.

Lemma second_run_copies_nothing_witness :
  let w1 := snd (pipeline piexif_by_magic sanitizer_hello fs_photo) in
  same_below ["src"]%string fs_photo (fs w1) /\
  copied (report w1) = 1 /\
  failed (report w1) = 0 /\
  exists w2,
    pipeline piexif_by_magic sanitizer_hello (fs w1) = (Ok tt, w2) /\
    scan_source sanitizer_hello (fs w1) = scan_source sanitizer_hello fs_photo /\
    copied (report w2) = 0 /\
    ignored (report w2) = 1 /\
    failed (report w2) = 0 /\
    fs w2 = fs w1.
Proof.
  cbv zeta.
  assert (Hsame : same_below ["src"]%string fs_photo
                    (fs (snd (pipeline piexif_by_magic sanitizer_hello fs_photo)))).
  { apply (separate_roots_same_below piexif_by_magic sanitizer_hello fs_photo);
      intros [k Hk]; discriminate Hk. }
  assert (Hc : copied (report (snd (pipeline piexif_by_magic sanitizer_hello fs_photo))) = 1)
    by (vm_compute; reflexivity).
  assert (Hf : failed (report (snd (pipeline piexif_by_magic sanitizer_hello fs_photo))) = 0)
    by (vm_compute; reflexivity).
  split; [exact Hsame|]. split; [exact Hc|]. split; [exact Hf|].
  exact (second_run_copies_nothing piexif_by_magic sanitizer_hello fs_photo Hsame Hc Hf).
Defined.

(** C7, as stated, fails when the destination root lies inside the source
    root: the first run copies the only candidate and sanitizes the copy, the
    second run finds the sanitized copy among its candidates, with a digest
    that is not in the index, and copies it again. *)
Lemma nested_destination_copies_again :
  let w1 := snd (pipeline piexif_by_magic sanitizer_nested fs_photo) in
  let w2 := snd (pipeline piexif_by_magic sanitizer_nested (fs w1)) in
  scan_source sanitizer_nested fs_photo = [["src"; "a.jpg"]%string] /\
  report w1 = {| ignored := 0; copied := 1; failed := 0 |} /\
  scan_source sanitizer_nested (fs w1)
  = [["src"; "out"; "fb700591f95b.jpg"]; ["src"; "a.jpg"]]%string /\
  report w2 = {| ignored := 1; copied := 1; failed := 0 |} /\
  copied (report w2) <> 0.
Proof. vm_compute. repeat split. intros H. discriminate H. Qed.

Lemma makedirs_adds_dirs (comps : list string) :
  forall (pre : path) (fs0 fs' : filesystem) (p : path) (b : bool) (d : bytes),
  os.makedirs pre comps fs0 = Ok fs' ->
  fs' !! p = Some (File b d) -> fs0 !! p = Some (File b d).
Proof.
  induction comps as [|c cs IH]; intros pre fs0 fs' p b d H Hp; cbn [os.makedirs] in H.
  - now injection H as <-.
  - destruct (os.stat fs0 (pre ++ [c])) as [[b' d'|b']|]; [discriminate H | eauto |].
    destruct (os.stat fs0 pre) as [[b' d'|[]]|]; try discriminate H.
    pose proof (IH _ _ _ _ _ _ H Hp) as Hl.
    destruct (decide (pre ++ [c] = p)) as [<-|Hne].
    + rewrite lookup_insert_eq in Hl. discriminate Hl.
    + now rewrite lookup_insert_ne in Hl by exact Hne.
Qed.

(** Where a successful copy lands: at the path [_copy_image] returns, or,
    when a directory sat there, inside that directory under the name of the
    source file. *)
Lemma copy_image_lands (self : Sanitizer) (im : Image) (w : World) (dst : path)
    (w2 : World) :
  _copy_image self im w = (Ok dst, w2) ->
  exists data,
    os.open_rb (fs w) (img_path im) = Ok data /\
    os.is_dir (fs w2) dst = os.is_dir (fs w) dst /\
    (os.is_dir (fs w) dst = false -> os.open_rb (fs w2) dst = Ok data) /\
    (os.is_dir (fs w) dst = true ->
     os.open_rb (fs w2) (dst ++ [pathlib.name (img_path im)]) = Ok data).
Proof.
  intros Hcp. pose proof (copy_image_cases self im w) as Hc. rewrite Hcp in Hc.
  destruct Hc as (_ & _ & Hdst & rel & fs1 & Hrel & Hmk & Hcopy).
  unfold dst_path_of in Hdst. rewrite Hrel in Hdst.
  set (leaf := (stake 12 (sha1 im) +:+ lower (pathlib.suffix (img_path im)))%string) in *.
  clearbody leaf.
  assert (E : dst = dest self ++ rel ++ [leaf]) by congruence. clear Hdst.
  assert (Hdne : dst <> []).
  { rewrite E, app_assoc. now destruct (dest self ++ rel). }
  assert (H1 : fs1 !! dst = fs w !! dst).
  { destruct (makedirs_frame _ _ _ _ dst Hmk) as [H|[_ H]]; [exact H|].
    apply prefix_length in H. cbn [app] in H. rewrite E, !length_app in H.
    simpl in H. lia. }
  assert (Hd1 : os.is_dir fs1 dst = os.is_dir (fs w) dst).
  { unfold os.is_dir. now rewrite !(stat_lookup _ _ Hdne), H1. }
  apply copy2_ok in Hcopy as (data & Hopen & Hw).
  exists data.
  assert (Hsrc : os.open_rb (fs w) (img_path im) = Ok data).
  { apply open_rb_lookup in Hopen as [Hne Hl].
    apply open_rb_ok. rewrite (stat_lookup _ _ Hne).
    exact (makedirs_adds_dirs _ _ _ _ _ _ _ Hmk Hl). }
  split; [exact Hsrc|].
  apply write_ok in Hw as (Hne & Hfs & _).
  rewrite Hd1 in Hfs, Hne. rewrite <- Hd1.
  assert (Hsnoc : dst ++ [pathlib.name (img_path im)] <> dst).
  { intros Eq. apply (f_equal (@length string)) in Eq. rewrite length_app in Eq.
    simpl in Eq. lia. }
  destruct (os.is_dir (fs w) dst) eqn:Hdir; rewrite Hd1.
  - split; [|split; [discriminate|]].
    + unfold os.is_dir. rewrite (stat_lookup _ _ Hdne), Hfs.
      rewrite lookup_insert_ne by exact Hsnoc.
      unfold os.is_dir in Hd1. rewrite (stat_lookup _ _ Hdne) in Hd1. exact Hd1.
    + intros _. apply open_rb_ok. rewrite (stat_lookup _ _ Hne), Hfs.
      apply lookup_insert_eq.
  - split; [|split; [|discriminate]].
    + unfold os.is_dir. rewrite (stat_lookup _ _ Hdne), Hfs, lookup_insert_eq.
      reflexivity.
    + intros _. apply open_rb_ok. rewrite (stat_lookup _ _ Hne), Hfs.
      apply lookup_insert_eq.
Qed.




(** C9.  Per-file error isolation: [_process_file] never raises; a failure
    while computing the digest, or while copying, is turned into exactly one
    increment of [failed] and changes no other counter (a digest failure also
    leaves the file system as it is); and the loop over the files goes on:
    the files after the failing one are processed, each once, from the world
    the failing one left. *)
Theorem per_file_error_isolation (piexif : piexif_lib) (self : Sanitizer)
    (f : path) (X : gset string) (w : World) :
  exists w',
    _process_file piexif self f X w = (Ok tt, w') /\
    (forall e w1,
       _sha1_file f 65536 (_hash_sample_size self) w = (Raise e, w1) ->
       report w' = bump_failed (report w) /\ fs w' = fs w) /\
    (forall d w1 e w2,
       _sha1_file f 65536 (_hash_sample_size self) w = (Ok d, w1) ->
       stake 12 d ∉ X ->
       _copy_image self (mkImage f d) w1 = (Raise e, w2) ->
       report w' = bump_failed (report w)) /\
    (forall (before after : list path) w0,
       for_each (fun g => _process_file piexif self g X) before w0 = (Ok tt, w) ->
       for_each (fun g => _process_file piexif self g X) (before ++ f :: after) w0
       = for_each (fun g => _process_file piexif self g X) after w' /\
       fst (for_each (fun g => _process_file piexif self g X) after w') = Ok tt).
Proof.
  exists (snd (_process_file piexif self f X w)).
  split; [|split; [|split]].
  - rewrite (surjective_pairing (_process_file _ _ _ _ _)) at 1.
    now rewrite process_file_ok.
  - intros e w1 [Hd _]%sha1_file_inv. rewrite process_file_eq, Hd. auto.
  - intros d w1 e w2 [Hd ->]%sha1_file_inv HX Hcp.
    rewrite process_file_eq, Hd. cbv zeta.
    rewrite bool_decide_eq_false_2 by exact HX. rewrite Hcp.
    pose proof (copy_image_cases self (mkImage f d) (add_log (sha1_log f) w)) as Hc.
    rewrite Hcp in Hc. destruct Hc as (Hr & _).
    cbn [snd fail_world set_report add_log report]. now rewrite Hr.
  - intros before after w0 Hb. split; [|apply loop_ok].
    rewrite for_each_app, Hb. apply loop_cons.
Qed.

(** C10.  With a sample size of 0 the digest function returns the SHA-1 of
    the empty byte sequence for every file, whatever its content, so that all
    files share one short digest; and a size string of the command line that
    parses to zero reaches the sanitizer as the integer 0, not as the unset
    size of full-file hashing. *)
Theorem zero_sample_hashes_nothing (parse_size : string -> option Z)
    (w : World) (filepath : path) (data : bytes) (s : string) :
  os.open_rb (fs w) filepath = Ok data ->
  s <> EmptyString ->
  parse_size s = Some 0 ->
  fst (_sha1_file filepath 65536 (PyInt 0) w)
  = Ok "da39a3ee5e6b4b0d3255bfef95601890afd80709"%string /\
  sha1_hex [] = "da39a3ee5e6b4b0d3255bfef95601890afd80709"%string /\
  resolve_sample_size parse_size (Some s) = Ok (PyInt 0) /\
  resolve_sample_size parse_size None = Ok PyNone /\
  (forall piexif (source dest : path) worker fs0,
     sanitize parse_size piexif source dest worker (Some s) fs0
     = Ok (add_log sanitize_done_log
             (snd (pipeline piexif (mkSanitizer source dest worker (PyInt 0)) fs0)))).
Proof.
  intros Hopen Hs Hp.
  assert (Hres : resolve_sample_size parse_size (Some s) = Ok (PyInt 0)).
  { unfold resolve_sample_size. destruct s; [now destruct Hs|]. now rewrite Hp. }
  split; [|split; [|split; [|split]]].
  - rewrite sha1_file_eq, Hopen by lia. cbn [fst]. reflexivity.
  - vm_compute. reflexivity.
  - exact Hres.
  - reflexivity.
  - intros piexif source dest worker fs0. unfold sanitize. rewrite Hres.
    unfold try_except, pipeline.
    pose proof (run_ok piexif (mkSanitizer source dest worker (PyInt 0))
                  {| fs := fs0; report := Report_init; log := [] |}) as Hok.
    destruct (run piexif _ _) as [[[]|e] w']; [reflexivity | discriminate Hok].
Qed.

Lemma zero_sample_hashes_nothing_witness :
  let w := initial_world fs_hello in
  let filepath := ["src"; "a.jpg"]%string in
  fst (_sha1_file filepath 65536 (PyInt 0) w)
  = Ok "da39a3ee5e6b4b0d3255bfef95601890afd80709"%string /\
  sha1_hex [] = "da39a3ee5e6b4b0d3255bfef95601890afd80709"%string /\
  resolve_sample_size parse_plain_size (Some "0"%string) = Ok (PyInt 0) /\
  resolve_sample_size parse_plain_size None = Ok PyNone /\
  (forall piexif (source dest : path) worker fs0,
     sanitize parse_plain_size piexif source dest worker (Some "0"%string) fs0
     = Ok (add_log sanitize_done_log
             (snd (pipeline piexif (mkSanitizer source dest worker (PyInt 0)) fs0)))).
Proof.
  cbv zeta.
  apply (zero_sample_hashes_nothing parse_plain_size (initial_world fs_hello)
           ["src"; "a.jpg"]%string (b_lit "hello world") "0"%string).
  - vm_compute. reflexivity.
  - discriminate.
  - vm_compute. reflexivity.
Defined.

Lemma per_file_error_isolation_witness :
  let w := initial_world fs_dir_jpg in
  let f := ["src"; "photos.jpg"]%string in
  exists w',
    _process_file piexif_by_magic sanitizer_hello f ∅ w = (Ok tt, w') /\
    report w' = bump_failed (report w) /\ fs w' = fs w.
Proof.
  cbv zeta.
  destruct (per_file_error_isolation piexif_by_magic sanitizer_hello
              ["src"; "photos.jpg"]%string ∅ (initial_world fs_dir_jpg))
    as (w' & Hok & Hdigest & _).
  exists w'. split; [exact Hok|].
  apply (Hdigest IsADirectoryError (initial_world fs_dir_jpg)).
  vm_compute. reflexivity.
Defined.

(** * Further properties of the methods *)

Lemma relative_to_app (base rel : path) : pathlib.relative_to (base ++ rel) base = Some rel.
Proof.
  induction base as [|b base IH]; simpl; [now destruct rel|].
  rewrite String.eqb_refl. exact IH.
Qed.

Lemma relative_to_some (p base rel : path) :
  pathlib.relative_to p base = Some rel -> p = base ++ rel.
Proof.
  revert p. induction base as [|b base IH]; intros p; simpl.
  - destruct p; simpl; congruence.
  - destruct p as [|c p]; simpl; [intros H; discriminate H|].
    destruct (String.eqb_spec b c) as [->|_]; [|intros H; discriminate H].
    intros H. now rewrite (IH _ H).
Qed.

Lemma relative_to_none (p base : path) :
  pathlib.relative_to p base = None -> ~ base `prefix_of` p.
Proof.
  intros H [k ->]. now rewrite relative_to_app in H.
Qed.

Lemma parent_snoc (p : path) (x : string) : pathlib.parent (p ++ [x]) = p.
Proof. apply removelast_last. Qed.

Lemma digest_result_file (sample_size : pyval) (fs0 : filesystem) (f : path) data :
  os.open_rb fs0 f = Ok data ->
  (forall s, sample_size <> PyStr s) ->
  digest_result sample_size fs0 f = Ok (digest_of sample_size data).
Proof.
  intros H Hs. unfold digest_result. rewrite H.
  destruct sample_size; try reflexivity. now destruct (Hs s).
Qed.

(** X1.  With a sample limit [N >= 0] the digest sees only the first [N]
    bytes: two readable files that agree on their first [N] bytes get the
    same digest, so that when the short digest of one is in the index the
    other is counted as ignored, whatever follows its first [N] bytes. *)
Theorem sampled_digest_sees_only_prefix (piexif : piexif_lib) (self : Sanitizer)
    (f1 f2 : path) (X : gset string) (w : World) (N : Z) (data1 data2 : bytes) :
  _hash_sample_size self = PyInt N ->
  0 <= N ->
  os.open_rb (fs w) f1 = Ok data1 ->
  os.open_rb (fs w) f2 = Ok data2 ->
  take (Z.to_nat N) data1 = take (Z.to_nat N) data2 ->
  fst (_sha1_file f1 65536 (_hash_sample_size self) w)
  = fst (_sha1_file f2 65536 (_hash_sample_size self) w) /\
  (stake 12 (sha1_hex (take (Z.to_nat N) data1)) ∈ X ->
   let w' := snd (_process_file piexif self f2 X w) in
   report w' = bump_ignored (report w) /\ fs w' = fs w).
Proof.
  intros HN Hpos H1 H2 Htake. rewrite HN.
  assert (Hd : forall data, digest_of (PyInt N) data = sha1_hex (take (Z.to_nat N) data)).
  { intros data. unfold digest_of, hashed_prefix.
    destruct (Z.ltb_spec N 0); [lia | reflexivity]. }
  split.
  - rewrite !sha1_file_eq, H1, H2 by lia. cbn [fst]. now rewrite !Hd, Htake.
  - intros HX. cbv zeta. rewrite process_file_eq, HN.
    rewrite (digest_result_file (PyInt N) _ _ _ H2) by discriminate.
    cbv zeta. rewrite Hd, <- Htake.
    rewrite bool_decide_eq_true_2 by exact HX. split; reflexivity.
Qed.

Lemma sampled_digest_sees_only_prefix_witness :
  let w := initial_world fs_same_start in
  let f1 := ["src"; "a.jpg"]%string in
  let f2 := ["src"; "b.jpg"]%string in
  let X : gset string := {[ "aaf4c61ddcc5"%string ]} in
  fst (_sha1_file f1 65536 (PyInt 5) w) = fst (_sha1_file f2 65536 (PyInt 5) w) /\
  (stake 12 (sha1_hex (take 5 (b_lit "hello world"))) ∈ X ->
   let w' := snd (_process_file piexif_by_magic sanitizer_sample5 f2 X w) in
   report w' = bump_ignored (report w) /\ fs w' = fs w).
Proof.
  cbv zeta.
  apply (sampled_digest_sees_only_prefix piexif_by_magic sanitizer_sample5
           ["src"; "a.jpg"]%string ["src"; "b.jpg"]%string
           {[ "aaf4c61ddcc5"%string ]} (initial_world fs_same_start) 5
           (b_lit "hello world") (b_lit "hello there")).
  - reflexivity.
  - lia.
  - vm_compute. reflexivity.
  - vm_compute. reflexivity.
  - vm_compute. reflexivity.
Defined.

(** * Directories *)

Lemma is_dir_lookup (fs0 : filesystem) (p : path) :
  os.is_dir fs0 p = true <-> p = [] \/ exists b, fs0 !! p = Some (Dir b).
Proof.
  unfold os.is_dir, os.stat. destruct p as [|c p].
  - split; auto.
  - destruct (fs0 !! (c :: p)) as [[b d|b]|]; split; try discriminate; eauto.
    + intros [H|[b' H]]; discriminate.
    + intros [H|[b' H]]; discriminate.
Qed.

Lemma is_dir_persists (fs1 fs2 : filesystem) (p : path) :
  persists fs1 fs2 -> os.is_dir fs1 p = true -> os.is_dir fs2 p = true.
Proof.
  intros Hp. rewrite !is_dir_lookup. intros [->|[b Hb]]; [now left|].
  right. destruct (Hp _ _ Hb) as (n & Hn & Hk). destruct n; [discriminate|]. eauto.
Qed.

Lemma is_file_persists (fs1 fs2 : filesystem) (p : path) :
  persists fs1 fs2 -> os.is_file fs1 p = true -> os.is_file fs2 p = true.
Proof.
  intros Hp. rewrite !is_file_lookup. intros (b & d & Hne & Hl).
  destruct (Hp _ _ Hl) as (n & Hn & Hk). destruct n; [|discriminate]. eauto.
Qed.

(** After [makedirs] every directory on the way exists. *)
Lemma makedirs_dirs comps : forall (pre : path) (fs0 fs' : filesystem) (j : nat),
  os.makedirs pre comps fs0 = Ok fs' ->
  os.is_dir fs0 pre = true ->
  os.is_dir fs' (pre ++ take j comps) = true.
Proof.
  induction comps as [|c cs IH]; intros pre fs0 fs' j H Hpre; cbn [os.makedirs] in H.
  - injection H as <-. rewrite take_nil, app_nil_r. exact Hpre.
  - assert (Hper : persists fs0 fs')
      by (eapply only_adds_persists, (makedirs_only_adds (c :: cs)); exact H).
    destruct j as [|j].
    { rewrite take_0, app_nil_r. eapply is_dir_persists; eauto. }
    assert (Hne : pre ++ [c] <> []) by (now destruct pre).
    rewrite (stat_lookup _ _ Hne) in H.
    change (take (S j) (c :: cs)) with (c :: take j cs).
    replace (pre ++ c :: take j cs) with ((pre ++ [c]) ++ take j cs)
      by (now rewrite <- app_assoc).
    destruct (fs0 !! (pre ++ [c])) as [[b d|b]|] eqn:Hp; [discriminate| |].
    + eapply IH; [exact H|]. apply is_dir_lookup. eauto.
    + destruct (os.stat fs0 pre) as [[b d|[]]|]; try discriminate.
      eapply IH; [exact H|]. apply is_dir_lookup. right. exists true.
      apply lookup_insert_eq.
Qed.

(** A regular file on the way makes [makedirs] fail. *)
Lemma makedirs_blocked comps : forall (pre : path) (fs0 : filesystem) (j : nat),
  (0 < j <= length comps)%nat ->
  os.is_file fs0 (pre ++ take j comps) = true ->
  exists e, os.makedirs pre comps fs0 = Raise e /\
            (e = FileExistsError \/ e = NotADirectoryError \/ e = PermissionError).
Proof.
  induction comps as [|c cs IH]; intros pre fs0 j Hj Hfile; [simpl in Hj; lia|].
  cbn [os.makedirs].
  assert (Hne : pre ++ [c] <> []) by (now destruct pre).
  rewrite (stat_lookup _ _ Hne).
  destruct j as [|j]; [lia|].
  change (take (S j) (c :: cs)) with (c :: take j cs) in Hfile.
  replace (pre ++ c :: take j cs) with ((pre ++ [c]) ++ take j cs) in Hfile
    by (now rewrite <- app_assoc).
  destruct (fs0 !! (pre ++ [c])) as [[b d|b]|] eqn:Hp.
  - eexists. split; [reflexivity|]. destruct cs; auto.
  - destruct j as [|j].
    + rewrite take_0, app_nil_r in Hfile.
      apply is_file_lookup in Hfile as (b' & d & _ & Hl). congruence.
    + apply (IH _ _ (S j)); [simpl in Hj; lia | exact Hfile].
  - destruct j as [|j].
    { rewrite take_0, app_nil_r in Hfile.
      apply is_file_lookup in Hfile as (b' & d & _ & Hl). congruence. }
    destruct (os.stat fs0 pre) as [[b d|[]]|]; eauto.
    apply (IH _ _ (S j)); [simpl in Hj; lia|].
    apply is_file_lookup in Hfile as (b' & d & Hne' & Hl).
    apply is_file_lookup. exists b', d. split; [exact Hne'|].
    rewrite lookup_insert_ne; [exact Hl|].
    intros E. apply (f_equal (@length string)) in E.
    rewrite !length_app in E. simpl in E.
    assert (length (take (S j) cs) = S j) by (rewrite length_take; simpl in Hj; lia).
    lia.
Qed.

(** X2.  A successful [_copy_image] of a file with a SHA-1 digest mirrors
    the source tree: the directory of the destination path, relative to the
    destination root, is the directory of the image relative to the source
    root, and after the copy every directory on the way to it exists. *)
Theorem copy_mirrors_source_tree (self : Sanitizer) (f : path) (b : bytes) (w : World)
    (dst : path) (w2 : World) :
  _copy_image self (mkImage f (sha1_hex b)) w = (Ok dst, w2) ->
  short_sha (mkImage f (sha1_hex b)) <> EmptyString /\
  exists rel,
    pathlib.parent f = source self ++ rel /\
    pathlib.parent dst = dest self ++ rel /\
    pathlib.relative_to (pathlib.parent dst) (dest self)
    = pathlib.relative_to (pathlib.parent f) (source self) /\
    forall j, os.is_dir (fs w2) (take j (dest self ++ rel)) = true.
Proof.
  intros Hcp. split.
  { intros H. apply (f_equal String.length) in H. unfold short_sha in H.
    cbn [sha1] in H. rewrite length_stake, length_sha1_hex in H. discriminate H. }
  pose proof (copy_image_cases self (mkImage f (sha1_hex b)) w) as Hc. rewrite Hcp in Hc.
  destruct Hc as (_ & _ & Hdst & rel & fs1 & Hrel & Hmk & Hcopy).
  cbn [img_path sha1] in Hdst, Hrel, Hmk, Hcopy.
  exists rel. unfold dst_path_of in Hdst. rewrite Hrel in Hdst.
  set (leaf := (stake 12 (sha1_hex b) +:+ lower (pathlib.suffix f))%string) in *.
  clearbody leaf.
  assert (E : dst = dest self ++ rel ++ [leaf]) by congruence. clear Hdst. subst dst.
  assert (Hparent : pathlib.parent (dest self ++ rel ++ [leaf]) = dest self ++ rel)
    by (rewrite app_assoc; apply parent_snoc).
  split; [now apply relative_to_some|]. split; [exact Hparent|].
  split.
  { transitivity (pathlib.relative_to (dest self ++ rel) (dest self));
      [f_equal; exact Hparent | now rewrite relative_to_app, Hrel]. }
  intros j. eapply is_dir_persists; [eapply copy2_persists; exact Hcopy|].
  apply (makedirs_dirs _ [] _ _ j Hmk). reflexivity.
Qed.

Lemma copy_mirrors_source_tree_witness :
  let f := ["src"; "a"; "one.jpg"]%string in
  let w := initial_world fs_twins in
  let dst := ["dst"; "a"; "fb700591f95b.jpg"]%string in
  short_sha (mkImage f (sha1_hex jpeg_bytes)) <> EmptyString /\
  exists rel,
    pathlib.parent f = ["src"]%string ++ rel /\
    pathlib.parent dst = ["dst"]%string ++ rel /\
    pathlib.relative_to (pathlib.parent dst) ["dst"]%string
    = pathlib.relative_to (pathlib.parent f) ["src"]%string /\
    forall j, os.is_dir
                (fs (snd (_copy_image sanitizer_hello (mkImage f (sha1_hex jpeg_bytes)) w)))
                (take j (["dst"]%string ++ rel)) = true.
Proof.
  cbv zeta.
  apply (copy_mirrors_source_tree sanitizer_hello ["src"; "a"; "one.jpg"]%string
           jpeg_bytes (initial_world fs_twins) ["dst"; "a"; "fb700591f95b.jpg"]%string).
  vm_compute. reflexivity.
Defined.

(** X3.  Every candidate of [run] lies below the source root, so its
    directory has a path relative to the source root and [relative_to] never
    raises for it: the candidate is the source root, that relative directory
    and its name. *)
Theorem candidates_have_relative_directory (self : Sanitizer) (fs0 : filesystem)
    (f : path) :
  f ∈ scan_source self fs0 ->
  exists rel,
    pathlib.relative_to (pathlib.parent f) (source self) = Some rel /\
    f = source self ++ rel ++ [pathlib.name f].
Proof.
  intros Hf. apply elem_of_scan_source in Hf as ([[k ->] Hne] & _ & _).
  assert (Hk : k <> []) by (intros ->; apply Hne; now rewrite app_nil_r).
  destruct (exists_last Hk) as (k' & x & ->).
  exists k'. unfold pathlib.parent, pathlib.name.
  rewrite !app_assoc, removelast_last, last_last. split; [apply relative_to_app|].
  reflexivity.
Qed.

Lemma candidates_have_relative_directory_witness :
  exists rel,
    pathlib.relative_to (pathlib.parent ["src"; "a"; "one.jpg"]%string) ["src"]%string
    = Some rel /\
    ["src"; "a"; "one.jpg"]%string
    = ["src"]%string ++ rel ++ [pathlib.name ["src"; "a"; "one.jpg"]%string].
Proof.
  apply (candidates_have_relative_directory sanitizer_hello fs_twins
           ["src"; "a"; "one.jpg"]%string).
  vm_compute. right. left.
Defined.

(** X4.  A file whose directory is not at or below the source root cannot
    be copied: [_copy_image] raises [ValueError] before anything is created,
    and [_process_file] leaves the file system as it is and does not count
    the file as copied. *)
Theorem file_outside_source_is_not_copied (piexif : piexif_lib) (self : Sanitizer)
    (f : path) (X : gset string) (w : World) :
  ~ source self `prefix_of` pathlib.parent f ->
  (forall d, _copy_image self (mkImage f d) w = (Raise ValueError, w)) /\
  let w' := snd (_process_file piexif self f X w) in
  fs w' = fs w /\ copied (report w') = copied (report w).
Proof.
  intros Hout.
  assert (Hrel : pathlib.relative_to (pathlib.parent f) (source self) = None).
  { destruct (pathlib.relative_to _ _) as [rel|] eqn:H; [|reflexivity].
    destruct Hout. apply relative_to_some in H. rewrite H. now apply prefix_app_r. }
  assert (Hcp : forall d w0, _copy_image self (mkImage f d) w0 = (Raise ValueError, w0)).
  { intros d w0. unfold _copy_image, mbind, M_bind, lift_option.
    cbn [img_path]. now rewrite Hrel. }
  split; [intros d; apply Hcp|].
  cbv zeta. rewrite process_file_eq.
  destruct (digest_result _ _ _) as [d|e]; [|split; reflexivity].
  cbv zeta. case_bool_decide; [split; reflexivity|].
  rewrite Hcp. split; reflexivity.
Qed.

Lemma file_outside_source_is_not_copied_witness :
  let f := ["elsewhere"; "a.jpg"]%string in
  let w := initial_world fs_hello in
  (forall d, _copy_image sanitizer_hello (mkImage f d) w = (Raise ValueError, w)) /\
  let w' := snd (_process_file piexif_by_magic sanitizer_hello f ∅ w) in
  fs w' = fs w /\ copied (report w') = copied (report w).
Proof.
  cbv zeta.
  apply (file_outside_source_is_not_copied piexif_by_magic sanitizer_hello
           ["elsewhere"; "a.jpg"]%string ∅ (initial_world fs_hello)).
  intros [k Hk]. discriminate Hk.
Defined.

(** X5.  A regular file where a destination directory is needed makes the
    copy fail: [_copy_image] raises ([FileExistsError], [NotADirectoryError]
    or [PermissionError]) and creates nothing, and [_process_file] leaves the
    file system as it is and does not count the file as copied. *)
Theorem file_in_the_way_fails_copy (piexif : piexif_lib) (self : Sanitizer)
    (f : path) (X : gset string) (w : World) (rel : path) (j : nat) :
  pathlib.relative_to (pathlib.parent f) (source self) = Some rel ->
  (0 < j <= length (dest self ++ rel))%nat ->
  os.is_file (fs w) (take j (dest self ++ rel)) = true ->
  (forall d, exists e,
     _copy_image self (mkImage f d) w = (Raise e, w) /\
     (e = FileExistsError \/ e = NotADirectoryError \/ e = PermissionError)) /\
  let w' := snd (_process_file piexif self f X w) in
  fs w' = fs w /\ copied (report w') = copied (report w).
Proof.
  intros Hrel Hj Hfile.
  assert (Hcp : forall d w0, fs w0 = fs w -> exists e,
            _copy_image self (mkImage f d) w0 = (Raise e, w0) /\
            (e = FileExistsError \/ e = NotADirectoryError \/ e = PermissionError)).
  { intros d w0 Hfs.
    destruct (makedirs_blocked (dest self ++ rel) [] (fs w) j Hj Hfile) as (e & He & Hk).
    exists e. split; [|exact Hk].
    unfold _copy_image, mbind, M_bind, lift_option, fs_update, pathlib.join,
      os.mkdir_parents.
    cbn [img_path]. rewrite Hrel. cbn [mret M_ret]. now rewrite Hfs, He. }
  split; [intros d; now apply Hcp|].
  cbv zeta. rewrite process_file_eq.
  destruct (digest_result _ _ _) as [d|e]; [|split; reflexivity].
  cbv zeta. case_bool_decide; [split; reflexivity|].
  destruct (Hcp d (add_log (sha1_log f) w) eq_refl) as (e & -> & _).
  split; reflexivity.
Qed.

Lemma file_in_the_way_fails_copy_witness :
  let f := ["src"; "sub"; "a.jpg"]%string in
  let w := initial_world fs_file_in_the_way in
  (forall d, exists e,
     _copy_image sanitizer_hello (mkImage f d) w = (Raise e, w) /\
     (e = FileExistsError \/ e = NotADirectoryError \/ e = PermissionError)) /\
  let w' := snd (_process_file piexif_by_magic sanitizer_hello f ∅ w) in
  fs w' = fs w /\ copied (report w') = copied (report w).
Proof.
  cbv zeta.
  apply (file_in_the_way_fails_copy piexif_by_magic sanitizer_hello
           ["src"; "sub"; "a.jpg"]%string ∅ (initial_world fs_file_in_the_way)
           ["sub"]%string 2%nat).
  - reflexivity.
  - simpl. lia.
  - vm_compute. reflexivity.
Defined.

Lemma copy2_target_differs (src dst : path) (fs0 fs' : filesystem) :
  shutil.copy2 src dst fs0 = Ok fs' ->
  src <> (if os.is_dir fs0 dst then dst ++ [pathlib.name src] else dst).
Proof. unfold shutil.copy2. case_bool_decide; [discriminate | auto]. Qed.

(** X6.  Processing a file never changes that file: whatever the outcome,
    and wherever the destination root lies, the entry of the source file is
    after [_process_file] what it was before. *)
Theorem source_file_never_modified (piexif : piexif_lib) (self : Sanitizer)
    (f : path) (X : gset string) (w : World) :
  fs (snd (_process_file piexif self f X w)) !! f = fs w !! f.
Proof.
  rewrite process_file_eq.
  destruct (digest_result _ _ _) as [d|e] eqn:Hd; [|reflexivity].
  cbv zeta. case_bool_decide; [reflexivity|].
  apply digest_result_ok in Hd as (data & Hopen & _).
  apply open_rb_lookup in Hopen as [Hfne Hf].
  pose proof (copy_image_cases self (mkImage f d) (add_log (sha1_log f) w)) as Hc.
  destruct (_copy_image self _ _) as [[dst|e] w2].
  - destruct Hc as (_ & _ & _ & rel & fs1 & _ & Hmk & Hcopy).
    cbn [img_path fs add_log] in Hmk, Hcopy.
    assert (H1 : fs1 !! f = fs w !! f).
    { apply makedirs_only_adds in Hmk.
      destruct (Hmk f) as [H0|H0]; [rewrite Hf in H0; discriminate | exact H0]. }
    pose proof (copy2_target_differs _ _ _ _ Hcopy) as Hne.
    apply copy2_ok in Hcopy as (data' & _ & Hw).
    apply write_ok in Hw as (_ & Hfs2 & _).
    assert (H2 : fs w2 !! f = fs w !! f).
    { rewrite Hfs2, lookup_insert_ne by congruence. exact H1. }
    rewrite clean_exif_eq.
    destruct (sanitize_outcome piexif (fs w2) dst) as [nd|] eqn:Hs; [|exact H2].
    cbn [snd copy_world set_report add_log set_fs fs].
    rewrite lookup_insert_ne; [exact H2|].
    intros ->. destruct (os.is_dir fs1 f) eqn:Hdir; [|now apply Hne].
    unfold os.is_dir in Hdir. rewrite (stat_lookup _ _ Hfne), H1, Hf in Hdir.
    discriminate.
  - destruct Hc as (_ & _ & Ha). cbn [fs add_log] in Ha.
    destruct (Ha f) as [H0|H0]; [rewrite Hf in H0; discriminate | exact H0].
Qed.

(** X7.  A run writes only in the zone of the destination root: an entry
    that is neither at or below the destination root nor one of its ancestors
    is after the run what it was before (absent if it was absent). *)
Theorem run_changes_only_destination_zone (piexif : piexif_lib) (self : Sanitizer)
    (fs0 : filesystem) (p : path) :
  ~ dest_zone (dest self) p ->
  fs (snd (pipeline piexif self fs0)) !! p = fs0 !! p.
Proof.
  intros Hp. rewrite pipeline_eq.
  destruct (loop_frame piexif self (scan_dest self fs0) (scan_source self fs0)
              {| fs := fs0; report := Report_init; log := run_prologue_log |} p)
    as [H|H]; [exact H | contradiction].
Qed.

Lemma run_changes_only_destination_zone_witness :
  fs (snd (pipeline piexif_by_magic sanitizer_hello fs_twins))
    !! ["src"; "a"; "one.jpg"]%string
  = fs_twins !! ["src"; "a"; "one.jpg"]%string.
Proof.
  apply (run_changes_only_destination_zone piexif_by_magic sanitizer_hello fs_twins
           ["src"; "a"; "one.jpg"]%string).
  intros [[k Hk]|[k Hk]]; discriminate Hk.
Defined.

(** X8.  A run removes nothing and never turns a file into a directory or
    a directory into a file: every entry of the file system before the run,
    in the destination as elsewhere, is an entry of the same kind after it. *)
Theorem run_removes_nothing (piexif : piexif_lib) (self : Sanitizer)
    (fs0 : filesystem) (p : path) (n : node) :
  fs0 !! p = Some n ->
  exists n', fs (snd (pipeline piexif self fs0)) !! p = Some n' /\
             kind_of n' = kind_of n.
Proof.
  intros Hp. rewrite pipeline_eq.
  exact (loop_persists piexif self (scan_dest self fs0) (scan_source self fs0)
           {| fs := fs0; report := Report_init; log := run_prologue_log |} p n Hp).
Qed.

Lemma run_removes_nothing_witness :
  exists n', fs (snd (pipeline piexif_by_magic sanitizer_nested fs_photo))
               !! ["src"; "a.jpg"]%string = Some n' /\
             kind_of n' = kind_of (File true jpeg_bytes).
Proof.
  apply (run_removes_nothing piexif_by_magic sanitizer_nested fs_photo
           ["src"; "a.jpg"]%string (File true jpeg_bytes)).
  vm_compute. reflexivity.
Defined.

Lemma counted_pairs (w w' : World) :
  counted w w' ->
  copied (report w') + ignored (report w') <= copied (report w) + ignored (report w) + 1 /\
  ignored (report w') + failed (report w') <= ignored (report w) + failed (report w) + 1.
Proof. intros [Hr _|Hr _|Hr _|Hr _]; rewrite Hr; simpl; lia. Qed.

Lemma loop_pairs (piexif : piexif_lib) (self : Sanitizer) (X : gset string)
    (l : list path) : forall w : World,
  let w' := snd (for_each (fun g => _process_file piexif self g X) l w) in
  copied (report w') + ignored (report w')
  <= copied (report w) + ignored (report w) + Z.of_nat (length l) /\
  ignored (report w') + failed (report w')
  <= ignored (report w) + failed (report w) + Z.of_nat (length l).
Proof.
  induction l as [|f l IH]; intros w; cbv zeta.
  - simpl. lia.
  - rewrite loop_cons.
    specialize (IH (snd (_process_file piexif self f X w))). cbv zeta in IH.
    pose proof (counted_pairs _ _ (process_file_counted piexif self f X w)) as H.
    simpl length. lia.
Qed.

Lemma clean_errors_nonneg (l : list log_record) : 0 <= clean_errors l.
Proof. unfold clean_errors. lia. Qed.

(** X9.  The counters of a run over [n] candidates: none is negative, no
    candidate goes uncounted ([n <= copied + ignored + failed]), and a file is
    never both copied and ignored, nor both ignored and failed
    ([copied + ignored <= n], [ignored + failed <= n]); so each counter is at
    most [n] and the three together at most [2 n]. *)
Theorem counters_bounded_by_candidates (piexif : piexif_lib) (self : Sanitizer)
    (fs0 : filesystem) :
  let r := report (snd (pipeline piexif self fs0)) in
  let n := Z.of_nat (length (scan_source self fs0)) in
  0 <= copied r /\ 0 <= ignored r /\ 0 <= failed r /\
  n <= copied r + ignored r + failed r /\
  copied r + ignored r <= n /\
  ignored r + failed r <= n.
Proof.
  cbv zeta. rewrite pipeline_eq.
  set (w0 := {| fs := fs0; report := Report_init; log := run_prologue_log |}).
  pose proof (loop_bounds piexif self (scan_dest self fs0) (scan_source self fs0) w0) as Hb.
  pose proof (loop_pairs piexif self (scan_dest self fs0) (scan_source self fs0) w0) as Hp.
  pose proof (loop_total piexif self (scan_dest self fs0) (scan_source self fs0) w0) as Ht.
  cbv zeta in Hb, Hp, Ht.
  pose proof (clean_errors_nonneg
                (log (snd (for_each (fun g => _process_file piexif self g (scan_dest self fs0))
                             (scan_source self fs0) w0)))) as Hc.
  change (clean_errors (log w0)) with 0 in Ht.
  change (report w0) with Report_init in *.
  unfold total in Ht. cbn [Report_init copied ignored failed] in *. lia.
Qed.

Lemma count_log_snoc (q : log_record -> bool) (l : list log_record) (rec : log_record) :
  count_log q (l ++ [rec]) = count_log q l + (if q rec then 1 else 0).
Proof.
  unfold count_log. rewrite List.filter_app, length_app. simpl.
  destruct (q rec); simpl; lia.
Qed.

Lemma process_file_log_gap (piexif : piexif_lib) (self : Sanitizer) (f : path)
    (X : gset string) (w : World) :
  log_gap (snd (_process_file piexif self f X w)) = log_gap w.
Proof.
  rewrite process_file_eq. unfold log_gap.
  destruct (digest_result _ _ _) as [d|e].
  2:{ cbn [snd fail_world set_report add_log log report bump_failed failed copied ignored].
      rewrite !count_log_snoc. simpl; f_equal; [f_equal|]; lia. }
  cbv zeta. case_bool_decide.
  { cbn [snd ignore_world set_report add_log log report bump_ignored failed copied ignored].
    rewrite !count_log_snoc. simpl; f_equal; [f_equal|]; lia. }
  pose proof (copy_image_cases self (mkImage f d) (add_log (sha1_log f) w)) as Hc.
  destruct (_copy_image self _ _) as [[dst|e] w2].
  - destruct Hc as (Hr & Hl & _). rewrite clean_exif_eq.
    cbn [add_log report log] in Hr, Hl.
    destruct (sanitize_outcome piexif (fs w2) dst).
    + cbn [snd copy_world set_report add_log log report set_fs bump_copied
             failed copied ignored].
      rewrite Hr, Hl, !count_log_snoc. simpl; f_equal; [f_equal|]; lia.
    + cbn [snd copy_world fail_world set_report add_log log report bump_copied
             bump_failed failed copied ignored].
      rewrite Hr, Hl, !count_log_snoc. simpl; f_equal; [f_equal|]; lia.
  - destruct Hc as (Hr & Hl & _). cbn [add_log report log] in Hr, Hl.
    cbn [snd fail_world set_report add_log log report bump_failed failed copied ignored].
    rewrite Hr, Hl, !count_log_snoc. simpl; f_equal; [f_equal|]; lia.
Qed.

Lemma loop_log_gap (piexif : piexif_lib) (self : Sanitizer) (X : gset string)
    (l : list path) : forall w : World,
  log_gap (snd (for_each (fun g => _process_file piexif self g X) l w)) = log_gap w.
Proof.
  induction l as [|f l IH]; intros w; [reflexivity|].
  rewrite loop_cons, IH. apply process_file_log_gap.
Qed.

Lemma count_log_emitted (q : log_record -> bool) (debug : bool) (l : list log_record) :
  (forall rec, q rec = true ->
     (level_rank (logger_level debug) <=? level_rank (lvl rec)) = true) ->
  count_log q (emitted debug l) = count_log q l.
Proof.
  intros Hq. unfold count_log, emitted. f_equal. f_equal.
  induction l as [|rec l IH]; [reflexivity|]. cbn [List.filter].
  destruct (q rec) eqn:Hrec.
  - rewrite (Hq rec Hrec). cbn [List.filter]. rewrite Hrec. now f_equal.
  - destruct (level_rank (logger_level debug) <=? level_rank (lvl rec));
      [cbn [List.filter]; rewrite Hrec|]; exact IH.
Qed.

Lemma count_log_hidden (q : log_record -> bool) (debug : bool) (l : list log_record) :
  (forall rec, q rec = true ->
     (level_rank (logger_level debug) <=? level_rank (lvl rec)) = false) ->
  count_log q (emitted debug l) = 0.
Proof.
  intros Hq. unfold count_log, emitted.
  induction l as [|rec l IH]; [reflexivity|]. cbn [List.filter].
  destruct (level_rank (logger_level debug) <=? level_rank (lvl rec)) eqn:Hlvl;
    [|exact IH].
  cbn [List.filter]. destruct (q rec) eqn:Hrec; [|exact IH].
  rewrite (Hq rec Hrec) in Hlvl. discriminate Hlvl.
Qed.

(** X10.  The report of a run agrees with the records the logger emits
    (those at or above its level, [INFO] unless [--debug] is given): [failed]
    is the number of emitted ERROR records and [copied] the number of emitted
    "Processed" records, with or without [--debug].  The "Ignored" records are
    logged at level DEBUG: with [--debug] their number is [ignored], without
    it none is emitted. *)
Theorem report_agrees_with_log (piexif : piexif_lib) (self : Sanitizer)
    (fs0 : filesystem) (debug : bool) :
  let w := snd (pipeline piexif self fs0) in
  let shown := emitted debug (log w) in
  failed (report w) = count_log is_error_record shown /\
  copied (report w) = count_log is_processed_record shown /\
  count_log is_ignored_record shown = (if debug then ignored (report w) else 0).
Proof.
  cbv zeta.
  assert (He : count_log is_error_record (emitted debug (log (snd (pipeline piexif self fs0))))
               = count_log is_error_record (log (snd (pipeline piexif self fs0)))).
  { apply count_log_emitted. intros [[] fn t a] H; try discriminate H; now destruct debug. }
  assert (Hp : count_log is_processed_record
                 (emitted debug (log (snd (pipeline piexif self fs0))))
               = count_log is_processed_record (log (snd (pipeline piexif self fs0)))).
  { apply count_log_emitted. intros [[] fn t a] H; try discriminate H; now destruct debug. }
  rewrite He, Hp. clear He Hp.
  assert (Hgap : failed (report (snd (pipeline piexif self fs0)))
                 = count_log is_error_record (log (snd (pipeline piexif self fs0))) /\
                 copied (report (snd (pipeline piexif self fs0)))
                 = count_log is_processed_record (log (snd (pipeline piexif self fs0))) /\
                 ignored (report (snd (pipeline piexif self fs0)))
                 = count_log is_ignored_record (log (snd (pipeline piexif self fs0)))).
  { rewrite pipeline_eq.
    pose proof (loop_log_gap piexif self (scan_dest self fs0) (scan_source self fs0)
                  {| fs := fs0; report := Report_init; log := run_prologue_log |}) as H.
    unfold log_gap in H. cbn [report log] in H.
    change (count_log is_error_record run_prologue_log) with 0 in H.
    change (count_log is_processed_record run_prologue_log) with 0 in H.
    change (count_log is_ignored_record run_prologue_log) with 0 in H.
    cbn [Report_init failed copied ignored] in H.
    injection H as H1 H2 H3. lia. }
  destruct Hgap as (Hf & Hc & Hi).
  split; [exact Hf|]. split; [exact Hc|].
  destruct debug.
  - rewrite Hi. apply count_log_emitted. intros [[] fn t a] H; try discriminate H.
    reflexivity.
  - apply count_log_hidden. intros [[] fn t a] H; try discriminate H. reflexivity.
Qed.

(** X11.  The destination index only grows over a run: every short digest
    the scan of the destination finds before the run, it finds after it, so a
    file ignored in one run is ignored in the next. *)
Theorem index_only_grows (piexif : piexif_lib) (self : Sanitizer) (fs0 : filesystem) :
  scan_dest self fs0 ⊆ scan_dest self (fs (snd (pipeline piexif self fs0))).
Proof.
  intros h Hh. apply elem_of_scan_dest in Hh as (p & Hb & Hf & He).
  apply elem_of_scan_dest. exists p. split; [exact Hb|]. split; [|exact He].
  eapply is_file_persists; [|exact Hf].
  rewrite pipeline_eq.
  apply (loop_persists piexif self (scan_dest self fs0) (scan_source self fs0)
           {| fs := fs0; report := Report_init; log := run_prologue_log |}).
Qed.

(** X12.  The name a copy is given is read back by the scan of the
    destination: when [_process_file] counts a candidate as copied and not as
    failed, the short digest of the file is in the index built from the
    resulting file system, although the sanitized copy no longer has the
    content that was hashed. *)
Theorem copied_file_is_indexed (piexif : piexif_lib) (self : Sanitizer) (f : path)
    (X : gset string) (w : World) :
  is_jpeg_suffix f = true ->
  let w' := snd (_process_file piexif self f X w) in
  copied (report w') = copied (report w) + 1 ->
  failed (report w') = failed (report w) ->
  exists data,
    os.open_rb (fs w) f = Ok data /\
    stake 12 (sha1_hex (hashed_prefix (_hash_sample_size self) data))
    ∈ scan_dest self (fs w').
Proof.
  intros Hj w' Hc Hf.
  destruct (clean_copy_step piexif self f X w Hc Hf) as (d & dst & Hd & _ & Hdst & Hfile & _).
  fold w' in Hfile.
  apply digest_result_ok in Hd as (data & Hopen & ->).
  exists data. split; [exact Hopen|].
  apply elem_of_scan_dest. exists dst.
  destruct (dst_path_below _ _ _ _ Hdst) as (Hb & _).
  split; [exact Hb|]. split; [exact Hfile|].
  exact (dst_path_fingerprint self f _ data dst Hj Hdst).
Qed.

Lemma copied_file_is_indexed_witness :
  let f := ["src"; "a.jpg"]%string in
  let w := initial_world fs_photo in
  let w' := snd (_process_file piexif_by_magic sanitizer_hello f ∅ w) in
  exists data,
    os.open_rb (fs w) f = Ok data /\
    stake 12 (sha1_hex (hashed_prefix (_hash_sample_size sanitizer_hello) data))
    ∈ scan_dest sanitizer_hello (fs w').
Proof.
  cbv zeta.
  apply (copied_file_is_indexed piexif_by_magic sanitizer_hello
           ["src"; "a.jpg"]%string ∅ (initial_world fs_photo)).
  - reflexivity.
  - vm_compute. reflexivity.
  - vm_compute. reflexivity.
Defined.

(** X13.  No file is dispatched twice in a run: the list of candidates
    [run] builds has no repetition, and the source root itself is never one
    of them. *)
Theorem candidates_listed_once (self : Sanitizer) (fs0 : filesystem) :
  NoDup (scan_source self fs0) /\ source self ∉ scan_source self fs0.
Proof.
  split.
  - unfold scan_source. apply NoDup_ListNoDup, List.NoDup_filter, NoDup_ListNoDup.
    unfold os.rglob. apply NoDup_fst_map_to_list.
  - intros H. apply elem_of_scan_source in H as ([_ Hne] & _). now apply Hne.
Qed.

(** X14.  What [_clean_exif] writes back is built from a dictionary that
    holds nothing but the orientation tag and the colour profile of the
    loaded one, each kept only when it is truthy: no other tag of the first
    block, no Exif, GPS, second-block or interoperability tag and no
    thumbnail.  The file becomes [insert (dump kept) content]; if the dump or
    the insertion is refused the file is left as it is and counted failed. *)
Theorem clean_exif_keeps_orientation_and_icc_only (piexif : piexif_lib) (p : path)
    (w : World) (data : bytes) (exif : exif_dict) :
  os.open_rb (fs w) p = Ok data ->
  piexif_load piexif data = Some exif ->
  exists kept : exif_dict,
    tags_within [Orientation] (ifd_0th kept) /\
    ifd_0th kept ⊆ ifd_0th exif /\
    (ifd_0th kept !! Orientation = None <->
     truthy (ifd_0th exif !! Orientation) = false) /\
    ifd_Exif kept = ∅ /\ ifd_GPS kept = ∅ /\ ifd_1st kept = ∅ /\
    ifd_Interop kept = ∅ /\ thumbnail kept = None /\
    ICC kept = (if truthy (ICC exif) then ICC exif else None) /\
    _clean_exif piexif p w =
    match piexif_dump piexif kept with
    | Some exif_bytes =>
        match piexif_insert piexif exif_bytes data with
        | Some new_data => (Ok tt, set_fs (<[p := File true new_data]> (fs w)) w)
        | None => (Ok tt, fail_world (clean_error_log p) w)
        end
    | None => (Ok tt, fail_world (clean_error_log p) w)
    end.
Proof.
  intros Hopen Hload. exists (minimal_exif exif).
  split; [|split; [|split]].
  - intros t [v Hv]. cbn [minimal_exif ifd_0th] in Hv.
    destruct (ifd_0th exif !! Orientation) as [o|] eqn:Ho;
      [destruct (truthy (Some o))|];
      try (rewrite lookup_empty in Hv; discriminate).
    apply lookup_singleton_Some in Hv as [<- _]. apply list_elem_of_singleton. reflexivity.
  - cbn [minimal_exif ifd_0th].
    destruct (ifd_0th exif !! Orientation) as [o|] eqn:Ho;
      [destruct (truthy (Some o))|]; try apply map_empty_subseteq.
    now apply map_singleton_subseteq_l.
  - cbn [minimal_exif ifd_0th].
    destruct (ifd_0th exif !! Orientation) as [o|] eqn:Ho;
      [destruct (truthy (Some o)) eqn:Ht|].
    + rewrite lookup_singleton_eq. split; discriminate.
    + rewrite lookup_empty. split; reflexivity.
    + rewrite lookup_empty. split; reflexivity.
  - repeat (split; [reflexivity|]).
    rewrite clean_exif_eq. unfold sanitize_outcome. rewrite Hopen, Hload.
    destruct (piexif_dump piexif (minimal_exif exif)) as [eb|]; [|reflexivity].
    reflexivity.
Qed.

Lemma clean_exif_keeps_orientation_and_icc_only_witness :
  let p := ["src"; "a.jpg"]%string in
  let w := initial_world fs_photo in
  exists kept : exif_dict,
    tags_within [Orientation] (ifd_0th kept) /\
    ifd_0th kept ⊆ ifd_0th exif_rich /\
    (ifd_0th kept !! Orientation = None <->
     truthy (ifd_0th exif_rich !! Orientation) = false) /\
    ifd_Exif kept = ∅ /\ ifd_GPS kept = ∅ /\ ifd_1st kept = ∅ /\
    ifd_Interop kept = ∅ /\ thumbnail kept = None /\
    ICC kept = (if truthy (ICC exif_rich) then ICC exif_rich else None) /\
    _clean_exif piexif_rich p w =
    match piexif_dump piexif_rich kept with
    | Some exif_bytes =>
        match piexif_insert piexif_rich exif_bytes jpeg_bytes with
        | Some new_data => (Ok tt, set_fs (<[p := File true new_data]> (fs w)) w)
        | None => (Ok tt, fail_world (clean_error_log p) w)
        end
    | None => (Ok tt, fail_world (clean_error_log p) w)
    end.
Proof.
  cbv zeta.
  apply (clean_exif_keeps_orientation_and_icc_only piexif_rich ["src"; "a.jpg"]%string
           (initial_world fs_photo) jpeg_bytes exif_rich).
  - vm_compute. reflexivity.
  - vm_compute. reflexivity.
Defined.

Lemma sanitize_of_size (parse_size : string -> option Z) (piexif : piexif_lib)
    (source dest : path) (worker : Z) (hss : option string)
    (size : pyval) (fs0 : filesystem) :
  resolve_sample_size parse_size hss = Ok size ->
  sanitize parse_size piexif source dest worker hss fs0
  = Ok (add_log sanitize_done_log
          (snd (pipeline piexif (mkSanitizer source dest worker size) fs0))).
Proof.
  intros Hres. unfold sanitize. rewrite Hres. cbv zeta.
  unfold try_except, pipeline.
  pose proof (run_ok piexif (mkSanitizer source dest worker size)
                {| fs := fs0; report := Report_init; log := [] |}) as Hok.
  destruct (run piexif _ _) as [[[]|e] w']; [reflexivity | discriminate Hok].
Qed.

(** X15.  [sanitize] raises only for a size it cannot resolve: a
    non-empty size string that [parse_size] rejects gives [InvalidSize],
    before the sanitizer is built.  In every other case the command returns
    normally whatever the run did, also when the run itself raised, and the
    completion message is the last record logged. *)
Theorem sanitize_raises_only_on_rejected_size (parse_size : string -> option Z)
    (piexif : piexif_lib) (source dest : path) (worker : Z)
    (hss : option string) (fs0 : filesystem) :
  match sanitize parse_size piexif source dest worker hss fs0 with
  | Raise e =>
      e = InvalidSize /\
      exists s, hss = Some s /\ s <> EmptyString /\ parse_size s = None
  | Ok w =>
      (forall s, hss = Some s -> s <> EmptyString -> parse_size s <> None) /\
      last (log w) = Some sanitize_done_log
  end.
Proof.
  unfold sanitize, resolve_sample_size.
  assert (Hrun : forall size,
    match (let sanitizer := mkSanitizer source dest worker size in
           let w := {| fs := fs0; report := Report_init; log := [] |} in
           let '(_, w') :=
             try_except (run piexif sanitizer)
               (fun e => logger ERROR "sanitize" "An error occurred: %s" None) w in
           let '(_, w'') :=
             logger INFO "sanitize" "Sanitization process completed in %.2f s." None w' in
           Ok w'' : result World) with
    | Raise e => False
    | Ok w => last (log w) = Some sanitize_done_log
    end).
  { intros size. cbv zeta. unfold try_except.
    destruct (run piexif _ _) as [[[]|e] w']; cbn [logger add_log log];
      apply last_snoc. }
  destruct hss as [s|].
  - destruct s as [|c s].
    + specialize (Hrun (PyStr EmptyString)). cbv zeta in Hrun |- *.
      destruct (try_except _ _ _) as [r w']. cbn [logger add_log log] in Hrun |- *.
      split; [intros s [= <-] Hs; now destruct Hs | exact Hrun].
    + destruct (parse_size (String c s)) as [n|] eqn:Hp.
      * specialize (Hrun (PyInt n)). cbv zeta in Hrun |- *.
        destruct (try_except _ _ _) as [r w']. cbn [logger add_log log] in Hrun |- *.
        split; [intros s' [= <-] _; congruence | exact Hrun].
      * split; [reflexivity|]. exists (String c s).
        split; [reflexivity|]. split; [discriminate | exact Hp].
  - specialize (Hrun PyNone). cbv zeta in Hrun |- *.
    destruct (try_except _ _ _) as [r w']. cbn [logger add_log log] in Hrun |- *.
    split; [intros s H; discriminate H | exact Hrun].
Qed.

Lemma loop_unresolved_size (piexif : piexif_lib) (self : Sanitizer) (X : gset string)
    (s : string) (l : list path) : forall w : World,
  _hash_sample_size self = PyStr s ->
  let w' := snd (for_each (fun g => _process_file piexif self g X) l w) in
  fs w' = fs w /\
  report w' = {| ignored := ignored (report w); copied := copied (report w);
                 failed := failed (report w) + Z.of_nat (length l) |}.
Proof.
  induction l as [|f l IH]; intros w Hs; cbv zeta.
  - split; [reflexivity|]. simpl. rewrite Z.add_0_r. now destruct (report w).
  - rewrite loop_cons.
    destruct (IH (snd (_process_file piexif self f X w)) Hs) as [Hfs Hrep].
    rewrite Hfs, Hrep, process_file_eq.
    assert (Hd : exists e, digest_result (_hash_sample_size self) (fs w) f = Raise e).
    { unfold digest_result. rewrite Hs. destruct (os.open_rb (fs w) f); eauto. }
    destruct Hd as [e ->].
    cbn [snd fail_world set_report add_log fs report bump_failed ignored copied failed].
    split; [reflexivity|]. f_equal. simpl length. lia.
Qed.

(** X16.  An empty [--hash-sample-size] is not parsed and reaches the
    sanitizer as the empty string; [_sha1_file] then fails on every file it
    can open (and on those it cannot), so the run copies and ignores nothing,
    counts every candidate as failed and leaves the file system as it was. *)
Theorem empty_size_fails_every_file (parse_size : string -> option Z)
    (piexif : piexif_lib) (source dest : path) (worker : Z) (fs0 : filesystem) :
  exists w,
    sanitize parse_size piexif source dest worker (Some EmptyString) fs0 = Ok w /\
    fs w = fs0 /\
    report w = {| ignored := 0; copied := 0;
                  failed := Z.of_nat (length (scan_source
                              (mkSanitizer source dest worker (PyStr EmptyString)) fs0)) |}.
Proof.
  eexists. split; [apply sanitize_of_size; reflexivity|].
  cbn [add_log fs report]. rewrite pipeline_eq.
  set (self := mkSanitizer source dest worker (PyStr EmptyString)).
  destruct (loop_unresolved_size piexif self (scan_dest self fs0) EmptyString
              (scan_source self fs0)
              {| fs := fs0; report := Report_init; log := run_prologue_log |} eq_refl)
    as [Hfs Hrep].
  split; [exact Hfs|]. rewrite Hrep. reflexivity.
Qed.

(** * What a run reads *)

Lemma stat_agree (Z : path -> Prop) (fs1 fs2 : filesystem) (p : path) :
  agree_on Z fs1 fs2 -> Z p -> os.stat fs1 p = os.stat fs2 p.
Proof. intros H Hp. destruct p; [reflexivity|]. now apply H. Qed.

Lemma agree_insert (Z : path -> Prop) (fs1 fs2 : filesystem) (p : path) (n : node) :
  agree_on Z fs1 fs2 -> agree_on Z (<[p := n]> fs1) (<[p := n]> fs2).
Proof.
  intros H q Hq. destruct (decide (p = q)) as [->|Hne].
  - now rewrite !lookup_insert_eq.
  - rewrite !lookup_insert_ne by exact Hne. now apply H.
Qed.

Lemma makedirs_agree (Z : path -> Prop) (comps : list string) :
  forall (pre : path) (fs1 fs2 : filesystem),
  agree_on Z fs1 fs2 ->
  (forall j, Z (pre ++ take j comps)) ->
  same_outcome Z (os.makedirs pre comps fs1) (os.makedirs pre comps fs2).
Proof.
  induction comps as [|c cs IH]; intros pre fs1 fs2 Hag HZ; cbn [os.makedirs].
  - exact Hag.
  - assert (Hp : Z (pre ++ [c])) by exact (HZ 1%nat).
    assert (Hpre : Z pre) by (specialize (HZ 0%nat); now rewrite app_nil_r in HZ).
    assert (Hnext : forall j, Z ((pre ++ [c]) ++ take j cs)).
    { intros j. rewrite <- app_assoc. exact (HZ (S j)). }
    rewrite <- (stat_agree Z fs1 fs2 _ Hag Hp), <- (stat_agree Z fs1 fs2 _ Hag Hpre).
    destruct (os.stat fs1 (pre ++ [c])) as [[b d|b]|].
    + reflexivity.
    + now apply IH.
    + destruct (os.stat fs1 pre) as [[b d|[]]|]; try reflexivity.
      apply IH; [now apply agree_insert | exact Hnext].
Qed.

Lemma write_agree (Z : path -> Prop) (fs1 fs2 : filesystem) (p : path) (data : bytes) :
  agree_on Z fs1 fs2 -> Z p -> Z (pathlib.parent p) ->
  same_outcome Z (os.write fs1 p data) (os.write fs2 p data).
Proof.
  intros Hag Hp Hpp. unfold os.write.
  rewrite <- (stat_agree Z fs1 fs2 _ Hag Hp), <- (stat_agree Z fs1 fs2 _ Hag Hpp).
  destruct (os.stat fs1 p) as [[[] d|b]|]; try reflexivity.
  - now apply agree_insert.
  - destruct (os.stat fs1 (pathlib.parent p)) as [[b d|[]]|]; try reflexivity.
    now apply agree_insert.
Qed.

Lemma copy2_agree (Z : path -> Prop) (fs1 fs2 : filesystem) (src dst : path) :
  agree_on Z fs1 fs2 ->
  Z src -> Z dst -> Z (pathlib.parent dst) -> Z (dst ++ [pathlib.name src]) ->
  same_outcome Z (shutil.copy2 src dst fs1) (shutil.copy2 src dst fs2).
Proof.
  intros Hag Hs Hd Hpd Hdn. unfold shutil.copy2, os.is_dir, os.open_rb.
  rewrite <- (stat_agree Z fs1 fs2 _ Hag Hd), <- (stat_agree Z fs1 fs2 _ Hag Hs).
  destruct (os.stat fs1 dst) as [[b d|b]|].
  - case_bool_decide; [reflexivity|].
    destruct (os.stat fs1 src) as [[[] ds|bs]|]; try reflexivity.
    now apply write_agree.
  - case_bool_decide; [reflexivity|].
    destruct (os.stat fs1 src) as [[[] ds|bs]|]; try reflexivity.
    apply write_agree; [exact Hag | exact Hdn |].
    now rewrite parent_snoc.
  - case_bool_decide; [reflexivity|].
    destruct (os.stat fs1 src) as [[[] ds|bs]|]; try reflexivity.
    now apply write_agree.
Qed.

Lemma world_agree_add_log (Z : path -> Prop) (rec : log_record) (w1 w2 : World) :
  world_agree Z w1 w2 -> world_agree Z (add_log rec w1) (add_log rec w2).
Proof. intros (Hr & Hl & Hf). repeat split; cbn; [exact Hr | now rewrite Hl | exact Hf]. Qed.

Lemma world_agree_fail (Z : path -> Prop) (rec : log_record) (w1 w2 : World) :
  world_agree Z w1 w2 -> world_agree Z (fail_world rec w1) (fail_world rec w2).
Proof. intros (Hr & Hl & Hf). repeat split; cbn; [now rewrite Hr | now rewrite Hl | exact Hf]. Qed.

Lemma world_agree_ignore (Z : path -> Prop) (rec : log_record) (w1 w2 : World) :
  world_agree Z w1 w2 -> world_agree Z (ignore_world rec w1) (ignore_world rec w2).
Proof. intros (Hr & Hl & Hf). repeat split; cbn; [now rewrite Hr | now rewrite Hl | exact Hf]. Qed.

Lemma world_agree_copy (Z : path -> Prop) (rec : log_record) (w1 w2 : World) :
  world_agree Z w1 w2 -> world_agree Z (copy_world rec w1) (copy_world rec w2).
Proof. intros (Hr & Hl & Hf). repeat split; cbn; [now rewrite Hr | now rewrite Hl | exact Hf]. Qed.

Lemma world_agree_set_fs (Z : path -> Prop) (fs1 fs2 : filesystem) (w1 w2 : World) :
  world_agree Z w1 w2 -> agree_on Z fs1 fs2 ->
  world_agree Z (set_fs fs1 w1) (set_fs fs2 w2).
Proof. intros (Hr & Hl & Hf) H. repeat split; cbn; assumption. Qed.

Lemma clean_exif_agree (Z : path -> Prop) (piexif : piexif_lib) (dst : path)
    (w1 w2 : World) :
  world_agree Z w1 w2 -> Z dst ->
  world_agree Z (snd (_clean_exif piexif dst w1)) (snd (_clean_exif piexif dst w2)).
Proof.
  intros Hw Hd. rewrite !clean_exif_eq.
  assert (Hs : sanitize_outcome piexif (fs w1) dst = sanitize_outcome piexif (fs w2) dst).
  { unfold sanitize_outcome. destruct Hw as (_ & _ & Hf).
    now rewrite (open_rb_ext (fs w1) (fs w2) dst (Hf dst Hd)). }
  rewrite <- Hs. destruct (sanitize_outcome piexif (fs w1) dst) as [nd|]; cbn [snd].
  - apply world_agree_set_fs; [exact Hw|]. apply agree_insert. now destruct Hw as (_ & _ & Hf).
  - now apply world_agree_fail.
Qed.

Lemma copy_image_agree (self : Sanitizer) (im : Image) (w1 w2 : World) :
  world_agree (run_zone self) w1 w2 ->
  source self `prefix_of` img_path im ->
  match _copy_image self im w1, _copy_image self im w2 with
  | (Ok d1, a), (Ok d2, b) =>
      d1 = d2 /\ dest self `prefix_of` d1 /\ world_agree (run_zone self) a b
  | (Raise e1, a), (Raise e2, b) => e1 = e2 /\ world_agree (run_zone self) a b
  | _, _ => False
  end.
Proof.
  intros Hw Hsrc.
  unfold _copy_image, mbind, M_bind, lift_option, fs_update, pathlib.join, os.mkdir_parents.
  destruct (pathlib.relative_to _ _) as [rel|]; cbn [mret M_ret raise]; [|now split].
  pose proof Hw as (Hr & Hl & Hf).
  assert (Hdz : forall q, dest self `prefix_of` q -> run_zone self q)
    by (intros q Hq; right; now left).
  pose proof (makedirs_agree (run_zone self) (dest self ++ rel) [] (fs w1) (fs w2) Hf) as Hmk.
  cbn [app] in Hmk.
  assert (Hpre : forall j, run_zone self (take j (dest self ++ rel))).
  { intros j. right. eapply zone_of_prefix. apply prefix_take. }
  specialize (Hmk Hpre). unfold same_outcome in Hmk.
  destruct (os.makedirs [] (dest self ++ rel) (fs w1)) as [fa|e1],
           (os.makedirs [] (dest self ++ rel) (fs w2)) as [fb|e2];
    try contradiction; [|now split].
  cbn [fs set_fs].
  set (dst := (dest self ++ rel) ++ [(short_sha im +:+ extension im)%string]).
  assert (Hdd : dest self `prefix_of` dst).
  { unfold dst. rewrite <- app_assoc. now apply prefix_app_r. }
  pose proof (copy2_agree (run_zone self) fa fb (img_path im) dst Hmk) as Hcp.
  assert (H1 : run_zone self (img_path im)) by now left.
  assert (H2 : run_zone self (pathlib.parent dst)).
  { unfold dst. rewrite parent_snoc. apply Hdz. now apply prefix_app_r. }
  assert (H3 : run_zone self (dst ++ [pathlib.name (img_path im)])).
  { apply Hdz. etrans; [exact Hdd|]. now apply prefix_app_r. }
  specialize (Hcp H1 (Hdz _ Hdd) H2 H3). unfold same_outcome in Hcp.
  destruct (shutil.copy2 (img_path im) dst fa) as [fa'|e1],
           (shutil.copy2 (img_path im) dst fb) as [fb'|e2]; try contradiction.
  - split; [reflexivity|]. split; [exact Hdd|].
    repeat split; cbn; assumption.
  - split; [exact Hcp|]. repeat split; cbn; assumption.
Qed.

Lemma process_file_agree (piexif : piexif_lib) (self : Sanitizer) (f : path)
    (X : gset string) (w1 w2 : World) :
  world_agree (run_zone self) w1 w2 ->
  source self `prefix_of` f ->
  world_agree (run_zone self) (snd (_process_file piexif self f X w1))
    (snd (_process_file piexif self f X w2)).
Proof.
  intros Hw Hsrc. rewrite !process_file_eq.
  pose proof Hw as (_ & _ & Hf).
  rewrite <- (digest_result_ext (_hash_sample_size self) (fs w1) (fs w2) f)
    by (apply Hf; now left).
  destruct (digest_result _ (fs w1) f) as [d|e]; [|now apply world_agree_fail].
  cbv zeta. case_bool_decide.
  { now apply world_agree_ignore, world_agree_add_log. }
  pose proof (copy_image_agree self (mkImage f d) (add_log (sha1_log f) w1)
                (add_log (sha1_log f) w2) (world_agree_add_log _ _ _ _ Hw) Hsrc) as Hc.
  destruct (_copy_image self _ (add_log (sha1_log f) w1)) as [[d1|e1] a],
           (_copy_image self _ (add_log (sha1_log f) w2)) as [[d2|e2] b];
    try contradiction.
  - destruct Hc as (<- & Hd & Hab). cbn [snd].
    apply world_agree_copy, clean_exif_agree; [exact Hab|]. right. now left.
  - destruct Hc as (<- & Hab). cbn [snd]. now apply world_agree_fail.
Qed.

Lemma loop_agree (piexif : piexif_lib) (self : Sanitizer) (X : gset string)
    (l : list path) : forall w1 w2 : World,
  world_agree (run_zone self) w1 w2 ->
  (forall f, f ∈ l -> source self `prefix_of` f) ->
  world_agree (run_zone self)
    (snd (for_each (fun g => _process_file piexif self g X) l w1))
    (snd (for_each (fun g => _process_file piexif self g X) l w2)).
Proof.
  induction l as [|f l IH]; intros w1 w2 Hw Hl; [exact Hw|].
  rewrite !loop_cons. apply IH.
  - apply process_file_agree; [exact Hw|]. apply Hl. left.
  - intros g Hg. apply Hl. now right.
Qed.

Lemma rglob_agree (Z : path -> Prop) (root : path) (fs1 fs2 : filesystem) :
  agree_on Z fs1 fs2 -> (forall p, root `prefix_of` p -> Z p) ->
  os.rglob root fs1 = os.rglob root fs2.
Proof.
  intros Hag HZ. unfold os.rglob. f_equal. f_equal.
  apply map_eq. intros p. apply option_eq. intros n.
  rewrite !map_lookup_filter_Some. cbn [fst].
  split; intros [Hl Hb]; (split; [|exact Hb]); rewrite <- Hl.
  - symmetry. apply Hag, HZ, (proj1 Hb).
  - apply Hag, HZ, (proj1 Hb).
Qed.

Lemma scan_dest_agree (self : Sanitizer) (fs1 fs2 : filesystem) :
  agree_on (run_zone self) fs1 fs2 -> scan_dest self fs1 = scan_dest self fs2.
Proof.
  intros Hag. apply set_eq. intros h. rewrite !elem_of_scan_dest.
  assert (Hf : forall p, os.below (dest self) p -> os.is_file fs1 p = os.is_file fs2 p).
  { intros p [Hp _]. unfold os.is_file.
    rewrite (stat_agree _ fs1 fs2 p Hag); [reflexivity|]. right. now left. }
  split; intros (p & Hb & Hfile & He); exists p; (split; [exact Hb|]);
    (split; [|exact He]).
  - rewrite <- (Hf p Hb). exact Hfile.
  - rewrite (Hf p Hb). exact Hfile.
Qed.

(** X17.  A run looks only at its own zone: two file systems that hold
    the same entries at and below the source root and in the zone of the
    destination root (at or below it, and its ancestors) give the same
    candidates, the same index, the same report and the same log, and the
    resulting file systems again agree there, whatever else the two file
    systems hold. *)
Theorem run_reads_only_its_zone (piexif : piexif_lib) (self : Sanitizer)
    (fs1 fs2 : filesystem) :
  agree_on (run_zone self) fs1 fs2 ->
  scan_source self fs1 = scan_source self fs2 /\
  scan_dest self fs1 = scan_dest self fs2 /\
  world_agree (run_zone self) (snd (pipeline piexif self fs1))
    (snd (pipeline piexif self fs2)).
Proof.
  intros Hag.
  assert (Hsrc : scan_source self fs1 = scan_source self fs2).
  { unfold scan_source. f_equal. apply (rglob_agree (run_zone self)); [exact Hag|].
    intros p Hp. now left. }
  pose proof (scan_dest_agree self fs1 fs2 Hag) as Hdst.
  split; [exact Hsrc|]. split; [exact Hdst|].
  rewrite !pipeline_eq, <- Hsrc, <- Hdst. apply loop_agree.
  - split; [reflexivity|]. split; [reflexivity | exact Hag].
  - intros f Hf. now apply elem_of_scan_source in Hf as ([Hp _] & _).
Qed.

Lemma run_reads_only_its_zone_witness :
  scan_source sanitizer_hello fs_hello = scan_source sanitizer_hello fs_hello_and_more /\
  scan_dest sanitizer_hello fs_hello = scan_dest sanitizer_hello fs_hello_and_more /\
  world_agree (run_zone sanitizer_hello)
    (snd (pipeline piexif_by_magic sanitizer_hello fs_hello))
    (snd (pipeline piexif_by_magic sanitizer_hello fs_hello_and_more)).
Proof.
  apply (run_reads_only_its_zone piexif_by_magic sanitizer_hello fs_hello
           fs_hello_and_more).
  intros p Hp. unfold fs_hello_and_more. rewrite lookup_insert_ne; [reflexivity|].
  intros <-. destruct Hp as [[k Hk]|[[k Hk]|[k Hk]]]; discriminate Hk.
Defined.

(** X18.  A sample limit that is not smaller than the file changes
    nothing: [_sha1_file] returns the digest it returns without a limit, the
    SHA-1 of the whole content. *)
Theorem oversized_sample_is_full_digest (filepath : path) (w : World) (data : bytes)
    (N : Z) :
  os.open_rb (fs w) filepath = Ok data ->
  Z.of_nat (length data) <= N ->
  _sha1_file filepath 65536 (PyInt N) w = _sha1_file filepath 65536 PyNone w /\
  fst (_sha1_file filepath 65536 (PyInt N) w) = Ok (sha1_hex data).
Proof.
  intros Hopen HN. rewrite !sha1_file_eq, Hopen by lia.
  assert (Hd : digest_of (PyInt N) data = sha1_hex data).
  { unfold digest_of, hashed_prefix. destruct (Z.ltb_spec N 0); [reflexivity|].
    rewrite take_ge by lia. reflexivity. }
  rewrite Hd. split; reflexivity.
Qed.

Lemma oversized_sample_is_full_digest_witness :
  let filepath := ["src"; "a.jpg"]%string in
  let w := initial_world fs_hello in
  _sha1_file filepath 65536 (PyInt 4096) w = _sha1_file filepath 65536 PyNone w /\
  fst (_sha1_file filepath 65536 (PyInt 4096) w) = Ok (sha1_hex (b_lit "hello world")).
Proof.
  cbv zeta.
  apply (oversized_sample_is_full_digest ["src"; "a.jpg"]%string (initial_world fs_hello)
           (b_lit "hello world") 4096).
  - vm_compute. reflexivity.
  - vm_compute. discriminate.
Defined.

Lemma sapp_inj_12 (h1 h2 e1 e2 : string) :
  String.length h1 = 12%nat -> String.length h2 = 12%nat ->
  (h1 +:+ e1)%string = (h2 +:+ e2)%string -> h1 = h2 /\ e1 = e2.
Proof.
  intros H1 H2 H. split.
  - rewrite <- (stake_app_length h1 e1), <- (stake_app_length h2 e2), H1, H2. now rewrite H.
  - rewrite <- (sdrop_app_length h1 e1), <- (sdrop_app_length h2 e2), H1, H2. now rewrite H.
Qed.

Lemma length_short_sha1_hex (b : bytes) : String.length (stake 12 (sha1_hex b)) = 12%nat.
Proof. rewrite length_stake, length_sha1_hex. reflexivity. Qed.

(** X19.  [_copy_image] returns the same destination path for two files
    exactly when they are in the same directory, have the same short digest
    and have suffixes that are equal once lower-cased: the original names play
    no part.  Each copy lands at the path returned for it when no directory
    sits there, so that of two such files the later copy replaces the earlier
    one; when a directory sits there, each copy lands inside it under its own
    original name. *)
Theorem copies_collide_iff (self : Sanitizer) (f1 f2 : path) (b1 b2 : bytes)
    (w wa : World) (dst1 dst2 : path) (w1 w2 : World) :
  _copy_image self (mkImage f1 (sha1_hex b1)) w = (Ok dst1, w1) ->
  _copy_image self (mkImage f2 (sha1_hex b2)) wa = (Ok dst2, w2) ->
  (dst1 = dst2 <->
   pathlib.parent f1 = pathlib.parent f2 /\
   short_sha (mkImage f1 (sha1_hex b1)) = short_sha (mkImage f2 (sha1_hex b2)) /\
   extension (mkImage f1 (sha1_hex b1)) = extension (mkImage f2 (sha1_hex b2))) /\
  (exists data1,
     os.open_rb (fs w) f1 = Ok data1 /\
     (os.is_dir (fs w) dst1 = false -> os.open_rb (fs w1) dst1 = Ok data1) /\
     (os.is_dir (fs w) dst1 = true ->
      os.open_rb (fs w1) (dst1 ++ [pathlib.name f1]) = Ok data1)) /\
  (exists data2,
     os.open_rb (fs wa) f2 = Ok data2 /\
     (os.is_dir (fs wa) dst2 = false -> os.open_rb (fs w2) dst2 = Ok data2) /\
     (os.is_dir (fs wa) dst2 = true ->
      os.open_rb (fs w2) (dst2 ++ [pathlib.name f2]) = Ok data2)).
Proof.
  intros Hc1 Hc2.
  split; [|split].
  2:{ destruct (copy_image_lands self _ _ _ _ Hc1) as (data & Ho & _ & Hf & Hd).
      exists data. auto. }
  2:{ destruct (copy_image_lands self _ _ _ _ Hc2) as (data & Ho & _ & Hf & Hd).
      exists data. auto. }
  pose proof (copy_image_cases self (mkImage f1 (sha1_hex b1)) w) as H1.
  pose proof (copy_image_cases self (mkImage f2 (sha1_hex b2)) wa) as H2.
  rewrite Hc1 in H1. rewrite Hc2 in H2.
  destruct H1 as (_ & _ & Hd1 & rel1 & fa & Hr1 & _).
  destruct H2 as (_ & _ & Hd2 & rel2 & fb & Hr2 & _).
  cbn [img_path sha1] in *. unfold short_sha, extension. cbn [img_path sha1].
  unfold dst_path_of in Hd1, Hd2. rewrite Hr1 in Hd1. rewrite Hr2 in Hd2.
  set (h1 := stake 12 (sha1_hex b1)) in *. set (h2 := stake 12 (sha1_hex b2)) in *.
  assert (Hl1 : String.length h1 = 12%nat) by apply length_short_sha1_hex.
  assert (Hl2 : String.length h2 = 12%nat) by apply length_short_sha1_hex.
  clearbody h1 h2.
  assert (E1 : dst1 = dest self ++ rel1 ++ [(h1 +:+ lower (pathlib.suffix f1))%string])
    by congruence.
  assert (E2 : dst2 = dest self ++ rel2 ++ [(h2 +:+ lower (pathlib.suffix f2))%string])
    by congruence.
  clear Hd1 Hd2 Hc1 Hc2. subst dst1 dst2.
  apply relative_to_some in Hr1, Hr2. rewrite Hr1, Hr2.
  split.
  - intros H. apply app_inv_head in H. apply app_inj_tail in H as [-> Hleaf].
    split; [reflexivity|]. now apply sapp_inj_12.
  - intros (Hp & Hs & He). apply app_inv_head in Hp. now rewrite Hp, Hs, He.
Qed.

Lemma copies_collide_iff_witness :
  let d := sha1_hex jpeg_bytes in
  let fa := ["src"; "a.jpg"]%string in
  let fb := ["src"; "b.JPG"]%string in
  let dst := ["dst"; "fb700591f95b.jpg"]%string in
  let w := initial_world fs_case_twins in
  let w1 := snd (_copy_image sanitizer_hello (mkImage fa d) w) in
  let w2 := snd (_copy_image sanitizer_hello (mkImage fb d) w1) in
  (dst = dst <->
   pathlib.parent fa = pathlib.parent fb /\
   short_sha (mkImage fa d) = short_sha (mkImage fb d) /\
   extension (mkImage fa d) = extension (mkImage fb d)) /\
  (exists data1,
     os.open_rb (fs w) fa = Ok data1 /\
     (os.is_dir (fs w) dst = false -> os.open_rb (fs w1) dst = Ok data1) /\
     (os.is_dir (fs w) dst = true ->
      os.open_rb (fs w1) (dst ++ [pathlib.name fa]) = Ok data1)) /\
  (exists data2,
     os.open_rb (fs w1) fb = Ok data2 /\
     (os.is_dir (fs w1) dst = false -> os.open_rb (fs w2) dst = Ok data2) /\
     (os.is_dir (fs w1) dst = true ->
      os.open_rb (fs w2) (dst ++ [pathlib.name fb]) = Ok data2)).
Proof.
  cbv zeta.
  apply (copies_collide_iff sanitizer_hello ["src"; "a.jpg"]%string ["src"; "b.JPG"]%string
           jpeg_bytes jpeg_bytes (initial_world fs_case_twins)
           (snd (_copy_image sanitizer_hello
                   (mkImage ["src"; "a.jpg"]%string (sha1_hex jpeg_bytes))
                   (initial_world fs_case_twins)))
           ["dst"; "fb700591f95b.jpg"]%string ["dst"; "fb700591f95b.jpg"]%string
           (snd (_copy_image sanitizer_hello
                   (mkImage ["src"; "a.jpg"]%string (sha1_hex jpeg_bytes))
                   (initial_world fs_case_twins)))
           (snd (_copy_image sanitizer_hello
                   (mkImage ["src"; "b.JPG"]%string (sha1_hex jpeg_bytes))
                   (snd (_copy_image sanitizer_hello
                           (mkImage ["src"; "a.jpg"]%string (sha1_hex jpeg_bytes))
                           (initial_world fs_case_twins)))))).
  - vm_compute. reflexivity.
  - vm_compute. reflexivity.
Defined.
